(** * navajo: the per-connection HTTP/1.1 engine, embedded in Rocq

    A shallow embedding of [navajo/protocols/http/parser.py],
    [navajo/protocols/http/handlers.py] and
    [navajo/protocols/http/protocol.py], with the properties of the
    specification stated and proved (or refuted) on it.

    Conventions.
    - A Python [bytes] object is a [list byte]; a Python [str] is a
      [list ascii].  [decode('latin1')] and [encode('latin1')] map every
      octet to the code point of the same number and back.
    - A Python [int] is a [Z].
    - A call that may raise returns a [result]; a method that mutates
      [self] takes the object and returns the new one. *)

From Stdlib.Strings Require Import Ascii String Byte.
From Stdlib Require Import DecimalString.
From Stdlib Require Import List ZArith NArith Lia Bool.
Import ListNotations.
Local Open Scope Z_scope.

Set Implicit Arguments.

(** ** Python primitives used by the sources *)

Module Py.

Definition bytes := list byte.
Definition str := list ascii.

(** String and bytes literals. *)
Definition s (x : string) : str := list_ascii_of_string x.
Definition b (x : string) : bytes := list_byte_of_string x.

Definition CR : byte := x0d.
Definition LF : byte := x0a.
Definition crlf : bytes := [CR; LF].
Definition crlfcrlf : bytes := [CR; LF; CR; LF].
Definition scrlf : str := [ascii_of_nat 13; ascii_of_nat 10].

(** The lines of a literal, each followed by [CRLF]. *)
Definition lines (l : list string) : bytes :=
  concat (map (fun x => b x ++ crlf) l).

Definition decode_latin1 (x : bytes) : str := map ascii_of_byte x.
Definition encode_latin1 (x : str) : bytes := map byte_of_ascii x.

(** The exceptions the sources raise or let escape. *)
Inductive exn :=
| ValueError
| TypeError
| AttributeError
| RuntimeError
| OSError
| BadRequestError
| UnsupportedProtocolError (args : list str).

Inductive result (A : Type) :=
| Ok (a : A)
| Raise (e : exn).
Arguments Ok {A} a.
Arguments Raise {A} e.

Definition bind {A B} (r : result A) (k : A -> result B) : result B :=
  match r with
  | Ok a => k a
  | Raise e => Raise e
  end.

Notation "x <- r ;; k" := (bind r (fun x => k))
  (at level 61, r at next level, right associativity).

Definition len {A} (l : list A) : Z := Z.of_nat (length l).

(** *** Slices: [l[lo:hi]] with Python's treatment of negative and
    out-of-range bounds; [None] is an omitted bound. *)

Definition norm_index (n i : Z) : Z :=
  if i <? 0 then Z.max (n + i) 0 else Z.min i n.

Definition py_slice {A} (l : list A) (lo hi : option Z) : list A :=
  let n := len l in
  let a := match lo with Some i => norm_index n i | None => 0 end in
  let z := match hi with Some j => norm_index n j | None => n end in
  firstn (Z.to_nat (z - a)) (skipn (Z.to_nat a) l).

Definition slice_to {A} (l : list A) (hi : Z) := py_slice l None (Some hi).
Definition slice_from {A} (l : list A) (lo : Z) := py_slice l (Some lo) None.
Definition slice {A} (l : list A) (lo hi : Z) := py_slice l (Some lo) (Some hi).

(** *** Searching and splitting, generic in the element type *)

Section Seq.
Context {A : Type} (eqb : A -> A -> bool).

Fixpoint list_eqb (x y : list A) : bool :=
  match x, y with
  | [], [] => true
  | a :: x', c :: y' => eqb a c && list_eqb x' y'
  | _, _ => false
  end.

Fixpoint starts_with (pre l : list A) : bool :=
  match pre, l with
  | [], _ => true
  | a :: pre', c :: l' => eqb a c && starts_with pre' l'
  | _ :: _, [] => false
  end.

(** Offset of the first occurrence of [sub] in [l]. *)
Fixpoint find_first (sub l : list A) : option nat :=
  if starts_with sub l then Some O
  else match l with
       | [] => None
       | _ :: l' => option_map S (find_first sub l')
       end.

(** [l.find(sub, start)] for [0 <= start]. *)
Definition py_find (l sub : list A) (start : Z) : Z :=
  let st := Z.min (Z.max start 0) (len l) in
  match find_first sub (skipn (Z.to_nat st) l) with
  | Some k => st + Z.of_nat k
  | None => -1
  end.

(** [l.split(sep)] and [l.split(sep, maxsplit)] for a non-empty [sep]:
    [skip] counts the elements of a separator just matched that are
    still to be dropped, [cur] is the current part, reversed. *)
Fixpoint split_go (sep : list A) (maxsplit : option nat) (skip : nat)
         (cur l : list A) : list (list A) :=
  match l with
  | [] => [rev cur]
  | x :: l' =>
      match skip with
      | S k => split_go sep maxsplit k cur l'
      | O =>
          match maxsplit with
          | Some O => split_go sep maxsplit O (x :: cur) l'
          | _ =>
              if starts_with sep l
              then rev cur ::
                   split_go sep (option_map Nat.pred maxsplit)
                            (Nat.pred (length sep)) [] l'
              else split_go sep maxsplit O (x :: cur) l'
          end
      end
  end.

Definition py_split (l sep : list A) : list (list A) :=
  split_go sep None O [] l.

Definition py_split_max (l sep : list A) (maxsplit : nat) : list (list A) :=
  split_go sep (Some maxsplit) O [] l.

Fixpoint drop_while (p : A -> bool) (l : list A) : list A :=
  match l with
  | [] => []
  | x :: l' => if p x then drop_while p l' else l
  end.

(** [l.strip()] for a given class of white space. *)
Definition strip_with (p : A -> bool) (l : list A) : list A :=
  rev (drop_while p (rev (drop_while p l))).
End Seq.

Definition bytes_eqb : bytes -> bytes -> bool := list_eqb Byte.eqb.
Definition str_eqb : str -> str -> bool := list_eqb Ascii.eqb.

Definition bytes_find (l sub : bytes) (start : Z) : Z := py_find Byte.eqb l sub start.
Definition bytes_split (l sep : bytes) : list bytes := py_split Byte.eqb l sep.
Definition str_split (l sep : str) : list str := py_split Ascii.eqb l sep.
Definition str_split_max (l sep : str) (n : nat) : list str :=
  py_split_max Ascii.eqb l sep n.
Definition str_startswith (l pre : str) : bool := starts_with Ascii.eqb pre l.

Definition str_in (x : str) (xs : list str) : bool := existsb (str_eqb x) xs.

(** *** Case and white space *)

Definition in_range (lo hi c : N) : bool := ((lo <=? c) && (c <=? hi))%N.

(** [str.lower()] on the code points below 256: the ASCII capitals and
    the Latin-1 capitals U+00C0..U+00DE, U+00D7 (the multiplication
    sign) excepted. *)
Definition str_lower_char (c : ascii) : ascii :=
  let n := N_of_ascii c in
  if in_range 65 90 n || (in_range 192 222 n && negb (n =? 215)%N)
  then ascii_of_N (n + 32) else c.
Definition str_lower (x : str) : str := map str_lower_char x.

(** [bytes.lower()]: ASCII only. *)
Definition bytes_lower_char (c : byte) : byte :=
  let n := Byte.to_N c in
  if in_range 65 90 n
  then match Byte.of_N (n + 32) with Some c' => c' | None => c end
  else c.
Definition bytes_lower (x : bytes) : bytes := map bytes_lower_char x.

(** White space for [str.strip()], on the code points below 256. *)
Definition str_isspace (c : ascii) : bool :=
  let n := N_of_ascii c in
  in_range 9 13 n || in_range 28 32 n || (n =? 133)%N || (n =? 160)%N.
Definition str_strip (x : str) : str := strip_with str_isspace x.

(** *** [int(text)] and [int(text, 16)]

    The scanner of CPython's [PyLong_FromString], on code points: white
    space around the literal, one optional sign, for base 16 an optional
    [0x] prefix (one underscore may follow it), digits with single
    underscores between them.  The interpreter's limit on the number of
    decimal digits (4300 by default since 3.11) is not modelled: below
    it the two agree. *)

Definition digit_value (c : N) : option Z :=
  if in_range 48 57 c then Some (Z.of_N c - 48)
  else if in_range 97 122 c then Some (Z.of_N c - 97 + 10)
  else if in_range 65 90 c then Some (Z.of_N c - 65 + 10)
  else None.

Definition is_digit (base : Z) (c : N) : option Z :=
  match digit_value c with
  | Some d => if d <? base then Some d else None
  | None => None
  end.

(** Returns the value, the number of digits read and the rest; [None]
    for a doubled or trailing underscore. *)
Fixpoint scan_digits (base : Z) (prev_us : bool) (ndig : nat) (acc : Z)
         (l : list N) : option (Z * nat * list N) :=
  match l with
  | [] => if prev_us then None else Some (acc, ndig, [])
  | c :: l' =>
      if (c =? 95)%N then
        if prev_us then None else scan_digits base true ndig acc l'
      else
        match is_digit base c with
        | Some d => scan_digits base false (S ndig) (acc * base + d) l'
        | None => if prev_us then None else Some (acc, ndig, l)
        end
  end.

Definition skip_prefix (base : Z) (l : list N) : list N :=
  match l with
  | 48%N :: x :: l' =>
      if (base =? 16) && ((x =? 120)%N || (x =? 88)%N)
      then match l' with
           | 95%N :: l'' => l''
           | _ => l'
           end
      else l
  | _ => l
  end.

Definition py_int (isspace : N -> bool) (base : Z) (l : list N) : result Z :=
  let l := drop_while isspace l in
  let '(sign, l) := match l with
                    | 43%N :: l' => (1, l')
                    | 45%N :: l' => (-1, l')
                    | _ => (1, l)
                    end in
  let l := skip_prefix base l in
  match l with
  | 95%N :: _ => Raise ValueError
  | _ =>
      match scan_digits base false O 0 l with
      | None => Raise ValueError
      | Some (_, O, _) => Raise ValueError
      | Some (v, S _, rest) =>
          match drop_while isspace rest with
          | [] => Ok (sign * v)
          | _ :: _ => Raise ValueError
          end
      end
  end.

(** [int(s)] for a [str]: the white space is the ASCII one and, after
    the translation of wide white space to blanks, U+0085 and U+00A0. *)
Definition int_isspace_str (c : N) : bool :=
  in_range 9 13 c || (c =? 32)%N || (c =? 133)%N || (c =? 160)%N.
Definition int_isspace_bytes (c : N) : bool :=
  in_range 9 13 c || (c =? 32)%N.

Definition int_of_str (x : str) : result Z :=
  py_int int_isspace_str 10 (map N_of_ascii x).
Definition int_of_bytes (x : bytes) (base : Z) : result Z :=
  py_int int_isspace_bytes base (map Byte.to_N x).

(** [str(n)] for an [int]. *)
Definition str_of_int (n : Z) : str :=
  list_ascii_of_string (NilZero.string_of_int (Z.to_int n)).

End Py.

Import Py.

(** ** [parser.py]: the request buffer *)

Module Parser.

Inductive ParserError := BAD_REQUEST | LENGTH_REQUIRED.

Inductive ParserState :=
| RECEIVING_HEADERS
| RECEIVING_BODY
| COMPLETE
| RECEIVING_CHUNKS
| CHUNKS_COMPLETE
| ERROR.

(** [buffer] is the content of the [BytesIO], [position] its cursor. *)
Record RequestBuffer := mkRequestBuffer {
  buffer : bytes;
  position : Z;
  state : ParserState;
  content_length : option Z;
  is_chunked : bool;
  _headers_end : option Z;
  error : option ParserError
}.

(** [RequestBuffer()] *)
Definition init : RequestBuffer :=
  mkRequestBuffer [] 0 RECEIVING_HEADERS None false None None.

Definition set_buffer (self : RequestBuffer) (v : bytes) (p : Z) :=
  mkRequestBuffer v p (state self) (content_length self) (is_chunked self)
                  (_headers_end self) (error self).
Definition set_state (self : RequestBuffer) (v : ParserState) :=
  mkRequestBuffer (buffer self) (position self) v (content_length self)
                  (is_chunked self) (_headers_end self) (error self).
Definition set_content_length (self : RequestBuffer) (v : option Z) :=
  mkRequestBuffer (buffer self) (position self) (state self) v
                  (is_chunked self) (_headers_end self) (error self).
Definition set_is_chunked (self : RequestBuffer) (v : bool) :=
  mkRequestBuffer (buffer self) (position self) (state self)
                  (content_length self) v (_headers_end self) (error self).
Definition set_headers_end (self : RequestBuffer) (v : option Z) :=
  mkRequestBuffer (buffer self) (position self) (state self)
                  (content_length self) (is_chunked self) v (error self).
Definition set_error (self : RequestBuffer) (v : option ParserError) :=
  mkRequestBuffer (buffer self) (position self) (state self)
                  (content_length self) (is_chunked self) (_headers_end self) v.

(** [self.state = ERROR; self.error = BAD_REQUEST] *)
Definition fail_bad_request (self : RequestBuffer) : RequestBuffer :=
  set_error (set_state self ERROR) (Some BAD_REQUEST).

(** [self._headers_end] where the source computes with it.  The parser
    sets it before it leaves RECEIVING_HEADERS and reads it in the other
    states only; a buffer built by hand that reads it while it is [None]
    is given [0] here. *)
Definition headers_end_or_0 (self : RequestBuffer) : Z :=
  match _headers_end self with Some e => e | None => 0 end.

(** *** Header helpers *)

Fixpoint get_is_chunked_lines (lines : list str) : bool :=
  match lines with
  | [] => false
  | line :: rest =>
      if str_startswith (str_lower line) (s "transfer-encoding:")
      then str_eqb (str_strip (nth 1 (str_split_max line (s ":") 1) []))
                   (s "chunked")
      else get_is_chunked_lines rest
  end.

Definition _get_is_chunked (headers : str) : bool :=
  get_is_chunked_lines (str_split headers scrlf).

Fixpoint get_content_length_lines (lines : list str) : result (option Z) :=
  match lines with
  | [] => Ok None
  | line :: rest =>
      if str_startswith (str_lower line) (s "content-length:")
      then n <- int_of_str (str_strip (nth 1 (str_split_max line (s ":") 1) [])) ;;
           Ok (Some n)
      else get_content_length_lines rest
  end.

Definition _get_content_length (headers : str) : result (option Z) :=
  get_content_length_lines (str_split headers scrlf).

Definition _get_http_method (headers : str) : result str :=
  let lines := str_split headers scrlf in
  let first_line := str_split (nth 0 lines []) (s " ") in
  if negb (Nat.eqb (length first_line) 3) then Raise BadRequestError
  else Ok (nth 0 first_line []).

(** *** The chunk walk of [_has_final_chunk] *)

(** One turn of the [while chunks:] loop. *)
Inductive walk_step :=
| Return (r : bool)
| Bad                     (* raise BadRequestError *)
| Next (chunks : bytes).

(** [int(line.split(b';')[0], 16)]: the size a size line announces. *)
Definition size_of_line (line : bytes) : result Z :=
  let chunk_size_hex := nth 0 (bytes_split line (b ";")) [] in
  int_of_bytes chunk_size_hex 16.

Definition chunk_size_of (chunks : bytes) (chunk_size_end : Z) : result Z :=
  size_of_line (slice_to chunks chunk_size_end).

Definition final_chunk_step (chunks : bytes) : walk_step :=
  let chunk_size_end := bytes_find chunks crlf 0 in
  if chunk_size_end =? -1 then Return false
  else
    match chunk_size_of chunks chunk_size_end with
    | Raise _ => Bad
    | Ok chunk_size =>
        if chunk_size =? 0 then
          if len chunks <? chunk_size_end + 4 then Return false
          else if len chunks =? chunk_size_end + 4 then
            if negb (bytes_eqb (slice chunks chunk_size_end (chunk_size_end + 4)) crlfcrlf)
            then Bad
            else Return true
          else Bad
        else
          let full_chunk_size := chunk_size_end + 2 + chunk_size + 2 in
          if full_chunk_size >? len chunks then Return false
          else if negb (bytes_eqb (slice chunks (chunk_size_end + 2 + chunk_size)
                                         (chunk_size_end + 2 + chunk_size + 2)) crlf)
          then Bad
          else Next (slice_from chunks full_chunk_size)
    end.

(** The loop, with one unit of fuel per turn; [None] when the fuel is
    used up.  Every turn shortens [chunks], so its length is fuel enough
    ([final_chunk_loop_total]). *)
Fixpoint final_chunk_loop (fuel : nat) (chunks : bytes) : option (result bool) :=
  match chunks with
  | [] => Some (Ok false)
  | _ :: _ =>
      match final_chunk_step chunks with
      | Return r => Some (Ok r)
      | Bad => Some (Raise BadRequestError)
      | Next chunks' =>
          match fuel with
          | O => None
          | S fuel' => final_chunk_loop fuel' chunks'
          end
      end
  end.

Definition has_final_chunk_of (chunks : bytes) : result bool :=
  match final_chunk_loop (length chunks) chunks with
  | Some r => r
  | None => Ok false
  end.

Definition _has_final_chunk (self : RequestBuffer) : result bool :=
  let data := buffer self in
  let chunks := slice_from data (headers_end_or_0 self) in
  has_final_chunk_of chunks.

(** *** [_try_parse] and [feed_data]

    The result is the buffer after the call and the exception that
    escaped it, if one did. *)

Definition body_required (method : str) : bool :=
  str_in method [s "PUT"; s "POST"; s "PATCH"].

Definition try_final_chunk (self : RequestBuffer) : RequestBuffer * option exn :=
  match _has_final_chunk self with
  | Ok true => (set_state self CHUNKS_COMPLETE, None)
  | Ok false => (self, None)
  | Raise BadRequestError => (fail_bad_request self, None)
  | Raise e => (self, Some e)
  end.

Definition _try_parse (self : RequestBuffer) : RequestBuffer * option exn :=
  match state self with
  | RECEIVING_HEADERS =>
      let data := buffer self in
      let separator_index := bytes_find data crlfcrlf 0 in
      if negb (separator_index =? -1) then
        let self := set_headers_end self (Some (separator_index + 4)) in
        let headers_data := decode_latin1 (slice_to data separator_index) in
        let self := set_is_chunked self (_get_is_chunked headers_data) in
        if is_chunked self then
          let self := set_state self RECEIVING_CHUNKS in
          let current_body_size := len (buffer self) - headers_end_or_0 self in
          if current_body_size >? 0 then try_final_chunk self
          else (self, None)
        else
          match _get_content_length headers_data with
          | Raise e => (self, Some e)
          | Ok cl =>
              let self := set_content_length self cl in
              match _get_http_method headers_data with
              | Raise BadRequestError => (fail_bad_request self, None)
              | Raise e => (self, Some e)
              | Ok method =>
                  let body_required := body_required method in
                  match content_length self with
                  | None =>
                      if body_required then (fail_bad_request self, None)
                      else (set_state self COMPLETE, None)
                  | Some cl =>
                      if cl =? 0 then (set_state self COMPLETE, None)
                      else
                        let self := set_state self RECEIVING_BODY in
                        let current_body_size :=
                          len (buffer self) - headers_end_or_0 self in
                        if current_body_size >=? cl
                        then (set_state self COMPLETE, None)
                        else (self, None)
                  end
              end
          end
      else (self, None)
  | RECEIVING_BODY =>
      let current_body_size := len (buffer self) - headers_end_or_0 self in
      match content_length self with
      | None => (set_state self COMPLETE, None)
      | Some cl =>
          if current_body_size >=? cl then (set_state self COMPLETE, None)
          else (self, None)
      end
  | RECEIVING_CHUNKS => try_final_chunk self
  | _ => (self, None)
  end.

Definition is_complete (st : ParserState) : bool :=
  match st with
  | COMPLETE | CHUNKS_COMPLETE => true
  | _ => false
  end.

(** [feed_data]: the cursor goes to the end, the data are written there
    and the cursor is put back where the new data start. *)
Definition feed_data (self : RequestBuffer) (data : bytes)
  : RequestBuffer * result bool :=
  let current_position := len (buffer self) in
  let self := set_buffer self (buffer self ++ data) current_position in
  match _try_parse self with
  | (self, Some e) => (self, Raise e)
  | (self, None) => (self, Ok (is_complete (state self)))
  end.

(** *** Accessors *)

Definition get_request_headers (self : RequestBuffer) : result bytes :=
  match state self with
  | COMPLETE | CHUNKS_COMPLETE | RECEIVING_BODY | RECEIVING_CHUNKS =>
      Ok (slice_to (buffer self) (headers_end_or_0 self))
  | _ => Raise RuntimeError
  end.

(** One turn of the dechunking loop of [get_request_body]: the payload
    of the first chunk and what follows it. *)
Definition dechunk_step (chunk : bytes) : result (bytes * bytes) :=
  let chunk_size_end := bytes_find chunk crlf 0 in
  if chunk_size_end =? -1 then Raise BadRequestError
  else
    chunk_size <- chunk_size_of chunk chunk_size_end ;;
    let full_chunk_size := chunk_size_end + 2 + chunk_size + 2 in
    if full_chunk_size >? len chunk then Raise BadRequestError
    else Ok (slice chunk (chunk_size_end + 2) (chunk_size_end + chunk_size + 2),
             slice_from chunk full_chunk_size).

(** The loop with fuel; [None] when the fuel is used up.  A turn either
    shortens [chunk] or leaves it as it is, and then the source loops for
    ever. *)
Fixpoint dechunk_loop (fuel : nat) (chunk chunked_body : bytes)
  : option (result bytes) :=
  match chunk with
  | [] => Some (Ok chunked_body)
  | _ :: _ =>
      match dechunk_step chunk with
      | Raise e => Some (Raise e)
      | Ok (chunk_value, chunk') =>
          match fuel with
          | O => None
          | S fuel' => dechunk_loop fuel' chunk' (chunked_body ++ chunk_value)
          end
      end
  end.

(** [get_request_body]; [None] stands for a call that does not return. *)
Definition get_request_body (self : RequestBuffer) : option (result bytes) :=
  let data := buffer self in
  match state self with
  | COMPLETE =>
      match content_length self with
      | None => Some (Ok [])
      | Some cl =>
          if cl =? 0 then Some (Ok [])
          else Some (Ok (slice data (headers_end_or_0 self)
                               (headers_end_or_0 self + cl)))
      end
  | CHUNKS_COMPLETE =>
      let chunk := slice_from data (headers_end_or_0 self) in
      dechunk_loop (length chunk) chunk []
  | _ => Some (Raise RuntimeError)
  end.

(** *** [parse_headers] *)

Record ParsedHeaders := mkParsedHeaders {
  method : str;
  path : str;
  raw_path : bytes;
  query_string : bytes;
  headers : list (bytes * bytes);
  http_version : str
}.

Definition methods : list str :=
  [s "GET"; s "POST"; s "PUT"; s "DELETE"; s "HEAD"; s "CONNECT";
   s "OPTIONS"; s "TRACE"; s "PATCH"].

Definition versions : list str := [s "1.0"; s "1"; s "1.1"].

(** The loop over [header_lines[1:]]. *)
Fixpoint parse_header_lines (lines : list str) (has_host : bool)
         (parsed_headers : list (bytes * bytes))
  : result (bool * list (bytes * bytes)) :=
  match lines with
  | [] => Ok (has_host, parsed_headers)
  | line :: rest =>
      if match line with [] => true | _ => false end
         || str_startswith line (s ":")
      then parse_header_lines rest has_host parsed_headers
      else
        match str_split_max line (s ":") 1 with
        | [name; value] =>
            let has_host :=
              if str_eqb (str_lower (str_strip name)) (s "host")
                 && negb (str_eqb value [])
              then true else has_host in
            parse_header_lines rest has_host
              (parsed_headers ++
                 [(encode_latin1 (str_lower (str_strip name)),
                   encode_latin1 (str_strip value))])
        | _ => Raise BadRequestError
        end
  end.

Definition parse_headers (headers : bytes) : result ParsedHeaders :=
  let header_lines := str_split (decode_latin1 headers) scrlf in
  let first_line := str_split (nth 0 header_lines []) (s " ") in
  if negb (Nat.eqb (length first_line) 3) then Raise BadRequestError
  else
    let method := nth 0 first_line [] in
    let full_path := nth 1 first_line [] in
    let protocol := nth 2 first_line [] in
    if negb (str_in method methods) then Raise BadRequestError
    else
      let version := str_split protocol (s "/") in
      if negb (Nat.eqb (length version) 2) then Raise BadRequestError
      else if negb (str_in (nth 1 version []) versions)
      then Raise (UnsupportedProtocolError version)
      else
        let path := nth 0 (str_split full_path (s "?")) [] in
        let first_line_bytes := nth 0 (bytes_split headers crlf) [] in
        let raw_path_start := bytes_find first_line_bytes (b " ") 0 + 1 in
        let raw_query_start := bytes_find first_line_bytes (b "?") raw_path_start in
        let '(raw_path, query) :=
          if raw_query_start =? -1 then
            (slice first_line_bytes raw_path_start
                   (bytes_find first_line_bytes (b " ") raw_path_start),
             [])
          else
            (slice first_line_bytes raw_path_start raw_query_start,
             slice first_line_bytes (raw_query_start + 1)
                   (bytes_find first_line_bytes (b " ") raw_query_start)) in
        r <- parse_header_lines (tl header_lines) false [] ;;
        let '(has_host, parsed_headers) := r in
        if negb has_host then Raise BadRequestError
        else Ok (mkParsedHeaders method path raw_path query parsed_headers
                                 (last (str_split protocol (s "/")) [])).

(** *** [get_last_chunks] and [get_request_data] *)

(** One turn of the loop of [get_last_chunks]. *)
Definition last_chunks_step (chunk : bytes) : result (bytes * bytes) :=
  let chunk_size_end := bytes_find chunk crlf 0 in
  if chunk_size_end =? -1 then Raise BadRequestError
  else
    chunk_size <- chunk_size_of chunk chunk_size_end ;;
    let full_chunk_size := chunk_size_end + 2 + chunk_size + 2 in
    if full_chunk_size >? len chunk then Raise BadRequestError
    else Ok (slice chunk (chunk_size_end + 2) (chunk_size_end + 2 + chunk_size),
             slice_from chunk full_chunk_size).

Fixpoint last_chunks_loop (fuel : nat) (chunk chunked_body : bytes)
  : option (result bytes) :=
  match chunk with
  | [] => Some (Ok chunked_body)
  | _ :: _ =>
      match last_chunks_step chunk with
      | Raise e => Some (Raise e)
      | Ok (chunk_value, chunk') =>
          match fuel with
          | O => None
          | S fuel' => last_chunks_loop fuel' chunk' (chunked_body ++ chunk_value)
          end
      end
  end.

(** [get_last_chunks]: the chunks from the cursor on; [None] stands for a
    call that does not return. *)
Definition get_last_chunks (self : RequestBuffer) : option (result bytes) :=
  match state self with
  | RECEIVING_CHUNKS | CHUNKS_COMPLETE =>
      let current_position := position self in
      let data := buffer self in
      let chunk := slice_from data current_position in
      last_chunks_loop (length chunk) chunk []
  | _ => Some (Raise RuntimeError)
  end.

Definition get_request_data (self : RequestBuffer)
  : option (result (bytes * bytes)) :=
  match get_request_headers self with
  | Raise e => Some (Raise e)
  | Ok headers =>
      match get_request_body self with
      | None => None
      | Some (Raise e) => Some (Raise e)
      | Some (Ok body) => Some (Ok (headers, body))
      end
  end.

End Parser.

(** ** [handlers.py]: timers, canned responses, response state *)

Module Handlers.

(** The transport, as the protocol sees it: the arguments of the calls
    to [write], in order, and whether [close] has been called. *)
Record Transport := mkTransport {
  written : list bytes;
  closing : bool
}.

Definition transport_write (t : Transport) (data : bytes) : Transport :=
  mkTransport (written t ++ [data]) (closing t).
Definition transport_close (t : Transport) : Transport :=
  mkTransport (written t) true.

Inductive TimeoutType := REQUEST | KEEP_ALIVE | ALL.

(** A handle of [call_later]: its delay and whether it was cancelled. *)
Record TimerHandle := mkTimerHandle {
  delay : Z;
  cancelled : bool
}.

Record TimeoutHandler := mkTimeoutHandler {
  request_timeout_handle : option TimerHandle;
  keepalive_timeout_handle : option TimerHandle
}.

Definition cancel (h : option TimerHandle) : option TimerHandle :=
  option_map (fun x => mkTimerHandle (delay x) true) h.

Definition cancel_timeout_handle (self : TimeoutHandler) (type : TimeoutType)
  : TimeoutHandler :=
  let self :=
    match type with
    | REQUEST | ALL =>
        mkTimeoutHandler (cancel (request_timeout_handle self))
                         (keepalive_timeout_handle self)
    | KEEP_ALIVE => self
    end in
  match type with
  | KEEP_ALIVE | ALL =>
      mkTimeoutHandler (request_timeout_handle self)
                       (cancel (keepalive_timeout_handle self))
  | REQUEST => self
  end.

Definition reset_timeout (self : TimeoutHandler) (type : TimeoutType) (timeout : Z)
  : TimeoutHandler :=
  let self :=
    match type with
    | REQUEST | ALL =>
        mkTimeoutHandler (Some (mkTimerHandle timeout false))
                         (keepalive_timeout_handle self)
    | KEEP_ALIVE => self
    end in
  match type with
  | KEEP_ALIVE | ALL =>
      mkTimeoutHandler (request_timeout_handle self)
                       (Some (mkTimerHandle timeout false))
  | REQUEST => self
  end.

(** *** ErrorResponseHandler *)

Definition send_timeout_response (t : Transport) : Transport :=
  let response :=
    lines ["HTTP/1.1 408 Request Timeout"; "Content-Type: text/plain";
           "Connection: close"; ""]%string ++ b "Request timed out" in
  transport_close (transport_write t response).

(** [bytes(x)] with one argument: a [str] is refused, with a
    [TypeError] (string argument without an encoding). *)
Inductive pyobj :=
| PStr (x : str)
| PBytes (x : bytes).

Definition py_bytes (x : pyobj) : result bytes :=
  match x with
  | PStr _ => Raise TypeError
  | PBytes y => Ok y
  end.

Definition send_protocol_error_response (t : Transport) (error_msg : str)
  : Transport * result unit :=
  let body := s "Unsupported protocol: " ++ error_msg in
  let response :=
    body_bytes <- py_bytes (PStr body) ;;
    let content_len_header :=
      s "Content-Length: " ++ str_of_int (len body_bytes) ++ scrlf in
    header_bytes <- py_bytes (PStr content_len_header) ;;
    body_bytes <- py_bytes (PStr body) ;;
    Ok (lines ["HTTP/1.1 505 HTTP Version Not Supported";
               "Content-Type: text/plain"; "Connection: close"]%string
        ++ header_bytes ++ crlf ++ body_bytes) in
  match response with
  | Raise e => (t, Raise e)
  | Ok response => (transport_close (transport_write t response), Ok tt)
  end.

Definition send_bad_request_response (t : Transport) : Transport :=
  let response :=
    lines ["HTTP/1.1 400 Bad Request"; "Content-Type: text/plain";
           "Connection: close"; ""]%string in
  transport_close (transport_write t response).

Definition send_length_required_response (t : Transport) : Transport :=
  let response :=
    lines ["HTTP/1.1 411 Length Required"; "Content-Type: text/plain";
           "Connection: close"; ""]%string in
  transport_close (transport_write t response).

Definition send_internal_server_error_response (t : Transport) : Transport :=
  let response :=
    lines ["HTTP/1.1 500 Internal Server Error"; "Content-Type: text/plain";
           "Connection: close"; ""]%string in
  transport_close (transport_write t response).

(** *** ASGIResponseHandler *)

Record Scope := mkScope {
  scope_http_version : str;
  scope_method : str;
  scope_scheme : str;
  scope_path : str;
  scope_raw_path : bytes;
  scope_query_string : bytes;
  scope_headers : list (bytes * bytes);
  scope_client : option (str * Z);
  scope_server : option (str * Z)
}.

Record ASGIResponseHandler := mkASGIResponseHandler {
  _started : bool;
  _status : option Z;
  _headers : option (list (bytes * bytes));
  _scope : option Scope
}.

Definition asgi_init : ASGIResponseHandler :=
  mkASGIResponseHandler false None None None.

Definition set_started (self : ASGIResponseHandler) (v : bool) :=
  mkASGIResponseHandler v (_status self) (_headers self) (_scope self).
Definition set_status (self : ASGIResponseHandler) (v : Z) :=
  mkASGIResponseHandler (_started self) (Some v) (_headers self) (_scope self).
Definition set_headers (self : ASGIResponseHandler) (v : list (bytes * bytes)) :=
  mkASGIResponseHandler (_started self) (_status self) (Some v) (_scope self).
Definition set_scope (self : ASGIResponseHandler) (v : Scope) :=
  mkASGIResponseHandler (_started self) (_status self) (_headers self) (Some v).

End Handlers.

(** ** [protocol.py]: the connection *)

Module Protocol.
Import Parser Handlers.

Definition REQUEST_TIMEOUT : Z := 60.
Definition KEEP_ALIVE_TIMEOUT : Z := 5.
Definition MAX_KEEP_ALIVE_REQUESTS : Z := 100.

(** [scheduled] lists the scopes of the tasks handed to
    [asyncio.create_task], in order.  The transport of the protocol and
    the one of its [ErrorResponseHandler] are one object: one field. *)
Record HttpServerProtocol := mkHttpServerProtocol {
  transport : Transport;
  server : option (str * Z);
  client : option (str * Z);
  scheme : str;
  buffer : RequestBuffer;
  timeout_handler : TimeoutHandler;
  asgi_response_handler : ASGIResponseHandler;
  request_count : Z;
  scheduled : list Scope
}.

Definition with_transport (self : HttpServerProtocol) (v : Transport) :=
  mkHttpServerProtocol v (server self) (client self) (scheme self) (buffer self)
    (timeout_handler self) (asgi_response_handler self) (request_count self)
    (scheduled self).
Definition with_buffer (self : HttpServerProtocol) (v : RequestBuffer) :=
  mkHttpServerProtocol (transport self) (server self) (client self) (scheme self) v
    (timeout_handler self) (asgi_response_handler self) (request_count self)
    (scheduled self).
Definition with_timeout_handler (self : HttpServerProtocol) (v : TimeoutHandler) :=
  mkHttpServerProtocol (transport self) (server self) (client self) (scheme self)
    (buffer self) v (asgi_response_handler self) (request_count self)
    (scheduled self).
Definition with_asgi_response_handler (self : HttpServerProtocol)
           (v : ASGIResponseHandler) :=
  mkHttpServerProtocol (transport self) (server self) (client self) (scheme self)
    (buffer self) (timeout_handler self) v (request_count self) (scheduled self).
Definition with_request_count (self : HttpServerProtocol) (v : Z) :=
  mkHttpServerProtocol (transport self) (server self) (client self) (scheme self)
    (buffer self) (timeout_handler self) (asgi_response_handler self) v
    (scheduled self).
Definition create_task (self : HttpServerProtocol) (scope : Scope) :=
  mkHttpServerProtocol (transport self) (server self) (client self) (scheme self)
    (buffer self) (timeout_handler self) (asgi_response_handler self)
    (request_count self) (scheduled self ++ [scope]).

(** [connection_made]; the addresses and the TLS flag are what
    [utils.py] reads from the transport. *)
Definition connection_made (t : Transport) (server client : option (str * Z))
           (ssl : bool) : HttpServerProtocol :=
  mkHttpServerProtocol t server client (if ssl then s "https" else s "http")
    Parser.init (mkTimeoutHandler None None) asgi_init 0 [].

Definition cancel_timers (self : HttpServerProtocol) (type : TimeoutType) :=
  with_timeout_handler self (cancel_timeout_handle (timeout_handler self) type).

(** [e.value].  The exception classes of [utils.py] have an empty body:
    an instance keeps the argument of its constructor in [args] and has
    no attribute [value], nor has any built-in exception met here. *)
Definition exn_value (e : exn) : result (list str) :=
  match e with
  | _ => Raise AttributeError
  end.

(** [str(x)] for a list of strings: the [repr] of every element. *)
Definition hex_char (n : N) : ascii :=
  ascii_of_N (if (n <? 10)%N then 48 + n else 87 + n).

Definition repr_char (quote c : ascii) : str :=
  let n := N_of_ascii c in
  let backslash := ascii_of_nat 92 in
  if Ascii.eqb c quote || Ascii.eqb c backslash then [backslash; c]
  else if (n =? 9)%N then [backslash; "t"%char]
  else if (n =? 10)%N then [backslash; "n"%char]
  else if (n =? 13)%N then [backslash; "r"%char]
  else if (n <? 32)%N || (n =? 127)%N || in_range 128 160 n || (n =? 173)%N
  then [backslash; "x"%char; hex_char (n / 16); hex_char (n mod 16)]
  else [c].

Definition repr_str (x : str) : str :=
  let single := "'"%char in
  let double := ascii_of_nat 34 in
  let quote :=
    if existsb (Ascii.eqb single) x && negb (existsb (Ascii.eqb double) x)
    then double else single in
  quote :: flat_map (repr_char quote) x ++ [quote].

Fixpoint join (sep : str) (l : list str) : str :=
  match l with
  | [] => []
  | [x] => x
  | x :: rest => x ++ sep ++ join sep rest
  end.

Definition str_of_list (l : list str) : str :=
  s "[" ++ join (s ", ") (map repr_str l) ++ s "]".

Definition data_received (self : HttpServerProtocol) (data : bytes)
  : HttpServerProtocol * result unit :=
  let self :=
    with_timeout_handler self
      (cancel_timeout_handle
         (reset_timeout (timeout_handler self) REQUEST REQUEST_TIMEOUT)
         KEEP_ALIVE) in
  match feed_data (buffer self) data with
  | (buf, Raise e) => (with_buffer self buf, Raise e)
  | (buf, Ok _) =>
      let self := with_buffer self buf in
      match state buf with
      | RECEIVING_CHUNKS | CHUNKS_COMPLETE | COMPLETE =>
          match (headers <- get_request_headers buf ;; parse_headers headers) with
          | Raise RuntimeError => (self, Ok tt)
          | Raise (UnsupportedProtocolError _ as protocol_error) =>
              let self := cancel_timers self ALL in
              match exn_value protocol_error with
              | Raise e => (self, Raise e)
              | Ok value =>
                  let '(t, r) :=
                    send_protocol_error_response (transport self)
                                                 (str_of_list value) in
                  (with_transport self t, r)
              end
          | Raise BadRequestError =>
              let self := cancel_timers self ALL in
              (with_transport self (send_bad_request_response (transport self)),
               Ok tt)
          | Raise e => (self, Raise e)
          | Ok parsed_headers =>
              let scope :=
                mkScope (http_version parsed_headers) (method parsed_headers)
                        (scheme self) (path parsed_headers)
                        (raw_path parsed_headers) (query_string parsed_headers)
                        (headers parsed_headers) (client self) (server self) in
              let self := create_task self scope in
              if is_complete (state buf) then
                let self := with_request_count self (request_count self + 1) in
                let self := with_buffer self Parser.init in
                (cancel_timers self REQUEST, Ok tt)
              else (self, Ok tt)
          end
      | ERROR =>
          let self := cancel_timers self ALL in
          match error buf with
          | Some LENGTH_REQUIRED =>
              (with_transport self
                 (send_length_required_response (transport self)), Ok tt)
          | _ =>
              (with_transport self
                 (send_bad_request_response (transport self)), Ok tt)
          end
      | _ => (self, Ok tt)
      end
  end.

(** *** Keep-alive *)

(** The [for name, value in ...['headers']] loop and the [return] after it. *)
Fixpoint keep_alive_scan (hs : list (bytes * bytes)) (version : str) : bool :=
  match hs with
  | [] => str_eqb version (s "1.1")
  | (name, value) :: rest =>
      if bytes_eqb (bytes_lower name) (b "connection")
      then negb (bytes_eqb (bytes_lower value) (b "close"))
      else keep_alive_scan rest version
  end.

(** Subscripting the scope when it is still [None] raises a [TypeError]. *)
Definition should_keep_alive (self : HttpServerProtocol) : result bool :=
  if request_count self >=? MAX_KEEP_ALIVE_REQUESTS then Ok false
  else
    match _scope (asgi_response_handler self) with
    | None => Raise TypeError
    | Some scope =>
        Ok (keep_alive_scan (scope_headers scope) (scope_http_version scope))
    end.

(** *** The ASGI [send] callable *)

Inductive Message :=
| ResponseStart (status : Z) (headers : list (bytes * bytes))
| ResponseBody (body : option bytes) (more_body : option bool)
| OtherMessage (type : str).

(** [f"{status}"] *)
Definition format_status (st : option Z) : str :=
  match st with
  | Some n => str_of_int n
  | None => s "None"
  end.

Definition status_line (h : ASGIResponseHandler) : str :=
  s "HTTP/1.1 " ++ format_status (_status h) ++ scrlf.

Definition header_line (nv : bytes * bytes) : str :=
  decode_latin1 (fst nv) ++ s ": " ++ decode_latin1 (snd nv) ++ scrlf.

(** [status_line.encode() + b''.join(...) + b'\r\n'] *)
Definition response_head (h : ASGIResponseHandler) (hs : list (bytes * bytes))
  : bytes :=
  encode_latin1 (status_line h)
  ++ concat (map (fun nv => encode_latin1 (header_line nv)) hs)
  ++ crlf.

Definition _send (self : HttpServerProtocol) (message : Message)
  : HttpServerProtocol * result unit :=
  if closing (transport self) then (self, Raise OSError)
  else
    match message with
    | ResponseStart status headers =>
        let h := asgi_response_handler self in
        let h := set_headers (set_status (set_started h true) status) headers in
        (with_asgi_response_handler self h, Ok tt)
    | ResponseBody body more_body =>
        let h := asgi_response_handler self in
        if negb (_started h) then (self, Raise RuntimeError)
        else
          match _headers h with
          | None => (self, Raise TypeError)
          | Some hs =>
              let response :=
                response_head h hs
                ++ match body with Some x => x | None => [] end in
              let self := with_transport self
                            (transport_write (transport self) response) in
              if negb (match more_body with Some x => x | None => false end)
              then
                match should_keep_alive self with
                | Raise e => (self, Raise e)
                | Ok false =>
                    let self := cancel_timers self ALL in
                    (with_transport self (transport_close (transport self)),
                     Ok tt)
                | Ok true =>
                    (with_timeout_handler self
                       (reset_timeout (timeout_handler self) KEEP_ALIVE
                                      KEEP_ALIVE_TIMEOUT), Ok tt)
                end
              else (self, Ok tt)
          end
    | OtherMessage _ => (self, Ok tt)
    end.

(** The application sends [messages] in order; the first exception
    ends the run. *)
Fixpoint send_all (self : HttpServerProtocol) (messages : list Message)
  : HttpServerProtocol * result unit :=
  match messages with
  | [] => (self, Ok tt)
  | m :: rest =>
      match _send self m with
      | (self, Ok _) => send_all self rest
      | (self, Raise e) => (self, Raise e)
      end
  end.

(** [handle_request] up to the call of the application. *)
Definition handle_request_begin (self : HttpServerProtocol) (scope : Scope) :=
  with_asgi_response_handler self (set_scope (asgi_response_handler self) scope).

(** *** The other callbacks *)

(** [connection_lost]; [close] does not raise here. *)
Definition connection_lost (self : HttpServerProtocol) : HttpServerProtocol :=
  let self := cancel_timers self ALL in
  if negb (closing (transport self))
  then with_transport self (transport_close (transport self))
  else self.

Definition _timeout_expired (self : HttpServerProtocol) : HttpServerProtocol :=
  with_transport self (send_timeout_response (transport self)).

Definition _keepalive_timeout_expired (self : HttpServerProtocol)
  : HttpServerProtocol :=
  with_transport self (transport_close (transport self)).

(** The messages of the ASGI [receive] callable. *)
Inductive ReceiveMessage :=
| HttpDisconnect
| HttpRequest (body : bytes) (more_body : bool).

(** [_receive]; [None] stands for a call that does not return. *)
Definition _receive (self : HttpServerProtocol)
  : option (result ReceiveMessage) :=
  if closing (transport self) then Some (Ok HttpDisconnect)
  else
    match state (buffer self) with
    | RECEIVING_CHUNKS | CHUNKS_COMPLETE =>
        match get_last_chunks (buffer self) with
        | None => None
        | Some (Raise e) => Some (Raise e)
        | Some (Ok body) =>
            let more_body :=
              match state (buffer self) with
              | CHUNKS_COMPLETE => false
              | _ => true
              end in
            Some (Ok (HttpRequest body more_body))
        end
    | COMPLETE =>
        match get_request_body (buffer self) with
        | None => None
        | Some (Raise e) => Some (Raise e)
        | Some (Ok body) => Some (Ok (HttpRequest body false))
        end
    | _ => Some (Ok (HttpRequest [] false))
    end.

(** An application, for [handle_request]: what its run does to the
    connection through [_receive] and [_send], and how it ends ([None]:
    it does not). *)
Definition App := HttpServerProtocol -> HttpServerProtocol * option (result unit).

(** [handle_request]: the scope is bound, the application runs; an
    [OSError] is dropped, any other exception becomes the 500 response. *)
Definition handle_request (self : HttpServerProtocol) (scope : Scope) (app : App)
  : HttpServerProtocol * option unit :=
  let self := handle_request_begin self scope in
  match app self with
  | (self, None) => (self, None)
  | (self, Some (Ok _)) => (self, Some tt)
  | (self, Some (Raise OSError)) => (self, Some tt)
  | (self, Some (Raise _)) =>
      let self := cancel_timers self ALL in
      (with_transport self
         (send_internal_server_error_response (transport self)), Some tt)
  end.

(** Applications that make calls one after the other and catch nothing. *)
Inductive AppAction :=
| AppReceive
| AppSend (message : Message)
| AppRaise (e : exn).

Fixpoint run_app (script : list AppAction) (self : HttpServerProtocol)
  : HttpServerProtocol * option (result unit) :=
  match script with
  | [] => (self, Some (Ok tt))
  | AppReceive :: rest =>
      match _receive self with
      | None => (self, None)
      | Some (Raise e) => (self, Some (Raise e))
      | Some (Ok _) => run_app rest self
      end
  | AppSend message :: rest =>
      match _send self message with
      | (self, Ok _) => run_app rest self
      | (self, Raise e) => (self, Some (Raise e))
      end
  | AppRaise e :: _ => (self, Some (Raise e))
  end.

End Protocol.

(** ** Vocabulary of the statements *)

Module Spec.
Import Parser Handlers Protocol.

(** Feeding a buffer piece by piece, as successive calls of
    [data_received] do; an exception ends the run. *)
Fixpoint feed_all (self : RequestBuffer) (pieces : list bytes)
  : RequestBuffer * result unit :=
  match pieces with
  | [] => (self, Ok tt)
  | data :: rest =>
      match feed_data self data with
      | (self', Ok _) => feed_all self' rest
      | (self', Raise e) => (self', Raise e)
      end
  end.

(** The third token of the request line of a header block. *)
Definition protocol_token (headers : bytes) : str :=
  let header_lines := str_split (decode_latin1 headers) scrlf in
  nth 2 (str_split (nth 0 header_lines []) (s " ")) [].

(** Header names, as the keep-alive scan compares them. *)
Definition is_connection (name : bytes) : Prop :=
  bytes_lower name = b "connection".

Definition no_connection (hs : list (bytes * bytes)) : Prop :=
  Forall (fun nv => ~ is_connection (fst nv)) hs.

(** What holds of a buffer between two calls of [feed_data]: once the
    header block is complete its end is known and lies within the
    buffer, and in state COMPLETE the announced body has arrived. *)
Definition header_end_known (self : RequestBuffer) : Prop :=
  state self = COMPLETE \/ state self = RECEIVING_BODY ->
  exists he, _headers_end self = Some he /\ 0 <= he <= len (Parser.buffer self).

Definition body_received (self : RequestBuffer) : Prop :=
  state self = COMPLETE ->
  forall L, content_length self = Some L -> L <> 0 ->
            headers_end_or_0 self + L <= len (Parser.buffer self).

Definition framed (self : RequestBuffer) : Prop :=
  header_end_known self /\ body_received self.

(** *** Legal requests

    [head] is the request line and the header lines, without the blank
    line that ends them: the first [CRLF CRLF] of [head ++ CRLF CRLF] is
    the one appended. *)
Definition ends_at_blank_line (head : bytes) : Prop :=
  bytes_find (head ++ crlfcrlf) crlfcrlf 0 = len head.

(** Size lines without extension: hexadecimal digits, one at least.
    They hold no [CRLF] and announce a size that is not negative
    ([hex_line_ends_at_crlf], [size_of_hex_line]). *)
Definition hex_digit (c : byte) : Prop := is_digit 16 (Byte.to_N c) <> None.
Definition hex_line (l : bytes) : Prop := l <> [] /\ Forall hex_digit l.

(** A chunked body and its payload: chunks of a positive size, each a
    size line that holds no [CRLF], its data and a [CRLF], then a chunk
    of size zero and the closing [CRLF]. *)
Inductive chunked_body : bytes -> bytes -> Prop :=
| last_chunk size_line :
    bytes_find (size_line ++ crlf) crlf 0 = len size_line ->
    size_of_line size_line = Ok 0 ->
    chunked_body (size_line ++ crlf ++ crlf) []
| data_chunk size_line n data rest payload :
    bytes_find (size_line ++ crlf) crlf 0 = len size_line ->
    size_of_line size_line = Ok n ->
    0 < n ->
    len data = n ->
    chunked_body rest payload ->
    chunked_body (size_line ++ crlf ++ data ++ crlf ++ rest) (data ++ payload).

(** A legal request and its body: chunked; or without a body, for a
    method that needs none; or with the body its [Content-Length]
    announces.  The header block is read the way the parser reads it. *)
Inductive legal_request : bytes -> bytes -> Prop :=
| legal_chunked head body payload :
    ends_at_blank_line head ->
    _get_is_chunked (decode_latin1 head) = true ->
    chunked_body body payload ->
    legal_request (head ++ crlfcrlf ++ body) payload
| legal_no_body head method :
    ends_at_blank_line head ->
    _get_is_chunked (decode_latin1 head) = false ->
    _get_content_length (decode_latin1 head) = Ok None ->
    _get_http_method (decode_latin1 head) = Ok method ->
    body_required method = false ->
    legal_request (head ++ crlfcrlf) []
| legal_content_length head method body :
    ends_at_blank_line head ->
    _get_is_chunked (decode_latin1 head) = false ->
    _get_content_length (decode_latin1 head) = Ok (Some (len body)) ->
    _get_http_method (decode_latin1 head) = Ok method ->
    legal_request (head ++ crlfcrlf ++ body) body.

(** The parts of a legal request as the parser reads them: the header
    block [head], what follows its blank line, whether the block says
    chunked and, when it does not, the Content-Length it announces. *)
Definition legal_parts (head body payload : bytes) (chunked : bool)
           (cl : option Z) : Prop :=
  ends_at_blank_line head
  /\ _get_is_chunked (decode_latin1 head) = chunked
  /\ if chunked then chunked_body body payload
     else _get_content_length (decode_latin1 head) = Ok cl
          /\ (exists method,
                 _get_http_method (decode_latin1 head) = Ok method
                 /\ (cl = None -> body_required method = false))
          /\ match cl with
             | None => body = []
             | Some L => L = len body
             end
          /\ payload = body.

(** The state of the parser once the first [n] bytes of such a request
    have been fed. *)
Definition expected_state (head body : bytes) (chunked : bool) (cl : option Z)
           (n : Z) : ParserState :=
  if n <? len head + 4 then RECEIVING_HEADERS
  else if chunked then
    if n =? len head + 4 + len body then CHUNKS_COMPLETE else RECEIVING_CHUNKS
  else
    match cl with
    | None => COMPLETE
    | Some L =>
        if (L =? 0) || (len head + 4 + L <=? n) then COMPLETE
        else RECEIVING_BODY
    end.

(** [self] is a parser that has been fed the prefix [p] of the request. *)
Definition tracks (head body : bytes) (chunked : bool) (cl : option Z)
           (self : RequestBuffer) (p : bytes) : Prop :=
  Parser.buffer self = p
  /\ state self = expected_state head body chunked cl (len p)
  /\ (len head + 4 <= len p ->
      _headers_end self = Some (len head + 4)
      /\ (chunked = false -> content_length self = cl)).

(** *** The states of the parser

    [allowed a c]: a call of [feed_data] may take the parser from state
    [a] to state [c]. *)
Definition allowed (a c : ParserState) : bool :=
  match a, c with
  | RECEIVING_HEADERS, _ => true
  | RECEIVING_BODY, (RECEIVING_BODY | COMPLETE) => true
  | RECEIVING_CHUNKS, (RECEIVING_CHUNKS | CHUNKS_COMPLETE | ERROR) => true
  | COMPLETE, COMPLETE => true
  | CHUNKS_COMPLETE, CHUNKS_COMPLETE => true
  | ERROR, ERROR => true
  | _, _ => false
  end.

(** The error tag goes with the state ERROR, and is BAD_REQUEST. *)
Definition error_tagged (self : RequestBuffer) : Prop :=
  (state self = ERROR /\ error self = Some BAD_REQUEST)
  \/ (state self <> ERROR /\ error self = None).

(** Once the parser has left RECEIVING_HEADERS, [_headers_end] is the
    end of the first blank line of the buffer. *)
Definition headers_located (self : RequestBuffer) : Prop :=
  state self <> RECEIVING_HEADERS ->
  exists k, find_first Byte.eqb crlfcrlf (Parser.buffer self) = Some k
            /\ _headers_end self = Some (Z.of_nat k + 4).

(** A request is framed by chunks or by its Content-Length, not both. *)
Definition framing_exclusive (self : RequestBuffer) : Prop :=
  match state self with
  | RECEIVING_CHUNKS | CHUNKS_COMPLETE =>
      is_chunked self = true /\ content_length self = None
  | RECEIVING_BODY | COMPLETE => is_chunked self = false
  | RECEIVING_HEADERS => content_length self = None
  | ERROR => True
  end.

(** *** Pieces of a chunked body

    A run of whole chunks and its payload; the chunk of size zero is one
    of them. *)
Inductive chunk_run : bytes -> bytes -> Prop :=
| run_end : chunk_run [] []
| run_chunk size_line n data rest payload :
    bytes_find (size_line ++ crlf) crlf 0 = len size_line ->
    size_of_line size_line = Ok n ->
    0 <= n ->
    len data = n ->
    chunk_run rest payload ->
    chunk_run (size_line ++ crlf ++ data ++ crlf ++ rest) (data ++ payload).

(** A chunk that is cut: inside its size line, or after it, before the
    end of its data and the [CRLF] that follows them. *)
Inductive cut_chunk : bytes -> Prop :=
| cut_in_size_line tail :
    tail <> [] -> bytes_find tail crlf 0 = -1 -> cut_chunk tail
| cut_in_data size_line n part :
    bytes_find (size_line ++ crlf) crlf 0 = len size_line ->
    size_of_line size_line = Ok n ->
    len part < n + 2 ->
    cut_chunk (size_line ++ crlf ++ part).

(** *** The connection

    Successive calls of [data_received]; an exception ends the run, as
    the event loop then drops the connection. *)
Fixpoint receive_all (self : HttpServerProtocol) (pieces : list bytes)
  : HttpServerProtocol * result unit :=
  match pieces with
  | [] => (self, Ok tt)
  | data :: rest =>
      match data_received self data with
      | (self', Ok _) => receive_all self' rest
      | (self', Raise e) => (self', Raise e)
      end
  end.

(** A timer that will fire: armed and not cancelled. *)
Definition active (h : option TimerHandle) : bool :=
  match h with
  | Some x => negb (cancelled x)
  | None => false
  end.

(** The connection once [data_received] has dealt with its timers. *)
Definition armed (self : HttpServerProtocol) : HttpServerProtocol :=
  with_timeout_handler self
    (cancel_timeout_handle
       (reset_timeout (timeout_handler self) REQUEST REQUEST_TIMEOUT)
       KEEP_ALIVE).

(** The scope [data_received] builds from a parsed header block. *)
Definition scope_of (self : HttpServerProtocol) (r : ParsedHeaders) : Scope :=
  mkScope (http_version r) (method r) (scheme self) (path r) (raw_path r)
          (query_string r) (headers r) (client self) (server self).

(** A body message that announces more. *)
Definition more_body_message (x : bytes) : Message :=
  ResponseBody (Some x) (Some true).

(** Steps of an application that raise nothing of their own. *)
Definition raises_nothing (a : AppAction) : Prop :=
  match a with
  | AppRaise _ => False
  | _ => True
  end.

(** *** Header lines

    The lines [parse_headers] keeps, and the entry it makes of one. *)
Definition header_line_kept (line : str) : bool :=
  negb (match line with [] => true | _ => false end || str_startswith line (s ":")).

Definition header_entry (line : str) : bytes * bytes :=
  let parts := str_split_max line (s ":") 1 in
  (encode_latin1 (str_lower (str_strip (nth 0 parts []))),
   encode_latin1 (str_strip (nth 1 parts []))).

(** A line that holds no [CRLF], also when one is appended. *)
Definition crlf_free (line : str) : Prop :=
  find_first Ascii.eqb scrlf (line ++ scrlf) = Some (length line).

Definition is_content_length (line : str) : bool :=
  str_startswith (str_lower line) (s "content-length:").

Definition is_transfer_encoding (line : str) : bool :=
  str_startswith (str_lower line) (s "transfer-encoding:").

(** *** Request lines *)
Definition SP : byte := x20.
Definition QM : byte := x3f.

(** The target of a request line: a path and, after a question mark, a
    query. *)
Definition request_target (p : bytes) (q : option bytes) : bytes :=
  match q with
  | Some q => p ++ QM :: q
  | None => p
  end.

Definition request_line (m p : bytes) (q : option bytes) (v : bytes) : bytes :=
  m ++ SP :: request_target p q ++ SP :: v.

(** No blank in the method, the path or the query, no question mark in
    the path nor, when there is no query, in the protocol. *)
Definition target_ok (m p : bytes) (q : option bytes) (v : bytes) : Prop :=
  ~ In SP m /\ ~ In SP p /\ ~ In QM p
  /\ match q with
     | Some q => ~ In SP q
     | None => ~ In QM v
     end.

End Spec.

(** Sample inputs of the statements below. *)

Module Examples.
Import Parser Handlers Protocol Spec.
Local Open Scope string_scope.
Local Open Scope list_scope.

Definition fresh_connection : HttpServerProtocol :=
  connection_made (mkTransport [] false) None None false.

Definition request_http2 : bytes :=
  lines ["GET / HTTP/2.0"; "Host: h"; ""].

Definition request_bad_length : bytes :=
  lines ["GET / HTTP/1.1"; "Host: h"; "Content-Length: abc"; ""].

Definition request_foo_protocol : bytes :=
  lines ["GET / FOO/1.1"; "Host: h"; ""].

Definition request_blank_host : bytes :=
  lines ["GET / HTTP/1.1"; "Host:  "; ""].

Definition request_negative_length : bytes :=
  lines ["GET / HTTP/1.1"; "Host: h"; "Content-Length: -1"; ""].

Definition request_hello : bytes :=
  lines ["POST /s HTTP/1.1"; "Host: h"; "Content-Length: 12"; ""]
  ++ b "Hello, World".

Definition upload_head : bytes :=
  b "POST /u HTTP/1.1" ++ crlf ++ b "Host: h" ++ crlf
  ++ b "Transfer-Encoding: chunked".

Definition upload_body : bytes :=
  b "5" ++ crlf ++ b "Hello" ++ crlf
  ++ b "6;last" ++ crlf ++ b "World!" ++ crlf
  ++ b "0" ++ crlf ++ crlf.

Definition chunked_upload : bytes := upload_head ++ crlfcrlf ++ upload_body.

(** [chunked_upload], cut inside the header block, inside a size line
    and inside the data of a chunk. *)
Definition chunked_upload_pieces : list bytes :=
  [b "POST /u HT";
   b "TP/1.1" ++ crlf ++ b "Host: h" ++ crlf ++ b "Transfer-Encoding: chunked"
   ++ [CR; LF; CR];
   [LF] ++ b "5" ++ crlf ++ b "Hel";
   b "lo" ++ crlf ++ b "6;la";
   [];
   b "st" ++ crlf ++ b "World!" ++ crlf ++ b "0" ++ [CR];
   [LF; CR; LF]].

Definition scope_get : Scope :=
  mkScope (s "1.1") (s "GET") (s "http") (s "/") (b "/") []
          [(b "host", b "h"); (b "connection", b "keep-alive")] None None.

(** A connection whose application has been started on [scope_get]. *)
Definition serving_connection : HttpServerProtocol :=
  handle_request_begin fresh_connection scope_get.

Definition streamed_response : list Message :=
  [ResponseStart 200 [(b "content-type", b "text/plain")];
   ResponseBody (Some (b "Hello, ")) (Some true);
   ResponseBody (Some (b "World!")) None].

(** The header block of [request_hello] and what [parse_headers] makes
    of it. *)
Definition hello_head : bytes :=
  lines ["POST /s HTTP/1.1"; "Host: h"; "Content-Length: 12"; ""].

Definition hello_parsed : ParsedHeaders :=
  mkParsedHeaders (s "POST") (s "/s") (b "/s") []
                  [(b "host", b "h"); (b "content-length", b "12")] (s "1.1").

(** [request_hello], cut inside the request line and inside the body. *)
Definition hello_pieces : list bytes :=
  [b "POST /s HT";
   b "TP/1.1" ++ crlf ++ b "Host: h" ++ crlf ++ b "Content-Length: 12" ++ crlf
   ++ crlf ++ b "Hello";
   [];
   b ", World"].

Definition request_get : bytes := lines ["GET / HTTP/1.1"; "Host: h"; ""].

Definition request_query : bytes :=
  lines ["GET /a/b?x=1 HTTP/1.1"; "Host: h"; ""].

Definition query_parsed : ParsedHeaders :=
  mkParsedHeaders (s "GET") (s "/a/b") (b "/a/b") (b "x=1")
                  [(b "host", b "h")] (s "1.1").

Definition one_chunk : bytes := b "5" ++ crlf ++ b "Hello" ++ crlf.

(** A parser and a connection that have received the header block of
    [chunked_upload]. *)
Definition uploading_parser : RequestBuffer :=
  fst (feed_data init (upload_head ++ crlfcrlf)).

Definition uploading_connection : HttpServerProtocol :=
  fst (data_received fresh_connection (upload_head ++ crlfcrlf)).

(** A connection kept alive after [streamed_response]. *)
Definition kept_connection : HttpServerProtocol :=
  fst (send_all serving_connection streamed_response).

End Examples.

(** ** Facts about the primitives *)

Section PyFacts.

Lemma list_eqb_eq {A} (eqb : A -> A -> bool)
      (Heqb : forall x y, eqb x y = true <-> x = y) :
  forall x y, list_eqb eqb x y = true <-> x = y.
Proof.
  induction x as [|a x IH]; destruct y as [|c y]; simpl; split;
    try congruence; try reflexivity.
  - intros H. apply andb_true_iff in H as [H1 H2].
    apply Heqb in H1. apply IH in H2. congruence.
  - intros H. inversion H; subst. apply andb_true_iff. split.
    + now apply Heqb.
    + now apply IH.
Qed.

Lemma byte_eqb_eq (x y : byte) : Byte.eqb x y = true <-> x = y.
Proof. split; [apply Byte.byte_dec_bl | apply Byte.byte_dec_lb]. Qed.

Lemma bytes_eqb_eq (x y : bytes) : bytes_eqb x y = true <-> x = y.
Proof. apply list_eqb_eq, byte_eqb_eq. Qed.

Lemma str_eqb_eq (x y : str) : str_eqb x y = true <-> x = y.
Proof. apply list_eqb_eq, Ascii.eqb_eq. Qed.

Lemma bytes_eqb_refl (x : bytes) : bytes_eqb x x = true.
Proof. now apply bytes_eqb_eq. Qed.

Lemma bytes_eqb_neq (x y : bytes) : bytes_eqb x y = false <-> x <> y.
Proof.
  split.
  - intros H E. apply bytes_eqb_eq in E. congruence.
  - intros H. destruct (bytes_eqb x y) eqn:E; [|reflexivity].
    apply bytes_eqb_eq in E. contradiction.
Qed.

Lemma str_eqb_neq (x y : str) : str_eqb x y = false <-> x <> y.
Proof.
  split.
  - intros H E. apply str_eqb_eq in E. congruence.
  - intros H. destruct (str_eqb x y) eqn:E; [|reflexivity].
    apply str_eqb_eq in E. contradiction.
Qed.

Lemma encode_decode_latin1 (x : bytes) : encode_latin1 (decode_latin1 x) = x.
Proof.
  unfold encode_latin1, decode_latin1. rewrite map_map.
  rewrite <- (map_id x) at 2. apply map_ext. apply byte_of_ascii_of_byte.
Qed.

Lemma encode_latin1_app (x y : str) :
  encode_latin1 (x ++ y) = encode_latin1 x ++ encode_latin1 y.
Proof. apply map_app. Qed.

End PyFacts.

(** ** The 505 path (C1) *)

Section UnsupportedProtocol.
Import Parser Handlers Protocol Spec Examples.

(** [send_protocol_error_response] never reaches its [write]: the first
    [bytes(body)] raises. *)
Lemma send_protocol_error_response_raises (t : Transport) (msg : str) :
  send_protocol_error_response t msg = (t, Raise TypeError).
Proof. reflexivity. Qed.

(** Whenever [parse_headers] raises [UnsupportedProtocolError], the
    handler of [data_received] raises in its turn, and the transport is
    left as it was: nothing written, not closed. *)
Lemma data_received_unsupported_protocol self data buf r v :
  feed_data (buffer self) data = (buf, Ok r) ->
  is_complete (state buf) = true \/ state buf = RECEIVING_CHUNKS ->
  (headers <- get_request_headers buf ;; parse_headers headers)
  = Raise (UnsupportedProtocolError v) ->
  snd (data_received self data) = Raise AttributeError
  /\ transport (fst (data_received self data)) = transport self.
Proof.
  intros Hfeed Hst Hparse. unfold data_received. cbn [with_timeout_handler buffer].
  rewrite Hfeed.
  assert (E : match state buf with
              | RECEIVING_CHUNKS | CHUNKS_COMPLETE | COMPLETE => true
              | _ => false end = true)
    by (destruct Hst as [H|H]; [destruct (state buf); try discriminate H|rewrite H];
        reflexivity).
  destruct (state buf); try discriminate E; rewrite Hparse; split; reflexivity.
Qed.

(** C1 (code defect).  On [GET / HTTP/2.0], a version outside 1.0, 1 and
    1.1, [data_received] ends with an [AttributeError] (the handler reads
    [protocol_error.value], which no instance has): no 505 response is
    written and the transport is not closed. *)
Theorem data_received_http2_writes_no_505 :
  snd (data_received fresh_connection request_http2) = Raise AttributeError
  /\ written (transport (fst (data_received fresh_connection request_http2))) = []
  /\ closing (transport (fst (data_received fresh_connection request_http2))) = false.
Proof. vm_compute. repeat split. Qed.

End UnsupportedProtocol.

(** ** [feed_data] and a Content-Length that is no integer (C2) *)

Section FeedRaises.
Import Parser Spec Examples.

(** C2 (code defect).  Fed a header block whose Content-Length is [abc],
    [feed_data] raises [ValueError]: the [int(...)] of
    [_get_content_length] is outside every [try].  The parser is left in
    RECEIVING_HEADERS with no error tag. *)
Theorem feed_data_bad_content_length_raises :
  snd (feed_data init request_bad_length) = Raise ValueError
  /\ state (fst (feed_data init request_bad_length)) = RECEIVING_HEADERS
  /\ error (fst (feed_data init request_bad_length)) = None.
Proof. vm_compute. repeat split. Qed.

(** The sibling path: a chunk size that is no hexadecimal integer is
    caught and becomes state ERROR with tag BAD_REQUEST. *)
Lemma feed_data_bad_chunk_size_is_error :
  let r := feed_data init
             (lines ["POST /u HTTP/1.1"; "Transfer-Encoding: chunked"; ""]%string
              ++ b "zz" ++ crlf) in
  snd r = Ok false /\ state (fst r) = ERROR /\ error (fst r) = Some BAD_REQUEST.
Proof. vm_compute. repeat split. Qed.

End FeedRaises.

(** ** What a body message writes (C3) *)

Section SendBody.
Import Parser Handlers Protocol Spec Examples.

(** The head of a response, in bytes: the round trip through Latin-1
    leaves names and values as they are. *)
Lemma response_head_bytes (h : ASGIResponseHandler) (hs : list (bytes * bytes)) :
  response_head h hs
  = b "HTTP/1.1 " ++ encode_latin1 (format_status (_status h)) ++ crlf
    ++ concat (map (fun nv => fst nv ++ b ": " ++ snd nv ++ crlf) hs)
    ++ crlf.
Proof.
  unfold response_head, status_line. rewrite !encode_latin1_app.
  rewrite <- !app_assoc. f_equal. f_equal. f_equal. f_equal. f_equal.
  apply map_ext. intros [name value]. unfold header_line. cbn [fst snd].
  rewrite !encode_latin1_app, !encode_decode_latin1. reflexivity.
Qed.

(** C3, as the code has it.  Every [http.response.body] message sent
    after the start message, the first and the later ones alike, makes
    one [write] of the status line, the header block, a blank line and
    the body bytes of the message. *)
Theorem send_body_writes_head_and_body self body more_body hs :
  closing (transport self) = false ->
  _started (asgi_response_handler self) = true ->
  _headers (asgi_response_handler self) = Some hs ->
  written (transport (fst (_send self (ResponseBody body more_body))))
  = written (transport self)
    ++ [b "HTTP/1.1 "
        ++ encode_latin1 (format_status (_status (asgi_response_handler self)))
        ++ crlf
        ++ concat (map (fun nv => fst nv ++ b ": " ++ snd nv ++ crlf) hs)
        ++ crlf
        ++ match body with Some x => x | None => [] end].
Proof.
  intros Hopen Hstarted Hheaders. unfold _send.
  rewrite Hopen, Hstarted, Hheaders. cbn [negb].
  rewrite response_head_bytes, <- !app_assoc.
  destruct (negb _); [|reflexivity].
  destruct (should_keep_alive _) as [[|]|e]; reflexivity.
Qed.

Lemma send_body_writes_head_and_body_witness :
  written (transport (fst (_send (fst (send_all serving_connection
                                         (firstn 2 streamed_response)))
                                 (ResponseBody (Some (b "World!")) None))))
  = [lines ["HTTP/1.1 200"; "content-type: text/plain"; ""]%string ++ b "Hello, ";
     lines ["HTTP/1.1 200"; "content-type: text/plain"; ""]%string ++ b "World!"].
Proof.
  rewrite (@send_body_writes_head_and_body _ _ _
             [(b "content-type", b "text/plain")]);
    reflexivity.
Defined.

(** C3 as stated fails: of the two body messages of [streamed_response]
    the second writes the status line and the headers again, not its
    body bytes only. *)
Lemma second_body_message_repeats_head :
  exists first second,
    written (transport (fst (send_all serving_connection streamed_response)))
    = [first; second]
    /\ second <> b "World!"
    /\ second
       = lines ["HTTP/1.1 200"; "content-type: text/plain"; ""]%string ++ b "World!".
Proof.
  eexists; eexists. split; [vm_compute; reflexivity|].
  split; [discriminate|reflexivity].
Qed.

End SendBody.

(** ** The protocol token of the request line (C4) *)

Section ProtocolToken.
Import Parser Spec Examples.

(** C4, as the code has it.  [parse_headers] checks the shape and the
    version of the third token of the request line and nothing else of
    it: when the token is not made of exactly two parts around one [/],
    the second of them 1.0, 1 or 1.1, [parse_headers] fails, with
    [BadRequestError] or [UnsupportedProtocolError]. *)
Theorem parse_headers_checks_version h :
  (forall prefix version,
      str_split (protocol_token h) (s "/") = [prefix; version] ->
      str_in version versions = false) ->
  parse_headers h = Raise BadRequestError
  \/ parse_headers h
     = Raise (UnsupportedProtocolError (str_split (protocol_token h) (s "/"))).
Proof.
  intros Hshape. unfold parse_headers. unfold protocol_token in *.
  set (first_line := str_split (nth 0 (str_split (decode_latin1 h) scrlf) []) (s " ")) in *.
  destruct (negb (length first_line =? 3)%nat); [now left|].
  destruct (negb (str_in (nth 0 first_line []) methods)); [now left|].
  set (version := str_split (nth 2 first_line []) (s "/")) in *.
  destruct (negb (length version =? 2)%nat) eqn:Hlen; [now left|].
  apply negb_false_iff, Nat.eqb_eq in Hlen.
  destruct version as [|prefix [|v [|]]]; try discriminate Hlen.
  cbn [nth]. rewrite (Hshape prefix v eq_refl). now right.
Qed.

Lemma parse_headers_checks_version_witness :
  parse_headers request_http2 = Raise BadRequestError
  \/ parse_headers request_http2
     = Raise (UnsupportedProtocolError
                (str_split (protocol_token request_http2) (s "/"))).
Proof.
  apply parse_headers_checks_version.
  intros prefix version H. vm_compute in H. inversion H. reflexivity.
Defined.

(** The part before the [/] is reported with the version. *)
Lemma parse_headers_accepted_version h r :
  parse_headers h = Ok r ->
  exists prefix,
    str_split (protocol_token h) (s "/") = [prefix; http_version r]
    /\ str_in (http_version r) versions = true.
Proof.
  unfold parse_headers, protocol_token.
  set (first_line := str_split (nth 0 (str_split (decode_latin1 h) scrlf) []) (s " ")).
  destruct (negb (length first_line =? 3)%nat); [discriminate|].
  destruct (negb (str_in (nth 0 first_line []) methods)); [discriminate|].
  set (version := str_split (nth 2 first_line []) (s "/")).
  destruct (negb (length version =? 2)%nat) eqn:Hlen; [discriminate|].
  apply negb_false_iff, Nat.eqb_eq in Hlen.
  destruct version as [|prefix [|v [|]]]; try discriminate Hlen.
  cbn [nth]. destruct (str_in v versions) eqn:Hv; [|discriminate]. cbn [negb].
  destruct (_ =? -1); cbn beta iota;
    (destruct (parse_header_lines _ _ _) as [[has_host parsed]|]; [|discriminate];
     cbn [bind]; destruct (negb has_host); [discriminate|];
     intros E; injection E as <-; exists prefix; cbn; auto).
Qed.

(** C4 as stated fails: the token [FOO/1.1] does not begin with [HTTP/]
    and [parse_headers] returns a parsed result for it. *)
Lemma parse_headers_accepts_foo_protocol :
  protocol_token request_foo_protocol = s "FOO/1.1"
  /\ str_startswith (protocol_token request_foo_protocol) (s "HTTP/") = false
  /\ parse_headers request_foo_protocol
     = Ok (mkParsedHeaders (s "GET") (s "/") (b "/") [] [(b "host", b "h")]
                           (s "1.1")).
Proof. vm_compute. repeat split. Qed.

End ProtocolToken.

(** ** The Host requirement (C8) *)

Section HostHeader.
Import Parser Spec Examples.

(** C8 (code defect).  A header block whose only Host header has a
    value of two blanks is accepted: the test [value != ''] is made on
    the value before it is stripped, and the scope receives an empty
    host. *)
Theorem parse_headers_accepts_blank_host :
  parse_headers request_blank_host
  = Ok (mkParsedHeaders (s "GET") (s "/") (b "/") [] [(b "host", [])] (s "1.1")).
Proof. vm_compute. reflexivity. Qed.

(** With no character after the colon the block is refused. *)
Lemma parse_headers_rejects_empty_host :
  parse_headers (lines ["GET / HTTP/1.1"; "Host:"; ""]%string)
  = Raise BadRequestError.
Proof. vm_compute. reflexivity. Qed.

End HostHeader.

(** ** The keep-alive decision (C7, C10) *)

Section KeepAlive.
Import Parser Handlers Protocol Spec Examples.

Lemma is_connection_eqb name :
  is_connection name -> bytes_eqb (bytes_lower name) (b "connection") = true.
Proof. intros H. now apply bytes_eqb_eq. Qed.

Lemma not_connection_eqb name :
  ~ is_connection name -> bytes_eqb (bytes_lower name) (b "connection") = false.
Proof. intros H. now apply bytes_eqb_neq. Qed.

(** The scan stops at the first Connection header. *)
Lemma keep_alive_scan_first pre name value post version :
  no_connection pre ->
  is_connection name ->
  keep_alive_scan (pre ++ (name, value) :: post) version
  = negb (bytes_eqb (bytes_lower value) (b "close")).
Proof.
  intros Hpre Hname.
  induction Hpre as [|[n v] pre Hn _ IH]; cbn [app keep_alive_scan].
  - now rewrite (is_connection_eqb Hname).
  - cbn [fst] in Hn. now rewrite (not_connection_eqb Hn).
Qed.

(** Without a Connection header the version decides. *)
Lemma keep_alive_scan_none hs version :
  no_connection hs ->
  keep_alive_scan hs version = str_eqb version (s "1.1").
Proof.
  intros Hhs. induction Hhs as [|[n v] hs Hn _ IH]; cbn [keep_alive_scan].
  - reflexivity.
  - cbn [fst] in Hn. now rewrite (not_connection_eqb Hn).
Qed.

(** C7.  With the scope of the request bound: at
    [MAX_KEEP_ALIVE_REQUESTS] requests or more the decision is to close;
    below, the Connection header that the scan of the request headers
    meets decides, closing when its value is [close] in any case of
    letters and keeping alive for any other value; with no Connection
    header the connection is kept exactly for version 1.1. *)
Theorem should_keep_alive_decision self scope :
  _scope (asgi_response_handler self) = Some scope ->
  (MAX_KEEP_ALIVE_REQUESTS <= request_count self ->
   should_keep_alive self = Ok false)
  /\ (request_count self < MAX_KEEP_ALIVE_REQUESTS ->
      (forall pre name value post,
          scope_headers scope = pre ++ (name, value) :: post ->
          no_connection pre ->
          is_connection name ->
          (bytes_lower value = b "close" -> should_keep_alive self = Ok false)
          /\ (bytes_lower value <> b "close" -> should_keep_alive self = Ok true))
      /\ (no_connection (scope_headers scope) ->
          (scope_http_version scope = s "1.1" -> should_keep_alive self = Ok true)
          /\ (scope_http_version scope <> s "1.1" ->
              should_keep_alive self = Ok false))).
Proof.
  intros Hscope. unfold should_keep_alive. split.
  - intros Hmax. apply Z.geb_le in Hmax. now rewrite Hmax.
  - intros Hlow. apply Z.lt_nge in Hlow.
    destruct (request_count self >=? MAX_KEEP_ALIVE_REQUESTS) eqn:E;
      [apply Z.geb_le in E; contradiction|].
    rewrite Hscope. split.
    + intros pre name value post Hhs Hpre Hname. rewrite Hhs.
      rewrite (keep_alive_scan_first _ _ _ Hpre Hname). split; intros Hv.
      * apply bytes_eqb_eq in Hv. now rewrite Hv.
      * apply bytes_eqb_neq in Hv. now rewrite Hv.
    + intros Hnone. rewrite (keep_alive_scan_none _ Hnone). split; intros Hv.
      * apply str_eqb_eq in Hv. now rewrite Hv.
      * apply str_eqb_neq in Hv. now rewrite Hv.
Qed.

Lemma should_keep_alive_decision_witness :
  (MAX_KEEP_ALIVE_REQUESTS <= request_count serving_connection ->
   should_keep_alive serving_connection = Ok false)
  /\ (request_count serving_connection < MAX_KEEP_ALIVE_REQUESTS ->
      (forall pre name value post,
          scope_headers scope_get = pre ++ (name, value) :: post ->
          no_connection pre ->
          is_connection name ->
          (bytes_lower value = b "close" ->
           should_keep_alive serving_connection = Ok false)
          /\ (bytes_lower value <> b "close" ->
              should_keep_alive serving_connection = Ok true))
      /\ (no_connection (scope_headers scope_get) ->
          (scope_http_version scope_get = s "1.1" ->
           should_keep_alive serving_connection = Ok true)
          /\ (scope_http_version scope_get <> s "1.1" ->
              should_keep_alive serving_connection = Ok false))).
Proof. apply (@should_keep_alive_decision serving_connection scope_get). reflexivity. Defined.

(** C10.  When the request headers hold a Connection header, the first
    of them in the order of the scope decides with the request count:
    two connections at the same count whose headers agree up to that
    header take the same decision, whatever follows it and whatever the
    version. *)
Theorem first_connection_header_decides self self' scope scope' pre name value post post' :
  _scope (asgi_response_handler self) = Some scope ->
  _scope (asgi_response_handler self') = Some scope' ->
  request_count self = request_count self' ->
  scope_headers scope = pre ++ (name, value) :: post ->
  scope_headers scope' = pre ++ (name, value) :: post' ->
  no_connection pre ->
  is_connection name ->
  should_keep_alive self = should_keep_alive self'
  /\ should_keep_alive self
     = Ok (if request_count self >=? MAX_KEEP_ALIVE_REQUESTS then false
           else negb (bytes_eqb (bytes_lower value) (b "close"))).
Proof.
  intros Hs Hs' Hcount Hhs Hhs' Hpre Hname. unfold should_keep_alive.
  rewrite <- Hcount, Hs, Hs', Hhs, Hhs'.
  rewrite !(keep_alive_scan_first _ _ _ Hpre Hname).
  split; [reflexivity|]. now destruct (_ >=? _).
Qed.

Lemma first_connection_header_decides_witness :
  let later := mkScope (s "1.0") (s "GET") (s "http") (s "/") (b "/") []
                 [(b "host", b "h"); (b "connection", b "keep-alive");
                  (b "connection", b "close")] None None in
  should_keep_alive serving_connection
  = should_keep_alive (handle_request_begin fresh_connection later)
  /\ should_keep_alive serving_connection = Ok true.
Proof.
  intros later.
  apply (@first_connection_header_decides
           serving_connection (handle_request_begin fresh_connection later)
           scope_get later
           [(b "host", b "h")] (b "connection") (b "keep-alive") []
           [(b "connection", b "close")]);
    try reflexivity.
  repeat constructor. cbn. discriminate.
Defined.

End KeepAlive.

(** ** Slices and searches on concatenations *)

Section Slices.
Context {A : Type}.
Implicit Types l x y m : list A.

Lemma len_app x y : len (x ++ y) = len x + len y.
Proof. unfold len. rewrite length_app. lia. Qed.

Lemma len_nonneg l : 0 <= len l.
Proof. unfold len. lia. Qed.

Lemma len_nil_inv l : len l = 0 -> l = [].
Proof. destruct l; [reflexivity|]. unfold len. cbn. lia. Qed.

Lemma norm_index_id n i : 0 <= i <= n -> norm_index n i = i.
Proof.
  intros H. unfold norm_index.
  destruct (i <? 0) eqn:E; [apply Z.ltb_lt in E; lia|]. lia.
Qed.

Lemma slice_to_eq l i : 0 <= i <= len l -> slice_to l i = firstn (Z.to_nat i) l.
Proof.
  intros H. unfold slice_to, py_slice. rewrite norm_index_id by exact H.
  cbn [Z.to_nat skipn]. now rewrite Z.sub_0_r.
Qed.

Lemma slice_from_eq l i : 0 <= i <= len l -> slice_from l i = skipn (Z.to_nat i) l.
Proof.
  intros H. unfold slice_from, py_slice. rewrite norm_index_id by exact H.
  apply firstn_all2. rewrite length_skipn. unfold len in *. lia.
Qed.

Lemma slice_eq l a z :
  0 <= a -> a <= z -> z <= len l ->
  slice l a z = firstn (Z.to_nat (z - a)) (skipn (Z.to_nat a) l).
Proof.
  intros Ha Haz Hz. unfold slice, py_slice.
  now rewrite !norm_index_id by lia.
Qed.

Lemma slice_to_app x y : slice_to (x ++ y) (len x) = x.
Proof.
  rewrite slice_to_eq by (rewrite len_app; pose proof (len_nonneg x);
                          pose proof (len_nonneg y); lia).
  unfold len. rewrite Nat2Z.id, firstn_app, Nat.sub_diag, firstn_all.
  cbn. apply app_nil_r.
Qed.

Lemma slice_from_app x y : slice_from (x ++ y) (len x) = y.
Proof.
  rewrite slice_from_eq by (rewrite len_app; pose proof (len_nonneg x);
                            pose proof (len_nonneg y); lia).
  unfold len. rewrite Nat2Z.id, skipn_app, Nat.sub_diag, skipn_all.
  reflexivity.
Qed.

Lemma slice_app_mid x m y n :
  n = len x + len m -> slice (x ++ m ++ y) (len x) n = m.
Proof.
  intros ->. pose proof (len_nonneg x). pose proof (len_nonneg m).
  pose proof (len_nonneg y).
  rewrite slice_eq by (rewrite ?len_app; lia).
  replace (len x + len m - len x) with (len m) by lia.
  unfold len. rewrite !Nat2Z.id, skipn_app, Nat.sub_diag, skipn_all.
  cbn [skipn app]. rewrite firstn_app, Nat.sub_diag, firstn_all.
  cbn. apply app_nil_r.
Qed.

(** The length of a slice. *)
Lemma py_slice_length l lo hi :
  len (py_slice l lo hi)
  = let n := len l in
    let a := match lo with Some i => norm_index n i | None => 0 end in
    let z := match hi with Some j => norm_index n j | None => n end in
    Z.max 0 (Z.min (z - a) (n - a)).
Proof.
  unfold py_slice. cbv zeta. pose proof (len_nonneg l) as Hn.
  set (n := len l) in *.
  set (a := match lo with Some i => norm_index n i | None => 0 end).
  set (z := match hi with Some j => norm_index n j | None => n end).
  assert (0 <= a <= n).
  { subst a. destruct lo as [i|]; [|lia].
    unfold norm_index. destruct (i <? 0) eqn:E; [apply Z.ltb_lt in E|apply Z.ltb_ge in E]; lia. }
  unfold len. rewrite length_firstn, length_skipn.
  change (Z.of_nat (length l)) with n in *.
  assert (Z.of_nat (length l) = n) by reflexivity. lia.
Qed.

(** A list cut at [a] and at [a + n]. *)
Lemma slice_three l a n :
  0 <= a -> 0 <= n -> a + n <= len l ->
  l = slice_to l a ++ slice l a (a + n) ++ slice_from l (a + n)
  /\ len (slice l a (a + n)) = n.
Proof.
  intros Ha Hn Hl.
  rewrite slice_to_eq, slice_eq, slice_from_eq by lia.
  replace (a + n - a) with n by lia. split.
  - rewrite <- (firstn_skipn (Z.to_nat a) l) at 1. f_equal.
    rewrite <- (firstn_skipn (Z.to_nat n) (skipn (Z.to_nat a) l)) at 1.
    f_equal. rewrite skipn_skipn. f_equal. lia.
  - unfold len in *. rewrite length_firstn, length_skipn. lia.
Qed.

(** Two ways of cutting one list. *)
Lemma app_eq_app_le x y c c' :
  c ++ c' = x ++ y -> (length x <= length c)%nat ->
  exists c2, c = x ++ c2 /\ y = c2 ++ c'.
Proof.
  revert c. induction x as [|a x IH]; intros c H Hlen.
  - exists c. cbn in *. auto.
  - destruct c as [|a' c]; [cbn in Hlen; lia|].
    cbn in H. injection H as -> H. cbn in Hlen.
    destruct (IH c H ltac:(lia)) as [c2 [-> ->]]. exists c2. auto.
Qed.

Context (eqb : A -> A -> bool).

Lemma starts_with_app sub x y :
  starts_with eqb sub x = true -> starts_with eqb sub (x ++ y) = true.
Proof.
  revert x. induction sub as [|a sub IH]; intros [|c x]; cbn; try congruence.
  intros H. apply andb_true_iff in H as [H1 H2]. rewrite H1. cbn. now apply IH.
Qed.

Lemma starts_with_app_inv sub x y :
  starts_with eqb sub (x ++ y) = true -> (length sub <= length x)%nat ->
  starts_with eqb sub x = true.
Proof.
  revert x. induction sub as [|a sub IH]; intros [|c x]; cbn; try congruence;
    try lia.
  intros H Hlen. apply andb_true_iff in H as [H1 H2]. rewrite H1. cbn.
  apply IH; [exact H2|lia].
Qed.

Lemma starts_with_length sub x :
  starts_with eqb sub x = true -> (length sub <= length x)%nat.
Proof.
  revert x. induction sub as [|a sub IH]; intros [|c x]; cbn; try congruence;
    try lia.
  intros H. apply andb_true_iff in H as [_ H]. apply IH in H. lia.
Qed.

(** An occurrence lies within the list. *)
Lemma find_first_bound sub l k :
  find_first eqb sub l = Some k -> (k + length sub <= length l)%nat.
Proof.
  revert k. induction l as [|a l IH]; intros k; cbn [find_first].
  - destruct (starts_with eqb sub []) eqn:E; [|discriminate].
    intros [= <-]. apply starts_with_length in E. lia.
  - destruct (starts_with eqb sub (a :: l)) eqn:E.
    + intros [= <-]. apply starts_with_length in E. lia.
    + destruct (find_first eqb sub l) as [j|]; [|discriminate].
      intros [= <-]. specialize (IH j eq_refl). cbn. lia.
Qed.

(** The first occurrence in a list is the first occurrence in every
    extension of it. *)
Lemma find_first_app sub x y k :
  find_first eqb sub x = Some k -> find_first eqb sub (x ++ y) = Some k.
Proof.
  revert k. induction x as [|a x IH]; intros k; cbn [find_first app].
  - destruct (starts_with eqb sub []) eqn:E; [|discriminate].
    intros [= <-]. destruct sub; [|discriminate E]. now destruct y.
  - destruct (starts_with eqb sub (a :: x)) eqn:E.
    + intros [= <-].
      pose proof (starts_with_app sub (a :: x) y E) as E2.
      cbn [app] in E2. now rewrite E2.
    + destruct (find_first eqb sub x) as [j|] eqn:F; [|discriminate].
      intros [= <-].
      destruct (starts_with eqb sub (a :: x ++ y)) eqn:E'.
      * pose proof (find_first_bound _ _ F) as Hb.
        rewrite (starts_with_app_inv sub (a :: x) y E') in E;
          [discriminate|cbn; lia].
      * now rewrite (IH j eq_refl).
Qed.

(** The first occurrence in an extension, when it lies within the list,
    is its first occurrence there; when it does not, there is none. *)
Lemma find_first_app_inv sub x y k :
  find_first eqb sub (x ++ y) = Some k ->
  if (k + length sub <=? length x)%nat
  then find_first eqb sub x = Some k
  else find_first eqb sub x = None.
Proof.
  intros H. destruct (find_first eqb sub x) as [j|] eqn:F.
  - pose proof (find_first_bound _ _ F) as Hb.
    rewrite (find_first_app _ _ y F) in H. injection H as <-.
    destruct (Nat.leb_spec (j + length sub) (length x)); [reflexivity|lia].
  - destruct (Nat.leb_spec (k + length sub) (length x)) as [Hle|]; [|reflexivity].
    exfalso. revert k H Hle F. induction x as [|a x IH]; intros k H Hle F.
    + cbn in Hle. assert (k = 0%nat /\ sub = []) as [-> ->]
        by (destruct sub; cbn in Hle; split; try lia; reflexivity).
      cbn in F. discriminate.
    + cbn [find_first app] in H, F.
      destruct (starts_with eqb sub (a :: x)) eqn:E; [discriminate|].
      destruct (starts_with eqb sub (a :: x ++ y)) eqn:E'.
      * injection H as <-.
        rewrite (starts_with_app_inv sub (a :: x) y E') in E;
          [discriminate|cbn in *; lia].
      * destruct (find_first eqb sub (x ++ y)) as [j|] eqn:G; [|discriminate].
        injection H as <-.
        destruct (find_first eqb sub x) eqn:F'; [discriminate|].
        apply (IH j eq_refl); [cbn in Hle; lia|reflexivity].
Qed.

Lemma py_find_0 l sub :
  py_find eqb l sub 0
  = match find_first eqb sub l with
    | Some k => Z.of_nat k
    | None => -1
    end.
Proof.
  unfold py_find. pose proof (len_nonneg l).
  replace (Z.min (Z.max 0 0) (len l)) with 0 by lia.
  cbn. reflexivity.
Qed.

End Slices.

(** ** Tactics *)

(** Boolean tests of the source, as facts on integers. *)
Ltac bool_to_Z :=
  repeat match goal with
         | H : (_ =? _) = true |- _ => apply Z.eqb_eq in H
         | H : (_ =? _) = false |- _ => apply Z.eqb_neq in H
         | H : (_ >=? _) = true |- _ => apply Z.geb_le in H
         | H : (_ >=? _) = false |- _ => rewrite Z.geb_leb in H; apply Z.leb_gt in H
         | H : (_ >? _) = true |- _ => rewrite Z.gtb_ltb in H; apply Z.ltb_lt in H
         | H : (_ >? _) = false |- _ => rewrite Z.gtb_ltb in H; apply Z.ltb_ge in H
         | H : (_ <? _) = true |- _ => apply Z.ltb_lt in H
         | H : (_ <? _) = false |- _ => apply Z.ltb_ge in H
         | H : (_ <=? _) = true |- _ => apply Z.leb_le in H
         | H : (_ <=? _) = false |- _ => apply Z.leb_gt in H
         end.

(** Goals on [length], moved to [len]. *)
Ltac by_len :=
  match goal with
  | |- (length ?x <= length ?y)%nat =>
      apply Nat2Z.inj_le; change (len x <= len y);
      rewrite ?len_app; change (len crlf) with 2; change (len crlfcrlf) with 4;
      try lia
  | |- (length ?x <= ?f)%nat =>
      apply Nat2Z.inj_le; change (len x <= Z.of_nat f);
      rewrite ?len_app; change (len crlf) with 2; change (len crlfcrlf) with 4;
      try lia
  end.

(** Every [if] of the goal whose test is not itself conditional, by
    cases; the impossible ones are closed by arithmetic. *)
Ltac cases :=
  repeat match goal with
         | |- context [if ?c then _ else _] =>
             match c with
             | context [if _ then _ else _] => fail 1
             | _ => let E := fresh "E" in destruct c eqn:E; bool_to_Z; try lia
             end
         end.

(** ** Framing by Content-Length (C6, C9) *)

Section Framing.
Import Parser Spec Examples.

Lemma bytes_find_0_cases (l sub : bytes) :
  bytes_find l sub 0 = -1
  \/ (0 <= bytes_find l sub 0 /\ bytes_find l sub 0 + len sub <= len l).
Proof.
  unfold bytes_find. rewrite py_find_0.
  destruct (find_first Byte.eqb sub l) as [k|] eqn:F; [right|now left].
  apply find_first_bound in F. unfold len. lia.
Qed.

#[local] Arguments body_required : simpl never.
#[local] Arguments len : simpl never.
#[local] Arguments bytes_find : simpl never.

(** One case of the invariant, after the state of the result is known. *)
Ltac framed_case :=
  split;
  [ intros HH;
    first [ now (destruct HH as [HH|HH]; discriminate HH)
          | eexists; split; [reflexivity || eassumption | lia] ]
  | intros HH;
    first [ discriminate HH
          | intros L HL HL0;
            first [ discriminate HL
                  | injection HL as <-; lia
                  | congruence ] ] ].

(** [feed_data] keeps the framing invariant. *)
Lemma feed_data_framed self data :
  framed self -> framed (fst (feed_data self data)).
Proof.
  intros [Hhe Hbody]. unfold framed, header_end_known, body_received in *.
  unfold feed_data, _try_parse. cbn [state set_buffer buffer].
  pose proof (len_app (buffer self) data) as Hlen.
  pose proof (len_nonneg data) as Hdata.
  destruct (state self) eqn:Hst.
  - set (received := buffer self ++ data) in *.
    destruct (bytes_find_0_cases received crlfcrlf) as [Hm | [H0 Hb]].
    + rewrite Hm. cbn. rewrite Hst. framed_case.
    + destruct (bytes_find received crlfcrlf 0 =? -1) eqn:E; bool_to_Z; [lia|].
      change (len crlfcrlf) with 4 in Hb.
      cbn [negb is_chunked set_is_chunked set_headers_end].
      destruct (_get_is_chunked _).
      * cbn [set_state buffer headers_end_or_0 _headers_end].
        destruct (_ >? 0); unfold try_final_chunk;
          [destruct (_has_final_chunk _) as [[|]|[]]|]; cbn; framed_case.
      * destruct (_get_content_length _) as [[cl|]|e];
          [destruct (_get_http_method _) as [m|[]]; cbn;
           [destruct (cl =? 0) eqn:Ecl; cbn;
            [|destruct (_ >=? cl) eqn:Ege; cbn]|..]
          |destruct (_get_http_method _) as [m|[]]; cbn;
           [destruct (body_required m); cbn|..]
          |cbn].
        all: rewrite ?Hst; fold received; bool_to_Z; framed_case.
  - (* RECEIVING_BODY *)
    destruct (Hhe (or_intror eq_refl)) as [he [Ehe Hhe']].
    unfold headers_end_or_0. cbn [_headers_end buffer set_state set_buffer content_length].
    rewrite Ehe.
    destruct (content_length self) as [cl|] eqn:Ecl;
      [destruct (_ >=? cl) eqn:Ege|]; cbn; rewrite ?Hst, ?Ecl, ?Ehe; bool_to_Z;
      framed_case.
  - (* COMPLETE *)
    cbn. rewrite Hst. split.
    + intros _. destruct (Hhe (or_introl eq_refl)) as [he [Ehe Hhe']].
      exists he. split; [exact Ehe|lia].
    + intros _ L HL HL0. specialize (Hbody eq_refl L HL HL0).
      unfold headers_end_or_0 in *. cbn. lia.
  - unfold try_final_chunk. destruct (_has_final_chunk _) as [[|]|[]]; cbn;
      rewrite ?Hst; framed_case.
  - cbn. rewrite Hst. framed_case.
  - cbn. rewrite Hst. framed_case.
Qed.

Lemma feed_all_framed pieces : forall self,
  framed self -> framed (fst (feed_all self pieces)).
Proof.
  induction pieces as [|data rest IH]; intros self H; cbn [feed_all].
  - exact H.
  - pose proof (@feed_data_framed self data H) as H'.
    destruct (feed_data self data) as [self' [r|e]]; cbn [fst] in *.
    + now apply IH.
    + exact H'.
Qed.

Lemma framed_init : framed init.
Proof. split; [intros [H|H]|intros H]; discriminate H. Qed.

(** C6, as the code has it.  For every request fed to a fresh buffer, in
    any number of pieces, that is not chunked, announces a Content-Length
    [L] that is not negative and has reached COMPLETE, the buffer is the
    header block, then the body that [get_request_body] returns, of
    exactly [L] bytes, then the excess. *)
Theorem body_has_content_length pieces L :
  let self := fst (feed_all init pieces) in
  state self = COMPLETE ->
  is_chunked self = false ->
  content_length self = Some L ->
  0 <= L ->
  exists head body excess,
    get_request_headers self = Ok head
    /\ get_request_body self = Some (Ok body)
    /\ buffer self = head ++ body ++ excess
    /\ len body = L.
Proof.
  intros self Hst _ Hcl HL.
  destruct (@feed_all_framed pieces init framed_init) as [Hhe Hbody]. fold self in Hhe, Hbody.
  destruct (Hhe (or_introl Hst)) as [he [Ehe Hrange]].
  specialize (Hbody Hst L Hcl).
  unfold get_request_headers, get_request_body, headers_end_or_0 in *.
  rewrite Hst, Hcl. rewrite Ehe in *.
  destruct (L =? 0) eqn:E0; bool_to_Z.
  - subst L. destruct (@slice_three _ (buffer self) he 0) as [Hcut Hlen]; try lia.
    apply len_nil_inv in Hlen. rewrite Hlen in Hcut.
    exists (slice_to (buffer self) he), [], (slice_from (buffer self) (he + 0)).
    repeat split; assumption.
  - specialize (Hbody E0).
    destruct (@slice_three _ (buffer self) he L) as [Hcut Hlen]; try lia.
    exists (slice_to (buffer self) he), (slice (buffer self) he (he + L)),
      (slice_from (buffer self) (he + L)).
    repeat split; assumption.
Qed.

Lemma body_has_content_length_witness :
  exists head body excess,
    get_request_headers (fst (feed_all init [request_hello; b "excess"])) = Ok head
    /\ get_request_body (fst (feed_all init [request_hello; b "excess"]))
       = Some (Ok body)
    /\ buffer (fst (feed_all init [request_hello; b "excess"]))
       = head ++ body ++ excess
    /\ len body = 12.
Proof.
  apply (@body_has_content_length [request_hello; b "excess"] 12);
    [reflexivity|reflexivity|reflexivity|lia].
Defined.

(** C6 as stated fails for a negative Content-Length: the request is
    not chunked, announces [-1] and reaches COMPLETE, and no byte string
    has [-1] bytes ([get_request_body] returns the empty one). *)
Lemma negative_content_length_has_no_such_body :
  let self := fst (feed_all init [request_negative_length]) in
  state self = COMPLETE
  /\ is_chunked self = false
  /\ content_length self = Some (-1)
  /\ get_request_body self = Some (Ok [])
  /\ ~ exists body, get_request_body self = Some (Ok body) /\ len body = -1.
Proof.
  repeat split; try reflexivity.
  intros [body [_ H]]. pose proof (len_nonneg body). lia.
Qed.

(** C9.  A buffer still receiving headers is fed data that complete a
    header block which is not chunked, has a request line of three
    tokens and a Content-Length that parses to a negative [L]: [feed_data]
    raises nothing and sets no error, the parser goes to COMPLETE in that
    same call, and [get_request_body] then returns the slice from the end
    of the headers to that end plus [L]. *)
Theorem negative_content_length_completes self data L method :
  let received := buffer self ++ data in
  let separator_index := bytes_find received crlfcrlf 0 in
  let headers_data := decode_latin1 (slice_to received separator_index) in
  state self = RECEIVING_HEADERS ->
  separator_index <> -1 ->
  _get_is_chunked headers_data = false ->
  _get_content_length headers_data = Ok (Some L) ->
  _get_http_method headers_data = Ok method ->
  L < 0 ->
  snd (feed_data self data) = Ok true
  /\ state (fst (feed_data self data)) = COMPLETE
  /\ error (fst (feed_data self data)) = error self
  /\ content_length (fst (feed_data self data)) = Some L
  /\ get_request_body (fst (feed_data self data))
     = Some (Ok (slice received (separator_index + 4) (separator_index + 4 + L))).
Proof.
  intros received separator_index headers_data Hst Hsep Hchunked Hcl Hmethod HL.
  unfold feed_data, _try_parse. cbn [state set_buffer buffer]. rewrite Hst.
  fold received. fold separator_index.
  destruct (separator_index =? -1) eqn:E; bool_to_Z; [contradiction|].
  cbn [negb is_chunked set_is_chunked set_headers_end]. fold headers_data.
  rewrite Hchunked, Hcl, Hmethod.
  cbn [content_length set_content_length].
  destruct (L =? 0) eqn:E0; bool_to_Z; [lia|].
  destruct (bytes_find_0_cases received crlfcrlf) as [Hm|[H0 Hb]];
    [contradiction|].
  fold separator_index in H0, Hb. change (len crlfcrlf) with 4 in Hb.
  cbn [set_state set_content_length set_is_chunked set_headers_end set_buffer
       buffer headers_end_or_0 _headers_end].
  fold received.
  destruct (_ >=? L) eqn:Ege; bool_to_Z; [|lia].
  unfold get_request_body. cbn.
  destruct (L =? 0) eqn:E0'; bool_to_Z; [lia|]. repeat split.
Qed.

Lemma negative_content_length_completes_witness :
  snd (feed_data init request_negative_length) = Ok true
  /\ state (fst (feed_data init request_negative_length)) = COMPLETE
  /\ error (fst (feed_data init request_negative_length)) = None
  /\ content_length (fst (feed_data init request_negative_length)) = Some (-1)
  /\ get_request_body (fst (feed_data init request_negative_length))
     = Some (Ok []).
Proof.
  apply (@negative_content_length_completes init request_negative_length (-1)
                                            (s "GET"));
    try reflexivity.
  vm_compute. discriminate.
Defined.

End Framing.

(** ** Chunked bodies *)

Section Chunks.
Import Parser Spec Examples.

#[local] Arguments len : simpl never.
#[local] Arguments bytes_find : simpl never.

(** Where a separator that ends a block for the first time is found in
    a prefix of what starts with that block. *)
Lemma bytes_find_prefix (a sub X c c' : bytes) :
  bytes_find (a ++ sub) sub 0 = len a ->
  c ++ c' = a ++ sub ++ X ->
  bytes_find c sub 0 = if len a + len sub <=? len c then len a else -1.
Proof.
  unfold bytes_find. rewrite !py_find_0. intros Hfind Hcut.
  destruct (find_first Byte.eqb sub (a ++ sub)) as [k|] eqn:F;
    [|pose proof (len_nonneg a); lia].
  assert (k = length a) as -> by (unfold len in Hfind; lia).
  apply (find_first_app Byte.eqb sub (a ++ sub) X) in F.
  rewrite <- app_assoc, <- Hcut in F.
  apply (find_first_app_inv Byte.eqb sub c c') in F. unfold len.
  destruct (Nat.leb_spec (length a + length sub) (length c));
    destruct (Z.leb_spec (Z.of_nat (length a) + Z.of_nat (length sub))
                         (Z.of_nat (length c))); try lia; now rewrite F.
Qed.

Lemma chunked_body_length body payload :
  chunked_body body payload -> 4 <= len body.
Proof.
  destruct 1 as [sl _ _|sl n data rest payload _ _ _ _ _];
    rewrite !len_app; change (len crlf) with 2; pose proof (len_nonneg sl).
  - lia.
  - pose proof (len_nonneg data). pose proof (len_nonneg rest). lia.
Qed.

Lemma cut_length (c c' x : bytes) : c ++ c' = x -> len c + len c' = len x.
Proof. intros <-. now rewrite len_app. Qed.

Lemma final_chunk_loop_nil fuel : final_chunk_loop fuel [] = Some (Ok false).
Proof. now destruct fuel. Qed.

Lemma final_chunk_loop_cons fuel x c :
  final_chunk_loop fuel (x :: c)
  = match final_chunk_step (x :: c) with
    | Return r => Some (Ok r)
    | Bad => Some (Raise BadRequestError)
    | Next chunks' =>
        match fuel with
        | O => None
        | S fuel' => final_chunk_loop fuel' chunks'
        end
    end.
Proof. now destruct fuel. Qed.

(** The walk of [_has_final_chunk] on a prefix of a chunked body: the
    final chunk is seen exactly when the prefix is the whole body. *)
Lemma final_chunk_loop_prefix body payload :
  chunked_body body payload ->
  forall c c' fuel,
    c ++ c' = body -> (length c <= fuel)%nat ->
    final_chunk_loop fuel c = Some (Ok (len c' =? 0)).
Proof.
  induction 1 as [sl Hfind Hsize | sl n data rest payload Hfind Hsize Hn Hdata Hrest IH];
    intros c c' fuel Hcut Hfuel.
  - (* the chunk of size zero *)
    pose proof (cut_length _ _ Hcut) as Hlen.
    rewrite !len_app in Hlen. change (len crlf) with 2 in Hlen.
    pose proof (len_nonneg c'). pose proof (len_nonneg sl).
    destruct c as [|x c0];
      [rewrite final_chunk_loop_nil; do 2 f_equal; symmetry; apply Z.eqb_neq;
       change (len []) with 0 in Hlen; lia|].
    rewrite final_chunk_loop_cons. set (c := x :: c0) in *.
    unfold final_chunk_step.
    rewrite (bytes_find_prefix sl crlf crlf c c' Hfind Hcut).
    change (len crlf) with 2.
    destruct (len sl + 2 <=? len c) eqn:E; bool_to_Z.
    + destruct (len sl =? -1) eqn:E1; bool_to_Z; [lia|].
      destruct (@app_eq_app_le _ sl (crlf ++ crlf) c c' Hcut) as [c2 [Hc Hc2]];
        [by_len|].
      unfold chunk_size_of. rewrite Hc, slice_to_app, Hsize. cbn [Z.eqb].
      rewrite <- Hc.
      destruct (len c <? len sl + 4) eqn:E2; bool_to_Z.
      * do 2 f_equal. symmetry. apply Z.eqb_neq. lia.
      * assert (len c' = 0) as Hc' by lia. apply len_nil_inv in Hc'. subst c'.
        rewrite app_nil_r in Hcut. rewrite Hcut.
        replace (len (sl ++ crlf ++ crlf) =? len sl + 4) with true
          by (symmetry; apply Z.eqb_eq; rewrite !len_app; reflexivity).
        change (crlf ++ crlf) with (crlfcrlf ++ []).
        rewrite slice_app_mid by reflexivity. reflexivity.
    + cbn. do 2 f_equal. symmetry. apply Z.eqb_neq. lia.
  - (* a chunk with data *)
    pose proof (cut_length _ _ Hcut) as Hlen.
    rewrite !len_app in Hlen. change (len crlf) with 2 in Hlen.
    pose proof (len_nonneg c'). pose proof (len_nonneg sl).
    pose proof (chunked_body_length Hrest) as Hrestlen.
    destruct c as [|x c0];
      [rewrite final_chunk_loop_nil; do 2 f_equal; symmetry; apply Z.eqb_neq;
       change (len []) with 0 in Hlen; lia|].
    rewrite final_chunk_loop_cons. set (c := x :: c0) in *.
    unfold final_chunk_step.
    rewrite (bytes_find_prefix sl crlf (data ++ crlf ++ rest) c c' Hfind Hcut).
    change (len crlf) with 2.
    destruct (len sl + 2 <=? len c) eqn:E; bool_to_Z.
    + destruct (len sl =? -1) eqn:E1; bool_to_Z; [lia|].
      destruct (@app_eq_app_le _ sl (crlf ++ data ++ crlf ++ rest) c c' Hcut)
        as [c2 [Hc Hc2]]; [by_len|].
      unfold chunk_size_of. rewrite Hc, slice_to_app, Hsize. rewrite <- Hc.
      destruct (n =? 0) eqn:E0; bool_to_Z; [lia|].
      destruct (len sl + 2 + n + 2 >? len c) eqn:E2; bool_to_Z.
      * do 2 f_equal. symmetry. apply Z.eqb_neq. lia.
      * assert (Hcut' : c ++ c' = (sl ++ crlf ++ data ++ crlf) ++ rest)
          by (rewrite Hcut, <- !app_assoc; reflexivity).
        destruct (@app_eq_app_le _ _ rest c c' Hcut') as [c3 [Hc3 Hrest3]];
          [by_len|].
        replace (slice c (len sl + 2 + n) (len sl + 2 + n + 2)) with crlf.
        2:{ rewrite Hc3.
            replace ((sl ++ crlf ++ data ++ crlf) ++ c3)
              with ((sl ++ crlf ++ data) ++ crlf ++ c3)
              by (rewrite <- !app_assoc; reflexivity).
            replace (len sl + 2 + n) with (len (sl ++ crlf ++ data))
              by (rewrite !len_app; change (len crlf) with 2; lia).
            rewrite slice_app_mid; [reflexivity|].
            change (len crlf) with 2. lia. }
        cbn [bytes_eqb list_eqb crlf CR LF Byte.eqb negb andb].
        replace (slice_from c (len sl + 2 + n + 2)) with c3.
        2:{ rewrite Hc3.
            replace (len sl + 2 + n + 2) with (len (sl ++ crlf ++ data ++ crlf))
              by (rewrite !len_app; change (len crlf) with 2; lia).
            now rewrite slice_from_app. }
        assert (Hfuel' : len c <= Z.of_nat fuel)
          by (unfold len; apply Nat2Z.inj_le; exact Hfuel).
        pose proof (len_nonneg c3) as Hc3nn.
        rewrite Hc3, !len_app in Hfuel'. change (len crlf) with 2 in Hfuel'.
        destruct fuel as [|fuel]; [lia|].
        apply IH; [now symmetry|]. by_len.
    + cbn. do 2 f_equal. symmetry. apply Z.eqb_neq. lia.
Qed.

Lemma dechunk_loop_nil fuel acc : dechunk_loop fuel [] acc = Some (Ok acc).
Proof. now destruct fuel. Qed.

Lemma dechunk_loop_cons fuel c acc :
  0 < len c ->
  dechunk_loop fuel c acc
  = match dechunk_step c with
    | Raise e => Some (Raise e)
    | Ok (chunk_value, chunk') =>
        match fuel with
        | O => None
        | S fuel' => dechunk_loop fuel' chunk' (acc ++ chunk_value)
        end
    end.
Proof.
  destruct c; [intros H; change (len (@nil byte)) with 0 in H; lia|].
  now destruct fuel.
Qed.

(** Dechunking a chunked body yields its payload. *)
Lemma dechunk_loop_payload body payload :
  chunked_body body payload ->
  forall fuel acc,
    (length body <= fuel)%nat ->
    dechunk_loop fuel body acc = Some (Ok (acc ++ payload)).
Proof.
  induction 1 as [sl Hfind Hsize | sl n data rest payload Hfind Hsize Hn Hdata Hrest IH];
    intros fuel acc Hfuel.
  - remember (sl ++ crlf ++ crlf) as body eqn:Ebody.
    assert (Hlen : len body = len sl + 4)
      by (subst body; rewrite !len_app; change (len crlf) with 2; lia).
    pose proof (len_nonneg sl).
    assert (Hfuel' : len body <= Z.of_nat fuel)
      by (unfold len; apply Nat2Z.inj_le; exact Hfuel).
    rewrite dechunk_loop_cons by lia. unfold dechunk_step.
    rewrite (@bytes_find_prefix sl crlf crlf body [] Hfind)
      by (rewrite app_nil_r; exact Ebody).
    change (len crlf) with 2.
    destruct (len sl + 2 <=? len body) eqn:E; bool_to_Z; [|lia].
    destruct (len sl =? -1) eqn:E1; bool_to_Z; [lia|].
    unfold chunk_size_of. rewrite Ebody at 1. rewrite slice_to_app, Hsize.
    cbn [bind].
    destruct (len sl + 2 + 0 + 2 >? len body) eqn:E2; bool_to_Z; [lia|].
    destruct fuel as [|fuel]; [lia|].
    replace (slice_from body (len sl + 2 + 0 + 2)) with (@nil byte).
    2:{ rewrite Ebody. replace (len sl + 2 + 0 + 2) with (len (sl ++ crlf ++ crlf))
          by (rewrite !len_app; change (len crlf) with 2; lia).
        rewrite <- (app_nil_r (sl ++ crlf ++ crlf)) at 1.
        now rewrite slice_from_app. }
    replace (slice body (len sl + 2) (len sl + 0 + 2)) with (@nil byte).
    2:{ unfold slice, py_slice. rewrite !norm_index_id by lia.
        now replace (len sl + 0 + 2 - (len sl + 2)) with 0 by lia. }
    now rewrite dechunk_loop_nil.
  - remember (sl ++ crlf ++ data ++ crlf ++ rest) as body eqn:Ebody.
    assert (Hlen : len body = len sl + 2 + n + 2 + len rest)
      by (subst body; rewrite !len_app; change (len crlf) with 2; lia).
    pose proof (len_nonneg sl). pose proof (len_nonneg rest).
    assert (Hfuel' : len body <= Z.of_nat fuel)
      by (unfold len; apply Nat2Z.inj_le; exact Hfuel).
    rewrite dechunk_loop_cons by lia. unfold dechunk_step.
    rewrite (@bytes_find_prefix sl crlf (data ++ crlf ++ rest) body [] Hfind)
      by (rewrite app_nil_r; exact Ebody).
    change (len crlf) with 2.
    destruct (len sl + 2 <=? len body) eqn:E; bool_to_Z; [|lia].
    destruct (len sl =? -1) eqn:E1; bool_to_Z; [lia|].
    unfold chunk_size_of. rewrite Ebody at 1. rewrite slice_to_app, Hsize.
    cbn [bind].
    destruct (len sl + 2 + n + 2 >? len body) eqn:E2; bool_to_Z; [lia|].
    destruct fuel as [|fuel]; [lia|].
    replace (slice_from body (len sl + 2 + n + 2)) with rest.
    2:{ rewrite Ebody.
        replace (sl ++ crlf ++ data ++ crlf ++ rest)
          with ((sl ++ crlf ++ data ++ crlf) ++ rest)
          by (rewrite <- !app_assoc; reflexivity).
        replace (len sl + 2 + n + 2) with (len (sl ++ crlf ++ data ++ crlf))
          by (rewrite !len_app; change (len crlf) with 2; lia).
        now rewrite slice_from_app. }
    replace (slice body (len sl + 2) (len sl + n + 2)) with data.
    2:{ rewrite Ebody.
        replace (sl ++ crlf ++ data ++ crlf ++ rest)
          with ((sl ++ crlf) ++ data ++ crlf ++ rest)
          by (rewrite <- !app_assoc; reflexivity).
        replace (len sl + 2) with (len (sl ++ crlf))
          by (rewrite !len_app; reflexivity).
        rewrite slice_app_mid; [reflexivity|].
        rewrite !len_app. change (len crlf) with 2. lia. }
    rewrite IH; [now rewrite <- app_assoc|].
    apply Nat2Z.inj_le. fold (len rest). lia.
Qed.

(** A turn of the chunk walk that goes on goes on with fewer bytes. *)
Lemma final_chunk_step_shrinks c c' :
  final_chunk_step c = Next c' -> len c' < len c.
Proof.
  unfold final_chunk_step.
  destruct (bytes_find c crlf 0 =? -1); [discriminate|].
  destruct (chunk_size_of c (bytes_find c crlf 0)) as [size|]; [|discriminate].
  set (e := bytes_find c crlf 0).
  destruct (size =? 0) eqn:E0.
  - destruct (len c <? e + 4); [discriminate|].
    destruct (len c =? e + 4); [|discriminate].
    destruct (negb _); discriminate.
  - destruct (e + 2 + size + 2 >? len c) eqn:E1; [discriminate|].
    destruct (negb _) eqn:E2; [discriminate|].
    intros [= <-]. apply negb_false_iff, bytes_eqb_eq in E2.
    assert (Hs : len (slice c (e + 2 + size) (e + 2 + size + 2)) = 2)
      by (rewrite E2; reflexivity).
    unfold slice in Hs. unfold slice_from. rewrite py_slice_length in *.
    cbv zeta in *. pose proof (len_nonneg c). bool_to_Z.
    unfold norm_index in *.
    destruct (e + 2 + size <? 0) eqn:E3; destruct (e + 2 + size + 2 <? 0) eqn:E4;
      bool_to_Z; lia.
Qed.

(** The fuel that [has_final_chunk_of] gives is enough: the walk ends. *)
Lemma final_chunk_loop_total fuel : forall c,
  (length c <= fuel)%nat -> final_chunk_loop fuel c <> None.
Proof.
  induction fuel as [|fuel IH]; intros c Hfuel.
  - destruct c; [discriminate|cbn in Hfuel; lia].
  - destruct c as [|x c]; [discriminate|].
    rewrite final_chunk_loop_cons.
    destruct (final_chunk_step (x :: c)) as [r| |c'] eqn:Hstep; try discriminate.
    apply IH. apply final_chunk_step_shrinks in Hstep. unfold len in Hstep. lia.
Qed.

(** A turn of the dechunking loop goes on with fewer bytes or with the
    same bytes. *)
Lemma dechunk_step_shrinks_or_stalls c value c' :
  dechunk_step c = Ok (value, c') -> len c' < len c \/ c' = c.
Proof.
  unfold dechunk_step.
  destruct (bytes_find c crlf 0 =? -1); [discriminate|].
  destruct (chunk_size_of c (bytes_find c crlf 0)) as [size|]; [|discriminate].
  cbn [bind]. set (full := bytes_find c crlf 0 + 2 + size + 2).
  clearbody full.
  destruct (full >? len c) eqn:E; [discriminate|]. intros [= _ <-].
  bool_to_Z. pose proof (len_nonneg c).
  destruct (Z.lt_ge_cases (- len c) full) as [Hin|Hout].
  - destruct (Z.eq_dec full 0) as [->|Hnz].
    + right. unfold slice_from, py_slice, norm_index.
      change (0 <? 0) with false. cbv iota.
      replace (Z.min 0 (len c)) with 0 by lia. cbn [Z.to_nat skipn].
      apply firstn_all2. rewrite Z.sub_0_r. unfold len. lia.
    + left. unfold slice_from. rewrite py_slice_length. cbv zeta.
      unfold norm_index. destruct (full <? 0) eqn:E1; bool_to_Z; lia.
  - right. destruct (full <? 0) eqn:E1; bool_to_Z.
    2:{ assert (Hc : len c = 0) by lia. apply len_nil_inv in Hc. subst c.
        unfold slice_from, py_slice. now rewrite skipn_nil, firstn_nil. }
    unfold slice_from, py_slice, norm_index.
    apply Z.ltb_lt in E1. rewrite E1. apply Z.ltb_lt in E1.
    replace (Z.max (len c + full) 0) with 0 by lia. cbn [Z.to_nat skipn].
    apply firstn_all2. rewrite Z.sub_0_r. unfold len. lia.
Qed.

(** *** Size lines of hexadecimal digits *)

Lemma hex_digit_not c c0 :
  hex_digit c -> is_digit 16 (Byte.to_N c0) = None -> Byte.eqb c0 c = false.
Proof.
  intros Hc H0. destruct (Byte.eqb c0 c) eqn:E; [|reflexivity].
  apply byte_eqb_eq in E. subst c0. contradiction.
Qed.

Lemma hex_digit_code c :
  hex_digit c ->
  exists d, is_digit 16 (Byte.to_N c) = Some d /\ 0 <= d
            /\ int_isspace_bytes (Byte.to_N c) = false
            /\ (Byte.to_N c =? 95)%N = false
            /\ (Byte.to_N c =? 43)%N = false
            /\ (Byte.to_N c =? 45)%N = false
            /\ (Byte.to_N c =? 120)%N = false
            /\ (Byte.to_N c =? 88)%N = false.
Proof.
  unfold hex_digit, is_digit, digit_value, int_isspace_bytes, in_range.
  set (n := Byte.to_N c). clearbody n. intros H.
  repeat match goal with
         | |- context [(?a <=? ?b)%N] => destruct (N.leb_spec a b)
         | |- context [(?a =? ?b)%N] => destruct (N.eqb_spec a b)
         | H : context [(?a <=? ?b)%N] |- _ => destruct (N.leb_spec a b)
         end; cbn [andb orb] in *;
    repeat match goal with
           | H : context [?a <? 16] |- _ =>
               destruct (Z.ltb_spec a 16); cbn beta iota in H
           | |- context [?a <? 16] => destruct (Z.ltb_spec a 16); cbn beta iota
           end;
    try contradiction; try lia;
    (eexists; repeat split; try reflexivity; lia).
Qed.

(** A line of hexadecimal digits holds no separator of extensions. *)
Lemma split_go_no_sep (l : bytes) : forall cur,
  Forall hex_digit l ->
  split_go Byte.eqb (b ";") None 0 cur l = [rev cur ++ l].
Proof.
  induction l as [|c l IH]; intros cur Hl; cbn [split_go].
  - now rewrite app_nil_r.
  - inversion Hl as [|? ? Hc Hl']; subst.
    cbn [starts_with b list_byte_of_string list_ascii_of_string map].
    rewrite (@hex_digit_not c _ Hc) by reflexivity. cbn [andb].
    rewrite (IH _ Hl'). cbn [rev]. now rewrite <- app_assoc.
Qed.

Lemma scan_digits_hex (l : list byte) : forall ndig acc,
  Forall hex_digit l -> 0 <= acc ->
  exists v, scan_digits 16 false ndig acc (map Byte.to_N l)
            = Some (v, (ndig + length l)%nat, []) /\ 0 <= v.
Proof.
  induction l as [|c l IH]; intros ndig acc Hl Hacc; cbn [map scan_digits].
  - exists acc. rewrite Nat.add_0_r. auto.
  - inversion Hl as [|? ? Hc Hl']; subst.
    destruct (@hex_digit_code c Hc) as [d [Hd [Hd0 [_ [Hus _]]]]].
    rewrite Hus, Hd.
    destruct (IH (S ndig) (acc * 16 + d) Hl') as [v [Hv Hv0]]; [lia|].
    exists v. rewrite Hv. cbn [length]. rewrite Nat.add_succ_r. auto.
Qed.

(** A size line of hexadecimal digits announces a size that is not
    negative. *)
Lemma size_of_hex_line l :
  hex_line l -> exists n, size_of_line l = Ok n /\ 0 <= n.
Proof.
  intros [Hne Hl]. unfold size_of_line, bytes_split, py_split.
  rewrite split_go_no_sep by exact Hl. cbn [rev app nth].
  unfold int_of_bytes, py_int.
  destruct l as [|c l]; [contradiction|].
  inversion Hl as [|? ? Hc Hl']; subst.
  destruct (@hex_digit_code c Hc)
    as [d [Hd [Hd0 [Hsp [Hus [Hplus [Hminus [Hx HX]]]]]]]].
  cbn [map drop_while]. rewrite Hsp.
  assert (Hsign : match (Byte.to_N c :: map Byte.to_N l) with
                  | 43%N :: l' => (1, l')
                  | 45%N :: l' => (-1, l')
                  | _ => (1, Byte.to_N c :: map Byte.to_N l)
                  end = (1, Byte.to_N c :: map Byte.to_N l)).
  { destruct (Byte.to_N c) as [|p]; [reflexivity|].
    repeat (destruct p as [p|p|]; try reflexivity; try discriminate). }
  rewrite Hsign.
  assert (Hprefix : skip_prefix 16 (Byte.to_N c :: map Byte.to_N l)
                    = Byte.to_N c :: map Byte.to_N l).
  { unfold skip_prefix. destruct l as [|c2 l2]; cbn [map].
    - destruct (Byte.to_N c) as [|p]; [reflexivity|].
      repeat (destruct p as [p|p|]; try reflexivity).
    - inversion Hl' as [|? ? Hc2 _]; subst.
      destruct (@hex_digit_code c2 Hc2) as [_ [_ [_ [_ [_ [_ [_ [Hx2 HX2]]]]]]]].
      rewrite Hx2, HX2. cbn [orb andb].
      destruct (Byte.to_N c) as [|p]; [reflexivity|].
      repeat (destruct p as [p|p|]; try reflexivity). }
  rewrite Hprefix.
  destruct (@scan_digits_hex (c :: l) 0 0 Hl (Z.le_refl 0)) as [v [Hv Hv0]].
  cbn [map] in Hv. rewrite Hv. cbn [length Nat.add drop_while].
  assert (Hnot_us : match Byte.to_N c with 95%N => true | _ => false end = false).
  { apply N.eqb_neq in Hus. destruct (Byte.to_N c) as [|p]; [reflexivity|].
    repeat (destruct p as [p|p|]; try reflexivity). contradiction. }
  exists (1 * v). split; [|lia].
  destruct (Byte.to_N c) as [|p] eqn:E; [reflexivity|].
  repeat (destruct p as [p|p|]; try reflexivity; try discriminate Hnot_us).
Qed.

(** A line of hexadecimal digits holds no [CRLF]. *)
Lemma hex_line_ends_at_crlf l :
  Forall hex_digit l -> bytes_find (l ++ crlf) crlf 0 = len l.
Proof.
  intros Hl. unfold bytes_find. rewrite py_find_0.
  assert (find_first Byte.eqb crlf (l ++ crlf) = Some (length l)) as ->; [|reflexivity].
  induction Hl as [|c l Hc _ IH]; [reflexivity|].
  cbn [app find_first starts_with crlf].
  rewrite (@hex_digit_not c _ Hc) by reflexivity. cbn [andb].
  fold crlf. now rewrite IH.
Qed.

End Chunks.

(** ** Feeding a request in pieces (C5) *)

Section Pieces.
Import Parser Spec Examples.
#[local] Arguments len : simpl never.
#[local] Arguments bytes_find : simpl never.

Section SplitInvariance.
Variables (head body payload : bytes) (chunked : bool) (cl : option Z).
Hypothesis Hlegal : legal_parts head body payload chunked cl.

(** Projections of updated buffers. *)
Ltac fields :=
  cbn [state buffer position content_length is_chunked _headers_end error
       set_state set_buffer set_content_length set_is_chunked set_headers_end
       set_error fail_bad_request headers_end_or_0 fst snd] in *.

Lemma prefix_find p rest :
  p ++ rest = head ++ crlfcrlf ++ body ->
  bytes_find p crlfcrlf 0 = if len head + 4 <=? len p then len head else -1.
Proof.
  intros Hcut. pose proof Hlegal as Hl. destruct Hl as [Hend _].
  apply (@bytes_find_prefix head crlfcrlf body p rest Hend Hcut).
Qed.

Lemma prefix_split p rest :
  p ++ rest = head ++ crlfcrlf ++ body ->
  len head + 4 <= len p ->
  exists c, p = head ++ crlfcrlf ++ c /\ body = c ++ rest.
Proof.
  intros Hcut Hlen. rewrite app_assoc in Hcut.
  destruct (@app_eq_app_le _ (head ++ crlfcrlf) body p rest Hcut) as [c [Hp Hb]];
    [by_len|].
  exists c. now rewrite <- app_assoc in Hp.
Qed.

Lemma slice_to_head c : slice_to (head ++ crlfcrlf ++ c) (len head) = head.
Proof. apply slice_to_app. Qed.

Lemma slice_from_head c :
  slice_from (head ++ crlfcrlf ++ c) (len head + 4) = c.
Proof.
  rewrite app_assoc.
  replace (len head + 4) with (len (head ++ crlfcrlf))
    by (rewrite len_app; reflexivity).
  apply slice_from_app.
Qed.

(** The chunk walk of a parser that holds the header block and the
    prefix [c] of the chunked body. *)
Lemma try_final_chunk_prefix self c rest :
  chunked = true ->
  buffer self = head ++ crlfcrlf ++ c ->
  _headers_end self = Some (len head + 4) ->
  body = c ++ rest ->
  try_final_chunk self
  = (if len rest =? 0 then set_state self CHUNKS_COMPLETE else self, None).
Proof.
  intros Hch Hbuf Hhe Hbody. pose proof Hlegal as Hl. destruct Hl as [_ [_ Hchunks]].
  rewrite Hch in Hchunks.
  unfold try_final_chunk, _has_final_chunk, headers_end_or_0.
  rewrite Hbuf, Hhe, slice_from_head. unfold has_final_chunk_of.
  rewrite (@final_chunk_loop_prefix body payload Hchunks c rest (length c))
    by (auto using Nat.le_refl).
  now destruct (len rest =? 0).
Qed.

Lemma expected_state_headers n :
  n < len head + 4 -> expected_state head body chunked cl n = RECEIVING_HEADERS.
Proof. intros H. unfold expected_state. cases. reflexivity. Qed.

(** A parser still receiving headers whose buffer stops short of the
    blank line stays as it is. *)
Lemma try_parse_short self rest :
  state self = RECEIVING_HEADERS ->
  buffer self ++ rest = head ++ crlfcrlf ++ body ->
  len (buffer self) < len head + 4 ->
  _try_parse self = (self, None).
Proof.
  intros Hst Hcut Hlen. unfold _try_parse. rewrite Hst. cbv zeta.
  rewrite (prefix_find _ _ Hcut). cases. reflexivity.
Qed.

(** A parser still receiving headers whose buffer holds the blank line
    reads the header block and frames what follows it. *)
Lemma try_parse_header_block self c rest :
  state self = RECEIVING_HEADERS ->
  buffer self = head ++ crlfcrlf ++ c ->
  body = c ++ rest ->
  exists self',
    _try_parse self = (self', None)
    /\ tracks head body chunked cl self' (buffer self).
Proof.
  intros Hst Hbuf Hbody.
  assert (Hcut : buffer self ++ rest = head ++ crlfcrlf ++ body)
    by (rewrite Hbuf, Hbody, <- !app_assoc; reflexivity).
  assert (Hlen : len (buffer self) = len head + 4 + len c)
    by (rewrite Hbuf, !len_app; change (len crlfcrlf) with 4; lia).
  assert (Hlenb : len body = len c + len rest) by (rewrite Hbody; apply len_app).
  pose proof (len_nonneg head). pose proof (len_nonneg c).
  pose proof (len_nonneg rest).
  unfold _try_parse. rewrite Hst. cbv zeta. rewrite (prefix_find _ _ Hcut).
  destruct (len head + 4 <=? len (buffer self)) eqn:E; bool_to_Z; [|lia].
  destruct (len head =? -1) eqn:E1; bool_to_Z; [lia|]. cbn [negb].
  replace (slice_to (buffer self) (len head)) with head
    by (rewrite Hbuf; symmetry; apply slice_to_head).
  pose proof Hlegal as Hl. destruct Hl as [_ [Hch Hrest]]. rewrite Hch. fields.
  pose proof try_final_chunk_prefix as Hwalk.
  destruct chunked.
  - pose proof (chunked_body_length Hrest) as Hb4. rewrite Hlen.
    destruct (len head + 4 + len c - (len head + 4) >? 0) eqn:E2; bool_to_Z.
    + erewrite Hwalk; try eassumption; try reflexivity.
      eexists. split; [reflexivity|]. unfold tracks, expected_state.
      rewrite Hlen.
      destruct (len rest =? 0) eqn:E3; bool_to_Z; fields;
        (split; [reflexivity|]); (split; [cases; reflexivity|]);
        intros _; split; [reflexivity|discriminate|reflexivity|discriminate].
    + eexists. split; [reflexivity|]. unfold tracks, expected_state.
      rewrite Hlen. fields.
      split; [reflexivity|]. split; [cases; reflexivity|].
      intros _. split; [reflexivity|discriminate].
  - destruct Hrest as [Hcl [[m [Hm Hreq]] [Hshape _]]]. rewrite Hcl, Hm.
    fields. destruct cl as [L|].
    + subst L. fields.
      destruct (len body =? 0) eqn:E0; bool_to_Z.
      * eexists. split; [reflexivity|]. unfold tracks, expected_state.
        rewrite Hlen. fields.
        split; [reflexivity|]. split; [cases; reflexivity|].
        intros _. split; reflexivity.
      * rewrite Hlen.
        destruct (len head + 4 + len c - (len head + 4) >=? len body) eqn:E2;
          bool_to_Z;
          (eexists; split; [reflexivity|]; unfold tracks, expected_state;
           rewrite Hlen; fields;
           split; [reflexivity|]; split; [cases; reflexivity|];
           intros _; split; reflexivity).
    + rewrite (Hreq eq_refl).
      eexists. split; [reflexivity|]. unfold tracks, expected_state.
      rewrite Hlen. fields.
      split; [reflexivity|]. split; [cases; reflexivity|].
      intros _. split; reflexivity.
Qed.

(** A parser past the header block, fed more of the request. *)
Lemma try_parse_framed self p d rest z :
  tracks head body chunked cl self p ->
  len head + 4 <= len p ->
  (p ++ d) ++ rest = head ++ crlfcrlf ++ body ->
  exists self',
    _try_parse (set_buffer self (p ++ d) z) = (self', None)
    /\ tracks head body chunked cl self' (p ++ d).
Proof.
  intros [Hbuf [Hst Hfields]] Hlen Hcut.
  destruct (Hfields Hlen) as [Hhe Hcl]. clear Hfields.
  assert (Hlen' : len head + 4 <= len (p ++ d))
    by (rewrite len_app; pose proof (len_nonneg d); lia).
  destruct (prefix_split _ _ Hcut Hlen') as [c [Hc Hbody]].
  assert (Hlenc : len (p ++ d) = len head + 4 + len c)
    by (rewrite Hc, !len_app; change (len crlfcrlf) with 4; lia).
  assert (Hlenb : len body = len c + len rest) by (rewrite Hbody; apply len_app).
  pose proof (len_app p d) as Hpd. pose proof (len_nonneg d).
  pose proof (len_nonneg rest). pose proof (len_nonneg c).
  pose proof try_final_chunk_prefix as Hwalk.
  pose proof Hlegal as Hl. destruct Hl as [_ [_ Hrest]].
  unfold _try_parse. fields. rewrite Hst. unfold tracks, expected_state in *.
  destruct (len p <? len head + 4) eqn:E; bool_to_Z; [lia|].
  destruct chunked.
  - destruct (len p =? len head + 4 + len body) eqn:E1; bool_to_Z.
    + eexists. split; [reflexivity|]. fields.
      split; [reflexivity|]. split; [rewrite ?Hst; cases; reflexivity|].
      intros _. split; [assumption|discriminate].
    + erewrite (Hwalk _ c rest); try eassumption; try reflexivity.
      eexists. split; [reflexivity|].
      destruct (len rest =? 0) eqn:E3; bool_to_Z; fields;
        (split; [reflexivity|]); (split; [rewrite ?Hst; cases; reflexivity|]);
        intros _; (split; [assumption|discriminate]).
  - specialize (Hcl eq_refl). destruct cl as [L|].
    + destruct ((L =? 0) || (len head + 4 + L <=? len p)) eqn:E1.
      * eexists. split; [reflexivity|]. fields.
        split; [reflexivity|]. split.
        -- rewrite ?Hst.
           destruct ((L =? 0) || (len head + 4 + L <=? len (p ++ d))) eqn:E4;
             [cases; reflexivity|].
           exfalso. apply orb_false_iff in E4 as [E4 E5].
           apply orb_true_iff in E1 as [E1|E1]; bool_to_Z; lia.
        -- intros _. split; [assumption|intros _; assumption].
      * apply orb_false_iff in E1 as [E1 E2]. bool_to_Z.
        unfold headers_end_or_0. fields. rewrite Hcl, Hhe.
        destruct (len (p ++ d) - (len head + 4) >=? L) eqn:E3; bool_to_Z;
          (eexists; split; [reflexivity|]; fields;
           split; [reflexivity|]; split; [rewrite ?Hst; cases; reflexivity|];
           intros _; split; [assumption|intros _; assumption]).
    + eexists. split; [reflexivity|]. fields.
      split; [reflexivity|]. split; [rewrite ?Hst; cases; reflexivity|].
      intros _. split; [assumption|intros _; assumption].
Qed.

(** One call of [feed_data] on a parser that tracks the request. *)
Lemma feed_data_tracks self p d rest :
  tracks head body chunked cl self p ->
  (p ++ d) ++ rest = head ++ crlfcrlf ++ body ->
  exists self' r,
    feed_data self d = (self', Ok r)
    /\ tracks head body chunked cl self' (p ++ d).
Proof.
  intros Htr Hcut. pose proof Htr as [Hbuf [Hst Hfields]].
  unfold feed_data. rewrite Hbuf.
  destruct (Z.lt_ge_cases (len p) (len head + 4)) as [Hshort|Hlong].
  - rewrite (expected_state_headers Hshort) in Hst.
    destruct (Z.lt_ge_cases (len (p ++ d)) (len head + 4)) as [Hshort'|Hlong'].
    + rewrite (@try_parse_short (set_buffer self (p ++ d) (len p)) rest);
        [|exact Hst|exact Hcut|exact Hshort'].
      do 2 eexists. split; [reflexivity|].
      split; [reflexivity|]. split.
      * fields. now rewrite (expected_state_headers Hshort').
      * intros Hle. lia.
    + destruct (prefix_split _ _ Hcut Hlong') as [c [Hc Hbody]].
      destruct (@try_parse_header_block (set_buffer self (p ++ d) (len p)) c rest)
        as [self' [Hparse Htr']]; [exact Hst|exact Hc|exact Hbody|].
      rewrite Hparse. do 2 eexists. split; [reflexivity|exact Htr'].
  - destruct (@try_parse_framed self p d rest (len p) Htr Hlong Hcut)
      as [self' [Hparse Htr']].
    rewrite Hparse. do 2 eexists. split; [reflexivity|exact Htr'].
Qed.

(** Feeding the request piece by piece. *)
Lemma feed_all_tracks pieces : forall self p rest,
  tracks head body chunked cl self p ->
  (p ++ concat pieces) ++ rest = head ++ crlfcrlf ++ body ->
  exists self',
    feed_all self pieces = (self', Ok tt)
    /\ tracks head body chunked cl self' (p ++ concat pieces).
Proof.
  induction pieces as [|d pieces IH]; intros self p rest Htr Hcut;
    cbn [feed_all concat] in *.
  - exists self. rewrite app_nil_r. auto.
  - rewrite app_assoc in Hcut. rewrite <- (app_assoc (p ++ d)) in Hcut.
    assert (Hcut' : (p ++ d) ++ (concat pieces ++ rest)
                    = head ++ crlfcrlf ++ body) by exact Hcut.
    destruct (feed_data_tracks _ _ Htr Hcut') as [self1 [r [Hfeed Htr1]]].
    rewrite Hfeed.
    destruct (IH self1 (p ++ d) rest Htr1) as [self' [Hall Htr']].
    + now rewrite <- !app_assoc in *.
    + exists self'. rewrite app_assoc. auto.
Qed.

Lemma tracks_init : tracks head body chunked cl init [].
Proof.
  pose proof (len_nonneg head). unfold tracks, expected_state.
  change (len (@nil byte)) with 0.
  split; [reflexivity|]. split; [cases; reflexivity|]. intros Hle. lia.
Qed.

(** What a parser that has been fed the whole request returns. *)
Lemma tracks_whole self :
  tracks head body chunked cl self (head ++ crlfcrlf ++ body) ->
  state self = (if chunked then CHUNKS_COMPLETE else COMPLETE)
  /\ get_request_headers self = Ok (head ++ crlfcrlf)
  /\ get_request_body self = Some (Ok payload).
Proof.
  intros [Hbuf [Hst Hfields]].
  assert (Hlen : len (head ++ crlfcrlf ++ body) = len head + 4 + len body)
    by (rewrite !len_app; change (len crlfcrlf) with 4; lia).
  pose proof (len_nonneg head). pose proof (len_nonneg body).
  destruct Hfields as [Hhe Hcl]; [lia|].
  pose proof Hlegal as Hl. destruct Hl as [_ [_ Hrest]].
  assert (Hstate : state self = if chunked then CHUNKS_COMPLETE else COMPLETE).
  { rewrite Hst. unfold expected_state. rewrite Hlen. destruct chunked.
    - cases. reflexivity.
    - destruct Hrest as [_ [_ [Hshape _]]]. destruct cl as [L|].
      + subst L. cases; try reflexivity.
        all: match goal with
             | E : orb _ _ = false |- _ =>
                 apply orb_false_iff in E as [_ E]; bool_to_Z; lia
             end.
      + cases. reflexivity. }
  split; [exact Hstate|].
  assert (Hheaders : slice_to (buffer self) (len head + 4) = head ++ crlfcrlf).
  { rewrite Hbuf, app_assoc.
    replace (len head + 4) with (len (head ++ crlfcrlf))
      by (rewrite len_app; reflexivity).
    apply slice_to_app. }
  unfold get_request_headers, get_request_body, headers_end_or_0.
  rewrite Hstate, Hhe, Hheaders. destruct chunked.
  - split; [reflexivity|]. rewrite Hbuf, slice_from_head.
    apply (dechunk_loop_payload Hrest). apply Nat.le_refl.
  - split; [reflexivity|].
    destruct Hrest as [_ [_ [Hshape Hpay]]]. rewrite (Hcl eq_refl). subst payload.
    destruct cl as [L|].
    + subst L. destruct (len body =? 0) eqn:E0; bool_to_Z.
      * apply len_nil_inv in E0. now rewrite E0.
      * rewrite Hbuf, app_assoc. rewrite <- (app_nil_r body) at 1.
        replace (len head + 4) with (len (head ++ crlfcrlf))
          by (rewrite len_app; reflexivity).
        now rewrite slice_app_mid by reflexivity.
    + now rewrite Hshape.
Qed.

End SplitInvariance.

Lemma legal_request_parts r payload :
  legal_request r payload ->
  exists head body chunked cl,
    r = head ++ crlfcrlf ++ body
    /\ legal_parts head body payload chunked cl.
Proof.
  destruct 1 as [head body payload Hend Hch Hbody
                |head m Hend Hch Hcl Hm Hreq
                |head m body Hend Hch Hcl Hm].
  - exists head, body, true, None. repeat split; assumption.
  - exists head, [], false, None. split; [reflexivity|].
    repeat split; try assumption. exists m. auto.
  - exists head, body, false, (Some (len body)). split; [reflexivity|].
    repeat split; try assumption. exists m. split; [assumption|discriminate].
Qed.

(** C5.  A legal request cut into pieces in any way and fed piece by
    piece to a fresh parser, and the same request fed in one call: no
    call raises, both parsers end in the same terminal state (COMPLETE,
    or CHUNKS_COMPLETE for a chunked request), [get_request_headers]
    returns the same header block and [get_request_body] the same body,
    the body of the request. *)
Theorem feed_split_invariance r payload pieces :
  legal_request r payload ->
  concat pieces = r ->
  let whole := feed_all init [r] in
  let split := feed_all init pieces in
  snd whole = Ok tt
  /\ snd split = Ok tt
  /\ is_complete (state (fst whole)) = true
  /\ state (fst split) = state (fst whole)
  /\ get_request_headers (fst split) = get_request_headers (fst whole)
  /\ get_request_body (fst split) = get_request_body (fst whole)
  /\ get_request_body (fst whole) = Some (Ok payload)
  /\ exists head, get_request_headers (fst whole) = Ok head.
Proof.
  intros Hlegal Hpieces whole split.
  destruct (legal_request_parts Hlegal) as [head [body [chunked [cl [Hr Hparts]]]]].
  destruct (@feed_all_tracks head body payload chunked cl Hparts [r] init [] []
              (tracks_init head body chunked cl))
    as [w [Hw Htw]];
    [cbn [concat app]; rewrite !app_nil_r; exact Hr|].
  destruct (@feed_all_tracks head body payload chunked cl Hparts pieces init [] []
              (tracks_init head body chunked cl))
    as [sp [Hsp Htsp]];
    [cbn [app]; rewrite app_nil_r, Hpieces; exact Hr|].
  cbn [concat app] in Htw, Htsp. rewrite app_nil_r in Htw.
  rewrite Hpieces in Htsp. rewrite Hr in Htw, Htsp.
  destruct (tracks_whole Hparts Htw) as [Hst1 [Hh1 Hb1]].
  destruct (tracks_whole Hparts Htsp) as [Hst2 [Hh2 Hb2]].
  subst whole split. rewrite Hw, Hsp. cbn [fst snd].
  rewrite Hst1, Hst2, Hh1, Hh2, Hb1, Hb2.
  repeat split; try reflexivity.
  - now destruct chunked.
  - now exists (head ++ crlfcrlf).
Qed.

Lemma upload_is_legal : legal_request chunked_upload (b "HelloWorld!").
Proof.
  apply (@legal_chunked upload_head upload_body (b "HelloWorld!"));
    [reflexivity|reflexivity|].
  apply (@data_chunk (b "5") 5 (b "Hello") _ (b "World!"));
    [reflexivity|reflexivity|reflexivity|reflexivity|].
  apply (@data_chunk (b "6;last") 6 (b "World!") _ []);
    [reflexivity|reflexivity|reflexivity|reflexivity|].
  apply (@last_chunk (b "0")); reflexivity.
Defined.

Lemma feed_split_invariance_witness :
  snd (feed_all init [chunked_upload]) = Ok tt
  /\ snd (feed_all init chunked_upload_pieces) = Ok tt
  /\ is_complete (state (fst (feed_all init [chunked_upload]))) = true
  /\ state (fst (feed_all init chunked_upload_pieces))
     = state (fst (feed_all init [chunked_upload]))
  /\ get_request_headers (fst (feed_all init chunked_upload_pieces))
     = get_request_headers (fst (feed_all init [chunked_upload]))
  /\ get_request_body (fst (feed_all init chunked_upload_pieces))
     = get_request_body (fst (feed_all init [chunked_upload]))
  /\ get_request_body (fst (feed_all init [chunked_upload]))
     = Some (Ok (b "HelloWorld!"))
  /\ exists head, get_request_headers (fst (feed_all init [chunked_upload])) = Ok head.
Proof.
  apply (@feed_split_invariance chunked_upload (b "HelloWorld!")
                                chunked_upload_pieces upload_is_legal).
  reflexivity.
Defined.

End Pieces.

(** ** Tactics for the case analyses *)

(** Every [match] of the goal whose scrutinee is not itself a [match], by
    cases. *)
Ltac parse_cases :=
  repeat match goal with
         | |- context [match ?x with _ => _ end] =>
             match x with
             | context [match _ with _ => _ end] => fail 1
             | _ => destruct x eqn:?
             end
         end.

(** Projections of updated connections. *)
Ltac proto_fields :=
  cbn [fst snd Protocol.transport Protocol.buffer Protocol.timeout_handler
       Protocol.request_count Protocol.scheduled Protocol.asgi_response_handler
       Protocol.server Protocol.client Protocol.scheme
       Protocol.with_transport Protocol.with_buffer
       Protocol.with_timeout_handler Protocol.with_request_count
       Protocol.with_asgi_response_handler Protocol.create_task
       Protocol.cancel_timers] in *.

(** ** What holds of every parser *)

Section ParserInvariants.
Import Parser Spec Examples.
#[local] Arguments len : simpl never.
#[local] Arguments bytes_find : simpl never.
#[local] Arguments body_required : simpl never.

Lemma try_parse_buffer self :
  buffer (fst (_try_parse self)) = buffer self
  /\ position (fst (_try_parse self)) = position self.
Proof.
  unfold _try_parse, try_final_chunk. cbv zeta. parse_cases; cbn; auto.
Qed.

Lemma feed_data_appends self data :
  buffer (fst (feed_data self data)) = buffer self ++ data
  /\ position (fst (feed_data self data)) = len (buffer self).
Proof.
  unfold feed_data. cbv zeta.
  pose proof (try_parse_buffer (set_buffer self (buffer self ++ data) (len (buffer self)))) as [Hb Hp].
  destruct (_try_parse _) as [s [e|]]; cbn [fst] in *; auto.
Qed.

(** X1.  One call of [feed_data], whether it raises or not, moves the
    parser only along the allowed steps: from RECEIVING_HEADERS
    anywhere, from RECEIVING_BODY to COMPLETE, from RECEIVING_CHUNKS
    to CHUNKS_COMPLETE or ERROR; COMPLETE, CHUNKS_COMPLETE and ERROR
    are never left. *)
Theorem feed_data_transition self data :
  allowed (state self) (state (fst (feed_data self data))) = true.
Proof.
  unfold feed_data, _try_parse, try_final_chunk. cbv zeta.
  cbn [state set_buffer].
  destruct (state self) eqn:Hst; parse_cases; cbn; rewrite ?Hst; reflexivity.
Qed.

Lemma feed_all_invariant (P : RequestBuffer -> Prop) :
  (forall self data, P self -> P (fst (feed_data self data))) ->
  forall pieces self, P self -> P (fst (feed_all self pieces)).
Proof.
  intros Hstep. induction pieces as [|d rest IH]; intros self H; cbn [feed_all].
  - exact H.
  - pose proof (Hstep self d H) as H'.
    destruct (feed_data self d) as [self' [r|e]]; cbn [fst] in *; auto.
Qed.

(** X2.  Feeding only appends: after pieces fed without an exception
    the buffer is what it was, followed by the pieces in order. *)
Theorem feed_all_buffer pieces : forall self,
  snd (feed_all self pieces) = Ok tt ->
  buffer (fst (feed_all self pieces)) = buffer self ++ concat pieces.
Proof.
  induction pieces as [|d rest IH]; intros self; cbn [feed_all concat].
  - intros _. now rewrite app_nil_r.
  - pose proof (feed_data_appends self d) as [Hb _].
    destruct (feed_data self d) as [self' [r|e]]; cbn [fst snd] in *.
    + intros H. rewrite (IH self' H), Hb. now rewrite app_assoc.
    + discriminate.
Qed.

Lemma feed_all_buffer_witness :
  Parser.buffer (fst (feed_all init chunked_upload_pieces))
  = Parser.buffer init ++ concat chunked_upload_pieces.
Proof.
  apply (@feed_all_buffer chunked_upload_pieces init). reflexivity.
Defined.

Lemma feed_data_error_tagged self data :
  error_tagged self -> error_tagged (fst (feed_data self data)).
Proof.
  unfold error_tagged, feed_data, _try_parse, try_final_chunk. cbv zeta.
  cbn [state set_buffer].
  intros [[Hst He]|[Hst He]].
  - rewrite Hst. cbn. rewrite Hst, He. auto.
  - destruct (state self) eqn:Hs; try contradiction; parse_cases; cbn;
      rewrite ?Hs, ?He; auto; right; split; auto; discriminate.
Qed.

(** X3.  Whatever is fed to a fresh parser, the state is ERROR exactly
    when an error tag is set, and the tag is BAD_REQUEST:
    LENGTH_REQUIRED is never set. *)
Theorem error_state_iff_tag pieces :
  let self := fst (feed_all init pieces) in
  (state self = ERROR /\ error self = Some BAD_REQUEST)
  \/ (state self <> ERROR /\ error self = None).
Proof.
  apply (feed_all_invariant error_tagged feed_data_error_tagged).
  right. split; [discriminate|reflexivity].
Qed.

Lemma ParserState_eq_dec (x y : ParserState) : {x = y} + {x <> y}.
Proof. decide equality. Qed.

Lemma starts_with_split (sub l : bytes) :
  starts_with Byte.eqb sub l = true -> exists t, l = sub ++ t.
Proof.
  revert l. induction sub as [|a sub IH]; intros l; cbn.
  - intros _. now exists l.
  - destruct l as [|c l]; [discriminate|]. intros H.
    apply andb_true_iff in H as [H1 H2]. apply byte_eqb_eq in H1. subst c.
    destruct (IH l H2) as [t ->]. now exists t.
Qed.

Lemma find_first_split (sub l : bytes) k :
  find_first Byte.eqb sub l = Some k ->
  exists a rest, l = a ++ sub ++ rest /\ length a = k.
Proof.
  revert k. induction l as [|c l IH]; intros k; cbn [find_first].
  - destruct (starts_with Byte.eqb sub []) eqn:E; [|discriminate].
    intros [= <-]. destruct (starts_with_split _ _ E) as [t Ht].
    exists [], t. auto.
  - destruct (starts_with Byte.eqb sub (c :: l)) eqn:E.
    + intros [= <-]. destruct (starts_with_split _ _ E) as [t Ht].
      exists [], t. auto.
    + destruct (find_first Byte.eqb sub l) as [j|]; [|discriminate].
      intros [= <-]. destruct (IH j eq_refl) as [a [rest [-> Ha]]].
      exists (c :: a), rest. cbn. auto.
Qed.

Lemma try_parse_headers_end self :
  state self <> RECEIVING_HEADERS ->
  _headers_end (fst (_try_parse self)) = _headers_end self
  /\ state (fst (_try_parse self)) <> RECEIVING_HEADERS.
Proof.
  intros Hst. unfold _try_parse, try_final_chunk. cbv zeta.
  destruct (state self) eqn:Hs; try contradiction; parse_cases; cbn;
    rewrite ?Hs; split; auto; discriminate.
Qed.

Lemma feed_data_headers_located self data :
  headers_located self -> headers_located (fst (feed_data self data)).
Proof.
  intros Hloc. unfold headers_located in *.
  destruct (ParserState_eq_dec (state self) RECEIVING_HEADERS) as [Hst|Hst].
  - unfold feed_data, _try_parse, try_final_chunk. cbv zeta.
    cbn [state set_buffer buffer]. rewrite Hst.
    unfold bytes_find. rewrite !py_find_0.
    destruct (find_first Byte.eqb crlfcrlf (buffer self ++ data)) as [k|] eqn:F.
    + destruct (Z.of_nat k =? -1) eqn:E; [apply Z.eqb_eq in E; lia|].
      cbn [negb]. parse_cases; cbn; intros _; exists k; auto.
    + cbn. rewrite Hst. contradiction.
  - destruct (Hloc Hst) as [k [F He]]. intros _.
    pose proof (feed_data_appends self data) as [Hb _].
    exists k. rewrite Hb. split; [now apply find_first_app|].
    unfold feed_data. cbv zeta.
    pose proof (@try_parse_headers_end
                  (set_buffer self (buffer self ++ data) (len (buffer self))) Hst)
      as [H1 _].
    destruct (_try_parse _) as [s [e|]]; cbn [fst] in *; now rewrite H1.
Qed.

Lemma request_headers_shape pieces h :
  get_request_headers (fst (feed_all init pieces)) = Ok h ->
  exists head rest,
    h = head ++ crlfcrlf
    /\ buffer (fst (feed_all init pieces)) = h ++ rest
    /\ bytes_find h crlfcrlf 0 = len head.
Proof.
  assert (Hloc : headers_located (fst (feed_all init pieces))).
  { apply (feed_all_invariant headers_located feed_data_headers_located).
    intros H. now contradiction H. }
  set (self := fst (feed_all init pieces)) in *.
  unfold get_request_headers, headers_located, headers_end_or_0 in *.
  intros Hh.
  assert (Hst : state self <> RECEIVING_HEADERS)
    by (intros E; rewrite E in Hh; discriminate).
  destruct (Hloc Hst) as [k [F He]]. rewrite He in Hh.
  destruct (find_first_split _ _ F) as [head [rest [Hbuf Hk]]].
  assert (Hcut : slice_to (buffer self) (Z.of_nat k + 4) = head ++ crlfcrlf).
  { rewrite Hbuf, app_assoc.
    replace (Z.of_nat k + 4) with (len (head ++ crlfcrlf))
      by (rewrite len_app; unfold len; rewrite Hk; reflexivity).
    apply slice_to_app. }
  rewrite Hcut in Hh.
  assert (h = head ++ crlfcrlf) as ->
    by (destruct (state self); congruence).
  exists head, rest. split; [reflexivity|]. split.
  - now rewrite Hbuf, <- app_assoc.
  - unfold bytes_find. rewrite py_find_0.
    rewrite Hbuf, app_assoc in F.
    pose proof (find_first_app_inv Byte.eqb crlfcrlf (head ++ crlfcrlf) rest F) as Hin.
    rewrite length_app, Hk in Hin. cbn [length crlfcrlf] in Hin.
    rewrite Nat.leb_refl in Hin. rewrite Hin. unfold len. now rewrite Hk.
Qed.

(** X4.  Whatever was fed to a fresh parser, the header block that
    [get_request_headers] returns is the start of the buffer up to and
    with its first blank line. *)
Theorem headers_end_at_first_blank_line pieces h :
  get_request_headers (fst (feed_all init pieces)) = Ok h ->
  exists head rest,
    h = head ++ crlfcrlf
    /\ buffer (fst (feed_all init pieces)) = h ++ rest
    /\ bytes_find h crlfcrlf 0 = len head.
Proof.
  apply request_headers_shape.
Qed.

Lemma headers_end_at_first_blank_line_witness :
  exists head rest,
    hello_head = head ++ crlfcrlf
    /\ Parser.buffer (fst (feed_all init [request_hello])) = hello_head ++ rest
    /\ bytes_find hello_head crlfcrlf 0 = len head.
Proof.
  apply (@headers_end_at_first_blank_line [request_hello] hello_head).
  reflexivity.
Defined.

Lemma get_http_method_raises headers e :
  _get_http_method headers = Raise e -> e = BadRequestError.
Proof.
  unfold _get_http_method. cbv zeta. destruct (negb _); congruence.
Qed.

Lemma has_final_chunk_raises self e :
  _has_final_chunk self = Raise e -> e = BadRequestError.
Proof.
  unfold _has_final_chunk, has_final_chunk_of. cbv zeta.
  generalize (length (slice_from (buffer self) (headers_end_or_0 self))).
  generalize (slice_from (buffer self) (headers_end_or_0 self)).
  intros c fuel. revert c. induction fuel as [|fuel IH]; intros c.
  - destruct c as [|x c]; cbn; [discriminate|].
    destruct (final_chunk_step (x :: c)); congruence.
  - destruct c as [|x c]; cbn; [discriminate|].
    destruct (final_chunk_step (x :: c)); try congruence. apply IH.
Qed.

Lemma feed_data_framing_exclusive self data :
  framing_exclusive self -> framing_exclusive (fst (feed_data self data)).
Proof.
  unfold framing_exclusive, feed_data, _try_parse, try_final_chunk. cbv zeta.
  cbn [state set_buffer].
  destruct (state self) eqn:Hs; intros H; parse_cases; cbn;
    rewrite ?Hs; auto;
    try match goal with
        | E : _get_http_method _ = Raise _ |- _ =>
            apply get_http_method_raises in E; discriminate E
        | E : _has_final_chunk _ = Raise _ |- _ =>
            apply has_final_chunk_raises in E; discriminate E
        end.
  all: try (destruct H; split; assumption).
  all: cbn in *; repeat split; try assumption; try congruence.
Qed.

(** X5.  Whatever is fed to a fresh parser, a request is framed one
    way: while chunks are received or complete [is_chunked] holds and
    no Content-Length is recorded; in RECEIVING_BODY and COMPLETE
    [is_chunked] does not hold. *)
Theorem framing_is_exclusive pieces :
  let self := fst (feed_all init pieces) in
  match state self with
  | RECEIVING_CHUNKS | CHUNKS_COMPLETE =>
      is_chunked self = true /\ content_length self = None
  | RECEIVING_BODY | COMPLETE => is_chunked self = false
  | RECEIVING_HEADERS => content_length self = None
  | ERROR => True
  end.
Proof.
  apply (feed_all_invariant framing_exclusive feed_data_framing_exclusive).
  reflexivity.
Qed.

Lemma slice_from_beyond {A} (l : list A) i : len l <= i -> slice_from l i = [].
Proof.
  intros H. pose proof (len_nonneg l). unfold slice_from, py_slice, norm_index.
  destruct (i <? 0) eqn:E; [apply Z.ltb_lt in E; lia|].
  replace (Z.min i (len l)) with (len l) by lia.
  rewrite Z.sub_diag. reflexivity.
Qed.

Lemma try_parse_terminal self :
  state self = COMPLETE \/ state self = CHUNKS_COMPLETE \/ state self = ERROR ->
  _try_parse self = (self, None).
Proof. unfold _try_parse. intros [H|[H|H]]; now rewrite H. Qed.

Lemma try_parse_body_waiting self cl :
  state self = RECEIVING_BODY ->
  content_length self = Some cl ->
  (len (buffer self) - headers_end_or_0 self >=? cl) = false ->
  _try_parse self = (self, None).
Proof. unfold _try_parse. intros H1 H2 H3. cbv zeta. now rewrite H1, H2, H3. Qed.

Lemma try_parse_chunks_waiting self :
  state self = RECEIVING_CHUNKS ->
  _has_final_chunk self = Ok false ->
  _try_parse self = (self, None).
Proof. unfold _try_parse, try_final_chunk. intros H1 H2. now rewrite H1, H2. Qed.

Lemma try_parse_headers_waiting self :
  state self = RECEIVING_HEADERS ->
  bytes_find (buffer self) crlfcrlf 0 = -1 ->
  _try_parse self = (self, None).
Proof. unfold _try_parse. intros H1 H2. cbv zeta. now rewrite H1, H2. Qed.

Lemma try_parse_stable self :
  snd (_try_parse self) = None ->
  _try_parse (fst (_try_parse self)) = (fst (_try_parse self), None).
Proof.
  intros H. destruct (_try_parse self) as [s' o] eqn:Hr. cbn in H. subst o.
  cbn [fst]. unfold _try_parse, try_final_chunk in Hr. cbv zeta in Hr.
  repeat match type of Hr with
         | context [match ?x with _ => _ end] =>
             match x with
             | context [match _ with _ => _ end] => fail 1
             | _ => destruct x eqn:?
             end
         end;
    inversion Hr; subst s'; clear Hr.
  all: try (apply try_parse_terminal; cbn; rewrite ?Heqp; auto; fail).
  all: try (eapply try_parse_body_waiting; cbn; rewrite ?Heqp; eauto; fail).
  all: try (apply try_parse_chunks_waiting; cbn; rewrite ?Heqp; auto; fail).
  all: try (apply try_parse_headers_waiting; cbn; rewrite ?Heqp; auto;
            match goal with
            | E : negb (_ =? -1) = false |- _ =>
                apply negb_false_iff, Z.eqb_eq in E; exact E
            end).
  apply try_parse_chunks_waiting; [reflexivity|].
  unfold _has_final_chunk. cbv zeta.
  cbn [buffer set_state set_is_chunked set_headers_end headers_end_or_0
       _headers_end] in *.
  rewrite slice_from_beyond; [reflexivity|].
  match goal with
  | E : (_ >? 0) = false |- _ => rewrite Z.gtb_ltb in E; apply Z.ltb_ge in E; lia
  end.
Qed.

Lemma try_parse_cursor self p :
  _try_parse (set_buffer self (buffer self) p)
  = (set_buffer (fst (_try_parse self)) (buffer self) p, snd (_try_parse self)).
Proof.
  unfold _try_parse, try_final_chunk, _has_final_chunk, headers_end_or_0.
  cbv zeta.
  cbn [state buffer content_length is_chunked _headers_end set_buffer set_state
       set_is_chunked set_headers_end set_content_length].
  parse_cases; reflexivity.
Qed.

(** X6.  After a call of [feed_data] that raised nothing, feeding the
    empty byte string returns the same answer and changes nothing but
    the cursor, which goes to the end of the buffer. *)
Theorem feed_data_empty_after self data self' r :
  feed_data self data = (self', Ok r) ->
  feed_data self' []
  = (set_buffer self' (buffer self') (len (buffer self')), Ok r).
Proof.
  unfold feed_data. cbv zeta. intros H.
  destruct (_try_parse (set_buffer self (buffer self ++ data) (len (buffer self))))
    as [s o] eqn:Hp.
  destruct o as [e|]; [discriminate|]. injection H as -> <-.
  pose proof (@try_parse_stable
                (set_buffer self (buffer self ++ data) (len (buffer self)))) as Hs.
  rewrite Hp in Hs. cbn [fst snd] in Hs. specialize (Hs eq_refl).
  rewrite app_nil_r, try_parse_cursor, Hs. reflexivity.
Qed.

Lemma feed_data_empty_after_witness :
  feed_data (fst (feed_data init request_hello)) []
  = (set_buffer (fst (feed_data init request_hello))
       (Parser.buffer (fst (feed_data init request_hello)))
       (len (Parser.buffer (fst (feed_data init request_hello)))), Ok true).
Proof.
  apply (@feed_data_empty_after init request_hello). reflexivity.
Defined.

Lemma final_chunk_loop_fuel n : forall c fuel,
  (length c <= n)%nat -> (length c <= fuel)%nat ->
  final_chunk_loop fuel c = final_chunk_loop (length c) c.
Proof.
  induction n as [|n IH]; intros c fuel Hn Hfuel.
  - destruct c; [|cbn in Hn; lia]. now rewrite !final_chunk_loop_nil.
  - destruct c as [|x c]; [now rewrite !final_chunk_loop_nil|].
    rewrite !final_chunk_loop_cons.
    destruct (final_chunk_step (x :: c)) as [r| |c'] eqn:Hstep; try reflexivity.
    apply final_chunk_step_shrinks in Hstep. unfold len in Hstep.
    cbn [length] in *. destruct fuel as [|fuel]; [lia|].
    rewrite (IH c' fuel), (IH c' (length c)) by lia. reflexivity.
Qed.

(** X7.  The loop of [_has_final_chunk] ends: with as many turns as
    the chunks have bytes, or more, it comes to the same result, and
    the only exception it raises is BadRequestError. *)
Theorem has_final_chunk_terminates c fuel :
  (length c <= fuel)%nat ->
  final_chunk_loop fuel c = Some (has_final_chunk_of c)
  /\ (forall e, has_final_chunk_of c = Raise e -> e = BadRequestError).
Proof.
  intros Hfuel. unfold has_final_chunk_of.
  rewrite (@final_chunk_loop_fuel (length c) c fuel) by lia.
  pose proof (@final_chunk_loop_total (length c) c (Nat.le_refl _)) as Htot.
  destruct (final_chunk_loop (length c) c) as [r|] eqn:E; [|contradiction].
  split; [reflexivity|]. intros e ->. clear Htot Hfuel.
  revert E. generalize (length c) at 1. intros f. revert c.
  induction f as [|f IH]; intros c.
  - destruct c as [|x c]; cbn; [discriminate|].
    destruct (final_chunk_step (x :: c)); congruence.
  - destruct c as [|x c]; cbn; [discriminate|].
    destruct (final_chunk_step (x :: c)); try congruence. apply IH.
Qed.

Lemma has_final_chunk_terminates_witness :
  final_chunk_loop 100 upload_body = Some (has_final_chunk_of upload_body)
  /\ (forall e, has_final_chunk_of upload_body = Raise e -> e = BadRequestError).
Proof.
  apply (@has_final_chunk_terminates upload_body 100). vm_compute. lia.
Defined.

Lemma final_chunk_step_true c :
  final_chunk_step c = Return true ->
  bytes_find c crlf 0 <> -1
  /\ chunk_size_of c (bytes_find c crlf 0) = Ok 0
  /\ len c = bytes_find c crlf 0 + 4.
Proof.
  unfold final_chunk_step. cbv zeta.
  destruct (bytes_find c crlf 0 =? -1) eqn:E; [discriminate|].
  destruct (chunk_size_of c (bytes_find c crlf 0)) as [size|]; [|discriminate].
  destruct (size =? 0) eqn:E0.
  - destruct (len c <? _); [discriminate|].
    destruct (len c =? _) eqn:E1; [|discriminate].
    intros _. bool_to_Z. subst size. auto.
  - destruct (_ >? len c); [discriminate|]. destruct (negb _); discriminate.
Qed.

Lemma final_chunk_step_next c c' :
  final_chunk_step c = Next c' ->
  exists size,
    bytes_find c crlf 0 <> -1
    /\ chunk_size_of c (bytes_find c crlf 0) = Ok size
    /\ bytes_find c crlf 0 + 2 + size + 2 <= len c
    /\ c' = slice_from c (bytes_find c crlf 0 + 2 + size + 2).
Proof.
  unfold final_chunk_step. cbv zeta.
  destruct (bytes_find c crlf 0 =? -1) eqn:E; [discriminate|].
  destruct (chunk_size_of c (bytes_find c crlf 0)) as [size|]; [|discriminate].
  destruct (size =? 0) eqn:E0.
  - destruct (len c <? _); [discriminate|].
    destruct (len c =? _); [|discriminate]. destruct (negb _); discriminate.
  - destruct (_ >? len c) eqn:E1; [discriminate|].
    destruct (negb _); [discriminate|]. intros [= <-]. bool_to_Z.
    exists size. auto.
Qed.

Lemma walk_true_dechunk n : forall c fuel fuel' acc,
  (length c <= n)%nat ->
  final_chunk_loop fuel c = Some (Ok true) ->
  (length c <= fuel')%nat ->
  exists payload, dechunk_loop fuel' c acc = Some (Ok (acc ++ payload)).
Proof.
  induction n as [|n IH]; intros c fuel fuel' acc Hn Hwalk Hfuel.
  - destruct c; [|cbn in Hn; lia]. rewrite final_chunk_loop_nil in Hwalk.
    discriminate.
  - destruct c as [|x c0]; [rewrite final_chunk_loop_nil in Hwalk; discriminate|].
    rewrite final_chunk_loop_cons in Hwalk. set (c := x :: c0) in *.
    assert (Hpos : 0 < len c) by (unfold len, c; cbn [length]; lia).
    rewrite dechunk_loop_cons by exact Hpos. unfold dechunk_step. cbv zeta.
    destruct (final_chunk_step c) as [r| |c'] eqn:Hstep; try discriminate.
    + injection Hwalk as ->.
      destruct (final_chunk_step_true _ Hstep) as [He [Hsize Hlen]].
      apply Z.eqb_neq in He. rewrite He, Hsize. cbn [bind].
      destruct (_ >? len c) eqn:E; bool_to_Z; [lia|].
      destruct fuel' as [|fuel']; [cbn in Hfuel; lia|].
      rewrite slice_from_beyond by lia. rewrite dechunk_loop_nil. eauto.
    + destruct (final_chunk_step_next _ Hstep) as [size [He [Hsize [Hfull Hc']]]].
      apply Z.eqb_neq in He. rewrite He, Hsize. cbn [bind].
      destruct (_ >? len c) eqn:E; bool_to_Z; [lia|]. rewrite <- Hc'.
      apply final_chunk_step_shrinks in Hstep. unfold len in Hstep.
      destruct fuel as [|fuel]; [discriminate|].
      destruct fuel' as [|fuel']; [cbn in Hfuel; lia|].
      destruct (IH c' fuel fuel'
                   (acc ++ slice c (bytes_find c crlf 0 + 2)
                                   (bytes_find c crlf 0 + size + 2)))
        as [payload Hp]; try exact Hwalk.
      * unfold c in *. cbn [length] in *. lia.
      * unfold c in *. cbn [length] in *. lia.
      * rewrite Hp, <- app_assoc. eauto.
Qed.

(** X8.  When a call of [feed_data] takes the parser to
    CHUNKS_COMPLETE, [get_request_body] on the result returns a body:
    it ends and raises nothing. *)
Theorem chunks_complete_body_returns self data :
  state self <> CHUNKS_COMPLETE ->
  state (fst (feed_data self data)) = CHUNKS_COMPLETE ->
  exists body, get_request_body (fst (feed_data self data)) = Some (Ok body).
Proof.
  unfold feed_data, _try_parse, try_final_chunk. cbv zeta.
  cbn [state set_buffer]. intros Hst.
  destruct (state self) eqn:Hs; try contradiction; parse_cases; cbn [fst state
    set_state set_buffer set_content_length set_is_chunked set_headers_end
    set_error fail_bad_request];
    rewrite ?Hs; try discriminate; intros _.
  all: match goal with
       | E : _has_final_chunk ?s = Ok true |- _ =>
           unfold _has_final_chunk, has_final_chunk_of in E; cbv zeta in E;
           unfold get_request_body; cbv zeta;
           cbn [state buffer headers_end_or_0 _headers_end set_state set_buffer
                set_is_chunked set_headers_end] in *;
           match type of E with
           | match final_chunk_loop ?f ?c with _ => _ end = _ =>
               destruct (final_chunk_loop f c) as [r|] eqn:Hw; [|discriminate];
               subst r;
               destruct (@walk_true_dechunk (length c) c f (length c) [])
                 as [payload Hp]; auto; exists payload; exact Hp
           end
       end.
Qed.

Lemma chunks_complete_body_returns_witness :
  exists body,
    get_request_body (fst (feed_data uploading_parser upload_body))
    = Some (Ok body).
Proof.
  apply (@chunks_complete_body_returns uploading_parser upload_body);
    [vm_compute; discriminate|reflexivity].
Defined.

End ParserInvariants.

(** ** Chunks as they arrive *)

Section LastChunks.
Import Parser Handlers Protocol Spec Examples.
#[local] Arguments len : simpl never.
#[local] Arguments bytes_find : simpl never.
#[local] Arguments body_required : simpl never.

Lemma last_chunks_step_eq c : last_chunks_step c = dechunk_step c.
Proof.
  unfold last_chunks_step, dechunk_step. cbv zeta.
  destruct (bytes_find c crlf 0 =? -1); [reflexivity|].
  destruct (chunk_size_of c (bytes_find c crlf 0)) as [n|e]; [|reflexivity].
  cbn [bind]. replace (bytes_find c crlf 0 + 2 + n) with (bytes_find c crlf 0 + n + 2) by lia.
  reflexivity.
Qed.

Lemma last_chunks_loop_eq fuel : forall c acc,
  last_chunks_loop fuel c acc = dechunk_loop fuel c acc.
Proof.
  induction fuel as [|fuel IH]; intros [|x c] acc; cbn [last_chunks_loop dechunk_loop];
    try reflexivity; rewrite last_chunks_step_eq;
    destruct (dechunk_step (x :: c)) as [[v c']|e]; auto.
Qed.

(** Dechunking a run of whole chunks followed by [tail] yields the payload
    of the run and goes on with [tail]. *)
Lemma dechunk_loop_run body payload :
  chunk_run body payload ->
  forall tail fuel acc,
    (length (body ++ tail) <= fuel)%nat ->
    exists fuel', (length tail <= fuel')%nat
      /\ dechunk_loop fuel (body ++ tail) acc
         = dechunk_loop fuel' tail (acc ++ payload).
Proof.
  induction 1 as [| sl n data rest payload Hfind Hsize Hn Hdata Hrest IH];
    intros tail fuel acc Hfuel.
  - exists fuel. cbn [app] in *. rewrite app_nil_r. auto.
  - remember ((sl ++ crlf ++ data ++ crlf ++ rest) ++ tail) as body eqn:Ebody.
    assert (Ebody' : body = sl ++ crlf ++ data ++ crlf ++ rest ++ tail)
      by (subst body; rewrite <- !app_assoc; reflexivity).
    assert (Hlen : len body = len sl + 2 + n + 2 + len (rest ++ tail))
      by (rewrite Ebody', !len_app; change (len crlf) with 2; lia).
    pose proof (len_nonneg sl). pose proof (len_nonneg (rest ++ tail)).
    assert (Hfuel' : len body <= Z.of_nat fuel)
      by (unfold len; apply Nat2Z.inj_le; exact Hfuel).
    rewrite dechunk_loop_cons by lia. unfold dechunk_step.
    rewrite (@bytes_find_prefix sl crlf (data ++ crlf ++ rest ++ tail) body [] Hfind)
      by (rewrite app_nil_r; exact Ebody').
    change (len crlf) with 2.
    destruct (len sl + 2 <=? len body) eqn:E; bool_to_Z; [|lia].
    destruct (len sl =? -1) eqn:E1; bool_to_Z; [lia|].
    unfold chunk_size_of.
    replace (slice_to body (len sl)) with sl
      by (rewrite Ebody'; now rewrite slice_to_app).
    rewrite Hsize. cbn [bind].
    destruct (len sl + 2 + n + 2 >? len body) eqn:E2; bool_to_Z; [lia|].
    destruct fuel as [|fuel]; [lia|].
    replace (slice_from body (len sl + 2 + n + 2)) with (rest ++ tail).
    2:{ rewrite Ebody'.
        replace (sl ++ crlf ++ data ++ crlf ++ rest ++ tail)
          with ((sl ++ crlf ++ data ++ crlf) ++ rest ++ tail)
          by (rewrite <- !app_assoc; reflexivity).
        replace (len sl + 2 + n + 2) with (len (sl ++ crlf ++ data ++ crlf))
          by (rewrite !len_app; change (len crlf) with 2; lia).
        now rewrite slice_from_app. }
    replace (slice body (len sl + 2) (len sl + n + 2)) with data.
    2:{ rewrite Ebody'.
        replace (sl ++ crlf ++ data ++ crlf ++ rest ++ tail)
          with ((sl ++ crlf) ++ data ++ crlf ++ rest ++ tail)
          by (rewrite <- !app_assoc; reflexivity).
        replace (len sl + 2) with (len (sl ++ crlf))
          by (rewrite !len_app; reflexivity).
        rewrite slice_app_mid; [reflexivity|].
        rewrite !len_app. change (len crlf) with 2. lia. }
    destruct (IH tail fuel (acc ++ data)) as [fuel' [Hf Hd]].
    { apply Nat2Z.inj_le. fold (len (rest ++ tail)). lia. }
    exists fuel'. split; [exact Hf|]. now rewrite Hd, <- app_assoc.
Qed.

Lemma dechunk_step_cut tail : cut_chunk tail -> dechunk_step tail = Raise BadRequestError.
Proof.
  destruct 1 as [tail _ Hfind | sl n part Hfind Hsize Hpart]; unfold dechunk_step.
  - now rewrite Hfind.
  - rewrite (@bytes_find_prefix sl crlf part (sl ++ crlf ++ part) [] Hfind)
      by now rewrite app_nil_r.
    rewrite !len_app. change (len crlf) with 2.
    pose proof (len_nonneg sl). pose proof (len_nonneg part).
    destruct (len sl + 2 <=? len sl + (2 + len part)) eqn:E; bool_to_Z; [|lia].
    destruct (len sl =? -1) eqn:E1; bool_to_Z; [lia|].
    unfold chunk_size_of. rewrite slice_to_app, Hsize. cbn [bind].
    destruct (len sl + 2 + n + 2 >? len sl + (2 + len part)) eqn:E2; bool_to_Z;
      [reflexivity|lia].
Qed.

Lemma cut_chunk_nonempty tail : cut_chunk tail -> 0 < len tail.
Proof.
  destruct 1 as [tail Hne _ | sl n part _ _ _].
  - destruct tail; [contradiction|]. unfold len. cbn [length]. lia.
  - rewrite !len_app. change (len crlf) with 2.
    pose proof (len_nonneg sl). pose proof (len_nonneg part). lia.
Qed.

(** After a feed that leaves the parser receiving chunks, the cursor is
    where the piece just fed starts: [get_last_chunks] walks that piece. *)
Lemma get_last_chunks_after_feed self data :
  state (fst (feed_data self data)) = RECEIVING_CHUNKS
  \/ state (fst (feed_data self data)) = CHUNKS_COMPLETE ->
  get_last_chunks (fst (feed_data self data))
  = dechunk_loop (length data) data [].
Proof.
  intros Hst. unfold get_last_chunks. cbv zeta.
  destruct (feed_data_appends self data) as [Hb Hp]. rewrite Hb, Hp.
  rewrite slice_from_app, last_chunks_loop_eq.
  destruct Hst as [-> | ->]; reflexivity.
Qed.

Lemma dechunked_piece self data payload :
  chunk_run data payload ->
  state (fst (feed_data self data)) = RECEIVING_CHUNKS
  \/ state (fst (feed_data self data)) = CHUNKS_COMPLETE ->
  get_last_chunks (fst (feed_data self data)) = Some (Ok payload).
Proof.
  intros Hrun Hst. rewrite get_last_chunks_after_feed by exact Hst.
  destruct (@dechunk_loop_run data payload Hrun [] (length data) [])
    as [fuel' [_ Hd]]; [now rewrite app_nil_r|].
  rewrite app_nil_r in Hd. rewrite Hd, dechunk_loop_nil. reflexivity.
Qed.

(** X9.  After a call of [feed_data] with a run of whole chunks that
    leaves the parser receiving chunks (or completes them),
    [get_last_chunks] returns the data of those chunks, in order. *)
Theorem get_last_chunks_whole_chunks self data payload :
  chunk_run data payload ->
  state (fst (feed_data self data)) = RECEIVING_CHUNKS
  \/ state (fst (feed_data self data)) = CHUNKS_COMPLETE ->
  get_last_chunks (fst (feed_data self data)) = Some (Ok payload).
Proof.
  apply dechunked_piece.
Qed.

Lemma one_chunk_run : chunk_run one_chunk (b "Hello" ++ []).
Proof.
  apply (@run_chunk (b "5") 5 (b "Hello") [] []);
    [reflexivity|reflexivity|lia|reflexivity|apply run_end].
Defined.

Lemma get_last_chunks_whole_chunks_witness :
  get_last_chunks (fst (feed_data uploading_parser one_chunk))
  = Some (Ok (b "Hello" ++ [])).
Proof.
  apply (@get_last_chunks_whole_chunks uploading_parser one_chunk (b "Hello" ++ []));
    [exact one_chunk_run|left; reflexivity].
Defined.

(** X10.  After a call of [feed_data] with whole chunks followed by a
    chunk that is cut, inside its size line or inside its data,
    [get_last_chunks] raises BadRequestError although the parser is in
    RECEIVING_CHUNKS. *)
Theorem get_last_chunks_cut_chunk self whole payload tail :
  chunk_run whole payload ->
  cut_chunk tail ->
  state (fst (feed_data self (whole ++ tail))) = RECEIVING_CHUNKS ->
  get_last_chunks (fst (feed_data self (whole ++ tail)))
  = Some (Raise BadRequestError).
Proof.
  intros Hrun Hcut Hst. rewrite get_last_chunks_after_feed by (left; exact Hst).
  destruct (@dechunk_loop_run whole payload Hrun tail (length (whole ++ tail)) [])
    as [fuel' [_ Hd]]; [reflexivity|].
  rewrite Hd, dechunk_loop_cons by (apply cut_chunk_nonempty; exact Hcut).
  now rewrite dechunk_step_cut.
Qed.

Lemma get_last_chunks_cut_chunk_witness :
  get_last_chunks (fst (feed_data uploading_parser (one_chunk ++ b "6;la")))
  = Some (Raise BadRequestError).
Proof.
  apply (@get_last_chunks_cut_chunk uploading_parser one_chunk (b "Hello" ++ [])
                                    (b "6;la"));
    [exact one_chunk_run| |reflexivity].
  apply cut_in_size_line; [discriminate|reflexivity].
Defined.

End LastChunks.

(** ** The request line read as a chunk *)

Section RequestLineAsChunk.
Import Parser Handlers Protocol Spec Examples.
#[local] Arguments len : simpl never.
#[local] Arguments bytes_find : simpl never.
#[local] Arguments body_required : simpl never.

Section SplitFacts.
Context {A : Type} (eqb : A -> A -> bool).

Lemma find_first_unfold (sub l : list A) :
  find_first eqb sub l
  = if starts_with eqb sub l then Some O
    else match l with
         | [] => None
         | _ :: l' => option_map S (find_first eqb sub l')
         end.
Proof. destruct l; reflexivity. Qed.

(** The first part of a split: what comes before the first separator. *)
Lemma split_go_first (sep l : list A) : forall cur,
  nth 0 (split_go eqb sep None 0 cur l) []
  = rev cur ++ match find_first eqb sep l with
               | Some k => firstn k l
               | None => l
               end.
Proof.
  induction l as [|x l IH]; intros cur.
  - cbn [split_go nth]. rewrite find_first_unfold.
    destruct (starts_with eqb sep []); cbn [firstn]; now rewrite app_nil_r.
  - rewrite find_first_unfold. cbn [split_go].
    destruct (starts_with eqb sep (x :: l)).
    + cbn [nth firstn]. now rewrite app_nil_r.
    + rewrite IH. cbn [rev]. rewrite <- app_assoc. cbn [app].
      destruct (find_first eqb sep l); reflexivity.
Qed.

Lemma split_go_none (sep l : list A) : forall cur,
  find_first eqb sep l = None ->
  split_go eqb sep None 0 cur l = [rev cur ++ l].
Proof.
  induction l as [|x l IH]; intros cur; rewrite find_first_unfold.
  - intros _. cbn. now rewrite app_nil_r.
  - cbn [split_go]. destruct (starts_with eqb sep (x :: l)); [discriminate|].
    destruct (find_first eqb sep l) eqn:F; [discriminate|]. intros _.
    rewrite IH by reflexivity. cbn [rev]. now rewrite <- app_assoc.
Qed.

Lemma find_first_starts (sep l : list A) k :
  find_first eqb sep l = Some k -> starts_with eqb sep (skipn k l) = true.
Proof.
  revert k. induction l as [|x l IH]; intros k; rewrite find_first_unfold.
  - destruct (starts_with eqb sep []) eqn:E; [|discriminate].
    intros [= <-]. exact E.
  - destruct (starts_with eqb sep (x :: l)) eqn:E.
    + intros [= <-]. exact E.
    + destruct (find_first eqb sep l) as [j|]; [|discriminate].
      intros [= <-]. cbn [skipn]. now apply IH.
Qed.

Lemma starts_with_self (sub y : list A) :
  (forall a, eqb a a = true) -> starts_with eqb sub (sub ++ y) = true.
Proof.
  intros Hrefl. induction sub as [|a sub IH]; cbn; [reflexivity|].
  now rewrite Hrefl, IH.
Qed.

Lemma find_first_exists (sub x y : list A) :
  (forall a, eqb a a = true) -> find_first eqb sub (x ++ sub ++ y) <> None.
Proof.
  intros Hrefl. induction x as [|a x IH]; rewrite find_first_unfold; cbn [app].
  - now rewrite starts_with_self.
  - destruct (starts_with eqb sub (a :: x ++ sub ++ y)); [discriminate|].
    destruct (find_first eqb sub (x ++ sub ++ y)); [discriminate|contradiction].
Qed.
End SplitFacts.

Lemma ascii_eqb_decode a c :
  Ascii.eqb (ascii_of_byte a) (ascii_of_byte c) = Byte.eqb a c.
Proof.
  destruct (Byte.eqb a c) eqn:E.
  - apply byte_eqb_eq in E. subst c. apply Ascii.eqb_refl.
  - apply Ascii.eqb_neq. intros H. apply (f_equal byte_of_ascii) in H.
    rewrite !byte_of_ascii_of_byte in H. subst c.
    assert (Byte.eqb a a = true) by now apply byte_eqb_eq. congruence.
Qed.

Lemma starts_with_decode sub l :
  starts_with Ascii.eqb (decode_latin1 sub) (decode_latin1 l)
  = starts_with Byte.eqb sub l.
Proof.
  revert l. induction sub as [|a sub IH]; intros [|c l]; cbn; try reflexivity.
  now rewrite ascii_eqb_decode, <- IH.
Qed.

Lemma find_first_decode sub l :
  find_first Ascii.eqb (decode_latin1 sub) (decode_latin1 l)
  = find_first Byte.eqb sub l.
Proof.
  induction l as [|c l IH]; rewrite (find_first_unfold Ascii.eqb),
    (find_first_unfold Byte.eqb), starts_with_decode.
  - reflexivity.
  - cbn [decode_latin1 map]. fold (decode_latin1 l). now rewrite IH.
Qed.

Lemma str_starts_with_split (sub l : str) :
  starts_with Ascii.eqb sub l = true -> exists t, l = sub ++ t.
Proof.
  revert l. induction sub as [|a sub IH]; intros l; cbn.
  - intros _. now exists l.
  - destruct l as [|c l]; [discriminate|]. intros H.
    apply andb_true_iff in H as [H1 H2]. apply Ascii.eqb_eq in H1. subst c.
    destruct (IH l H2) as [t ->]. now exists t.
Qed.

(** No method name followed by a blank reads as a number in base 16. *)
Lemma method_is_no_size m u :
  str_in m methods = true ->
  size_of_line (encode_latin1 m ++ x20 :: u) = Raise ValueError.
Proof.
  unfold str_in, methods. cbn [existsb]. rewrite !orb_true_iff.
  intros H.
  repeat match type of H with
         | _ \/ _ => destruct H as [H|H]
         end; try discriminate H; apply str_eqb_eq in H; subst m;
    match goal with
    | |- context [encode_latin1 ?m] =>
        let v := eval vm_compute in (encode_latin1 m) in
        change (encode_latin1 m) with v
    end;
    unfold size_of_line, bytes_split, py_split; cbn [app];
    cbn;
    match goal with
    | |- int_of_bytes (nth 0 (split_go _ ?sep None 0 ?cur ?l) []) 16 = _ =>
        change (int_of_bytes (@nth (list byte) 0 (split_go Byte.eqb sep None 0 cur l) []) 16
                = Raise ValueError);
        rewrite (split_go_first Byte.eqb sep l cur)
    end; cbn; reflexivity.
Qed.

Lemma byte_eqb_refl a : Byte.eqb a a = true.
Proof. now apply byte_eqb_eq. Qed.

(** The request line of an accepted header block, read as the size line
    of a chunk. *)
Lemma request_line_size h r rest :
  parse_headers h = Ok r ->
  find_first Byte.eqb crlf h <> None ->
  bytes_find (h ++ rest) crlf 0 <> -1
  /\ chunk_size_of (h ++ rest) (bytes_find (h ++ rest) crlf 0) = Raise ValueError.
Proof.
  intros Hparse Hfind.
  destruct (find_first Byte.eqb crlf h) as [k|] eqn:F; [clear Hfind|contradiction].
  pose proof (find_first_bound _ _ _ F) as Hk.
  unfold bytes_find. rewrite py_find_0, (find_first_app Byte.eqb crlf h rest F).
  split; [lia|].
  unfold chunk_size_of.
  rewrite slice_to_eq
    by (rewrite len_app; unfold len; pose proof (len_nonneg rest); unfold len in *; lia).
  rewrite Nat2Z.id, firstn_app.
  replace (k - length h)%nat with 0%nat by lia. cbn [firstn]. rewrite app_nil_r.
  (* the request line, as [parse_headers] splits it *)
  unfold parse_headers in Hparse. cbv zeta in Hparse.
  unfold str_split, py_split, str in Hparse.
  rewrite (split_go_first Ascii.eqb scrlf (decode_latin1 h) []) in Hparse.
  change scrlf with (decode_latin1 crlf) in Hparse.
  rewrite find_first_decode, F in Hparse. cbn [rev app] in Hparse.
  replace (firstn k (decode_latin1 h)) with (decode_latin1 (firstn k h)) in Hparse
    by (unfold decode_latin1; symmetry; apply firstn_map).
  set (line := firstn k h) in *.
  destruct (negb (length (split_go Ascii.eqb (s " ") None 0 [] (decode_latin1 line)) =? 3)%nat)
    eqn:E3; [discriminate|].
  apply negb_false_iff, Nat.eqb_eq in E3.
  destruct (find_first Ascii.eqb (s " ") (decode_latin1 line)) as [j|] eqn:Fj.
  2:{ rewrite (split_go_none Ascii.eqb (s " ") (decode_latin1 line) [] Fj) in E3.
      discriminate. }
  rewrite (split_go_first Ascii.eqb (s " ") (decode_latin1 line) []) in Hparse.
  rewrite Fj in Hparse. cbn [rev app] in Hparse.
  destruct (negb (str_in (firstn j (decode_latin1 line)) methods)) eqn:Em;
    [discriminate|]. apply negb_false_iff in Em. clear Hparse.
  pose proof (find_first_starts _ _ _ Fj) as Hsp.
  apply str_starts_with_split in Hsp. destruct Hsp as [t Ht].
  assert (Hline : line = encode_latin1 (firstn j (decode_latin1 line)) ++ x20 :: encode_latin1 t).
  { rewrite <- (encode_decode_latin1 line) at 1.
    rewrite <- (firstn_skipn j (decode_latin1 line)) at 1.
    rewrite Ht, encode_latin1_app. reflexivity. }
  rewrite Hline. now apply method_is_no_size.
Qed.

Lemma feed_all_one self data :
  fst (feed_all self [data]) = fst (feed_data self data).
Proof.
  cbn [feed_all]. now destruct (feed_data self data) as [s' [r|e]].
Qed.

Lemma last_chunks_of_first_piece data h r :
  state (fst (feed_data init data)) = RECEIVING_CHUNKS
  \/ state (fst (feed_data init data)) = CHUNKS_COMPLETE ->
  get_request_headers (fst (feed_data init data)) = Ok h ->
  parse_headers h = Ok r ->
  get_last_chunks (fst (feed_data init data)) = Some (Raise ValueError).
Proof.
  intros Hst Hh Hparse. rewrite get_last_chunks_after_feed by exact Hst.
  rewrite <- feed_all_one in Hh.
  destruct (request_headers_shape [data] Hh) as [head [rest [Hhead [Hbuf _]]]].
  rewrite feed_all_one in Hbuf.
  destruct (feed_data_appends init data) as [Hb _]. rewrite Hb in Hbuf.
  change (Parser.buffer init ++ data) with data in Hbuf. subst data.
  assert (Hfind : find_first Byte.eqb crlf h <> None).
  { rewrite Hhead. change crlfcrlf with (crlf ++ crlf).
    apply find_first_exists. exact byte_eqb_refl. }
  destruct (@request_line_size h r rest Hparse Hfind) as [Hne Hsize].
  rewrite dechunk_loop_cons.
  2:{ rewrite Hhead, !len_app. change (len crlfcrlf) with 4.
      pose proof (len_nonneg head). pose proof (len_nonneg rest). lia. }
  unfold dechunk_step. apply Z.eqb_neq in Hne. rewrite Hne, Hsize. reflexivity.
Qed.

End RequestLineAsChunk.

(** ** What [data_received] does *)

Section Receiving.
Import Parser Handlers Protocol Spec Examples.
#[local] Arguments len : simpl never.
#[local] Arguments bytes_find : simpl never.
#[local] Arguments body_required : simpl never.

Lemma parse_header_lines_raises lines : forall hh acc e,
  parse_header_lines lines hh acc = Raise e -> e = BadRequestError.
Proof.
  induction lines as [|line rest IH]; intros hh acc e; cbn [parse_header_lines].
  - discriminate.
  - destruct (_ || _); [apply IH|].
    destruct (str_split_max line (s ":") 1) as [|name [|value [|x l]]];
      try congruence. apply IH.
Qed.

Lemma parse_headers_raises h e :
  parse_headers h = Raise e ->
  e = BadRequestError \/ exists v, e = UnsupportedProtocolError v.
Proof.
  unfold parse_headers. cbv zeta.
  repeat match goal with
         | |- context [if ?c then _ else _] =>
             match c with
             | context [if _ then _ else _] => fail 1
             | _ => destruct c
             end
         end; try (intros [= <-]; eauto; fail).
  all: destruct (parse_header_lines _ _ _) as [[hh acc]|e'] eqn:E; cbn [bind];
    [destruct (negb hh); [intros [= <-]; auto|discriminate]
    |intros [= <-]; left; eapply parse_header_lines_raises; eassumption].
Qed.

Lemma data_received_cases self data :
  let self0 :=
    with_timeout_handler self
      (cancel_timeout_handle
         (reset_timeout (timeout_handler self) REQUEST REQUEST_TIMEOUT)
         KEEP_ALIVE) in
  let buf := fst (feed_data (Protocol.buffer self) data) in
  (* the feed raised *)
  (exists e, data_received self data = (with_buffer self0 buf, Raise e))
  (* still waiting for the header block or the body *)
  \/ ((state buf = RECEIVING_HEADERS \/ state buf = RECEIVING_BODY)
      /\ data_received self data = (with_buffer self0 buf, Ok tt))
  (* unsupported protocol *)
  \/ (exists e, data_received self data
                = (cancel_timers (with_buffer self0 buf) ALL, Raise e))
  (* bad request *)
  \/ (data_received self data
      = (with_transport (cancel_timers (with_buffer self0 buf) ALL)
           (send_bad_request_response (transport self)), Ok tt)
      /\ (state buf = ERROR -> error buf <> Some LENGTH_REQUIRED))
  (* length required *)
  \/ (data_received self data
      = (with_transport (cancel_timers (with_buffer self0 buf) ALL)
           (send_length_required_response (transport self)), Ok tt)
      /\ state buf = ERROR /\ error buf = Some LENGTH_REQUIRED)
  (* task scheduled *)
  \/ (exists h r,
         get_request_headers buf = Ok h /\ parse_headers h = Ok r
         /\ let scope :=
              mkScope (http_version r) (method r) (scheme self) (path r)
                      (raw_path r) (query_string r) (headers r)
                      (client self) (server self) in
            (state buf = RECEIVING_CHUNKS
             /\ data_received self data
                = (create_task (with_buffer self0 buf) scope, Ok tt))
            \/ (is_complete (state buf) = true
                /\ data_received self data
                   = (cancel_timers
                        (with_buffer
                           (with_request_count
                              (create_task (with_buffer self0 buf) scope)
                              (request_count self + 1))
                           Parser.init)
                        REQUEST, Ok tt))).
Proof.
  cbv zeta. unfold data_received. cbv zeta.
  cbn [Protocol.buffer with_timeout_handler].
  destruct (feed_data (Protocol.buffer self) data) as [buf [ok|e]] eqn:Hfeed;
    cbn [fst]; [|left; eauto].
  right.
  destruct (state buf) eqn:Hst.
  - left. auto.
  - left. auto.
  - (* COMPLETE *)
    right. unfold get_request_headers. rewrite Hst. cbn [bind].
    destruct (parse_headers _) as [r|e] eqn:Hp.
    + right. right. right. eexists _, r. split; [reflexivity|]. split; [exact Hp|].
      right. split; reflexivity.
    + destruct (parse_headers_raises _ Hp) as [->|[v ->]].
      * right. left. split; [reflexivity|]. intros; discriminate.
      * left. cbn [exn_value]. eauto.
  - (* RECEIVING_CHUNKS *)
    right. unfold get_request_headers. rewrite Hst. cbn [bind].
    destruct (parse_headers _) as [r|e] eqn:Hp.
    + right. right. right. eexists _, r. split; [reflexivity|]. split; [exact Hp|].
      left. split; reflexivity.
    + destruct (parse_headers_raises _ Hp) as [->|[v ->]].
      * right. left. split; [reflexivity|]. intros; discriminate.
      * left. cbn [exn_value]. eauto.
  - (* CHUNKS_COMPLETE *)
    right. unfold get_request_headers. rewrite Hst. cbn [bind].
    destruct (parse_headers _) as [r|e] eqn:Hp.
    + right. right. right. eexists _, r. split; [reflexivity|]. split; [exact Hp|].
      right. split; reflexivity.
    + destruct (parse_headers_raises _ Hp) as [->|[v ->]].
      * right. left. split; [reflexivity|]. intros; discriminate.
      * left. cbn [exn_value]. eauto.
  - (* ERROR *)
    right. right.
    destruct (error buf) as [[|]|] eqn:He.
    + left. split; [reflexivity|]. intros _. discriminate.
    + right. left. auto.
    + left. split; [reflexivity|]. intros _. discriminate.
Qed.

Lemma receive_all_invariant (P : HttpServerProtocol -> Prop) :
  (forall self data, P self -> P (fst (data_received self data))) ->
  forall pieces self, P self -> P (fst (receive_all self pieces)).
Proof.
  intros Hstep. induction pieces as [|d rest IH]; intros self H; cbn [receive_all].
  - exact H.
  - pose proof (Hstep self d H) as H'.
    destruct (data_received self d) as [self' [r|e]]; cbn [fst] in *; auto.
Qed.

Lemma data_received_only_400 (t : Transport) self data :
  error_tagged (Protocol.buffer self)
  /\ (exists n, transport self = Nat.iter n send_bad_request_response t) ->
  error_tagged (Protocol.buffer (fst (data_received self data)))
  /\ (exists n, transport (fst (data_received self data))
                = Nat.iter n send_bad_request_response t).
Proof.
  intros [Htag [n Ht]].
  pose proof (feed_data_error_tagged data Htag) as Htag'.
  destruct (data_received_cases self data)
    as [[e H]|[[_ H]|[[e H]|[[H _]|[[H [Hst He]]|[h [r [_ [_ [[_ H]|[_ H]]]]]]]]]]];
    rewrite H; proto_fields; try (split; [exact Htag'|exists n; exact Ht]).
  - split; [exact Htag'|]. exists (S n). cbn [Nat.iter]. now rewrite Ht.
  - exfalso. destruct Htag' as [[_ Ha]|[Ha _]]; congruence.
  - split; [|exists n; exact Ht]. right. split; [discriminate|reflexivity].
Qed.

(** X11.  Whatever a connection receives, [data_received] writes
    nothing to the transport but the 400 response, a number of times:
    the 411 and the 505 responses are never written. *)
Theorem data_received_writes_only_400 t server client ssl pieces :
  exists n,
    transport (fst (receive_all (connection_made t server client ssl) pieces))
    = Nat.iter n send_bad_request_response t.
Proof.
  apply (@receive_all_invariant
           (fun self => error_tagged (Protocol.buffer self)
                        /\ exists n, transport self
                                     = Nat.iter n send_bad_request_response t)).
  - intros self data. apply data_received_only_400.
  - split.
    + right. split; [discriminate|reflexivity].
    + exists 0%nat. reflexivity.
Qed.

Lemma cancel_inactive h : active (cancel h) = false.
Proof. now destruct h. Qed.

Lemma write_changes_transport t x : transport_close (transport_write t x) <> t.
Proof.
  intros H. apply (f_equal written) in H. cbn in H.
  apply (f_equal (@length _)) in H. rewrite length_app in H. cbn in H. lia.
Qed.

(** X12.  After [data_received] the keep-alive timer is not active and
    the request timer has been set anew to REQUEST_TIMEOUT; when the
    call raised nothing, that timer is cancelled exactly when the call
    completed a request or wrote to the transport. *)
Theorem timers_after_data_received self data self' r :
  data_received self data = (self', r) ->
  active (keepalive_timeout_handle (timeout_handler self')) = false
  /\ exists c,
       request_timeout_handle (timeout_handler self')
       = Some (mkTimerHandle REQUEST_TIMEOUT c)
       /\ (r = Ok tt ->
           (c = true <-> request_count self' <> request_count self
                         \/ transport self' <> transport self)).
Proof.
  intros Hd.
  destruct (data_received_cases self data)
    as [[e H]|[[_ H]|[[e H]|[[H _]|[[H _]|[h [r0 [_ [_ [[_ H]|[_ H]]]]]]]]]]];
    rewrite H in Hd; injection Hd as <- <-; proto_fields;
    cbn [cancel_timeout_handle reset_timeout request_timeout_handle
         keepalive_timeout_handle cancel option_map delay cancelled];
    (split; [apply cancel_inactive || (rewrite <- (cancel_inactive (keepalive_timeout_handle (timeout_handler self))); destruct (keepalive_timeout_handle (timeout_handler self)); reflexivity)|]);
    eexists; (split; [reflexivity|]); intros Hr; try discriminate Hr.
  - split; [discriminate|]. intros [Hc|Hc]; now contradiction Hc.
  - split; [intros _|reflexivity]. right. apply write_changes_transport.
  - split; [intros _|reflexivity]. right. apply write_changes_transport.
  - split; [discriminate|]. intros [Hc|Hc]; now contradiction Hc.
  - split; [intros _|reflexivity]. left. lia.
Qed.

Lemma timers_after_data_received_witness :
  let self' := fst (data_received fresh_connection request_hello) in
  active (keepalive_timeout_handle (timeout_handler self')) = false
  /\ exists c,
       request_timeout_handle (timeout_handler self')
       = Some (mkTimerHandle REQUEST_TIMEOUT c)
       /\ (Ok tt = Ok tt ->
           (c = true <-> request_count self' <> request_count fresh_connection
                         \/ transport self' <> transport fresh_connection)).
Proof.
  intros self'.
  apply (@timers_after_data_received fresh_connection request_hello self' (Ok tt)).
  reflexivity.
Defined.

(** X13.  A call of [data_received] that completes a request (it
    counts one) schedules the application and replaces the buffer by a
    fresh one before returning: [_receive], called afterwards on an
    open connection, returns an empty body with [more_body] false,
    whatever body the request had. *)
Theorem completed_request_body_is_dropped self data self' r :
  data_received self data = (self', r) ->
  request_count self' <> request_count self ->
  r = Ok tt
  /\ Protocol.buffer self' = Parser.init
  /\ transport self' = transport self
  /\ (exists scope, scheduled self' = scheduled self ++ [scope])
  /\ (closing (transport self') = false ->
      _receive self' = Some (Ok (HttpRequest [] false))).
Proof.
  intros Hd Hcount.
  destruct (data_received_cases self data)
    as [[e H]|[[_ H]|[[e H]|[[H _]|[[H _]|[h [r0 [_ [_ [[_ H]|[_ H]]]]]]]]]]];
    rewrite H in Hd; injection Hd as <- <-; proto_fields;
    try (now contradiction Hcount).
  repeat split; eauto.
  intros Hopen. unfold _receive. proto_fields. now rewrite Hopen.
Qed.

Lemma completed_request_body_is_dropped_witness :
  let self' := fst (data_received fresh_connection request_hello) in
  Ok tt = Ok tt
  /\ Protocol.buffer self' = Parser.init
  /\ transport self' = transport fresh_connection
  /\ (exists scope, scheduled self' = scheduled fresh_connection ++ [scope])
  /\ (closing (transport self') = false ->
      _receive self' = Some (Ok (HttpRequest [] false))).
Proof.
  intros self'.
  apply (@completed_request_body_is_dropped fresh_connection request_hello self'
                                            (Ok tt));
    [reflexivity|vm_compute; discriminate].
Defined.

(** X14.  Every call of [data_received] that leaves the parser in
    RECEIVING_CHUNKS and writes nothing schedules the application once
    more, also when it was scheduled for this request before. *)
Theorem chunk_piece_schedules_task self data self' :
  data_received self data = (self', Ok tt) ->
  state (Protocol.buffer self') = RECEIVING_CHUNKS ->
  transport self' = transport self ->
  exists scope, scheduled self' = scheduled self ++ [scope].
Proof.
  intros Hd Hst Ht.
  destruct (data_received_cases self data)
    as [[e H]|[[Hw H]|[[e H]|[[H _]|[[H _]|[h [r0 [_ [_ [[_ H]|[_ H]]]]]]]]]]];
    rewrite H in Hd; injection Hd as <-; proto_fields; try discriminate.
  - destruct Hw as [Hw|Hw]; congruence.
  - exfalso. exact (@write_changes_transport (transport self) _ Ht).
  - exfalso. exact (@write_changes_transport (transport self) _ Ht).
  - eauto.
Qed.

Lemma chunk_piece_schedules_task_witness :
  exists scope,
    scheduled (fst (data_received uploading_connection one_chunk))
    = scheduled uploading_connection ++ [scope].
Proof.
  apply (@chunk_piece_schedules_task uploading_connection one_chunk
           (fst (data_received uploading_connection one_chunk)));
    reflexivity.
Defined.

(** X15.  When a connection whose buffer is fresh receives in one
    piece the header block of a chunked request, and the chunks are
    not yet complete, [_receive] called before more data arrive reads
    the request line as a chunk size and raises ValueError; an
    application that calls it first and catches nothing is answered by
    the 500 response. *)
Theorem first_receive_of_chunked_upload_raises self data self' scope script :
  Protocol.buffer self = Parser.init ->
  data_received self data = (self', Ok tt) ->
  state (Protocol.buffer self') = RECEIVING_CHUNKS ->
  closing (transport self') = false ->
  _receive self' = Some (Raise ValueError)
  /\ fst (handle_request self' scope (run_app (AppReceive :: script)))
     = with_transport
         (cancel_timers (handle_request_begin self' scope) ALL)
         (send_internal_server_error_response (transport self')).
Proof.
  intros Hinit Hd Hst Hopen.
  assert (Hrecv : _receive self' = Some (Raise ValueError)).
  { destruct (data_received_cases self data)
      as [[e H]|[[Hw H]|[[e H]|[[H _]|[[H _]|[h [r0 [Hh [Hp [[_ H]|[_ H]]]]]]]]]]];
      rewrite H in Hd; injection Hd as <-; proto_fields; try discriminate.
    - destruct Hw as [Hw|Hw]; congruence.
    - unfold _receive. proto_fields. rewrite Hopen, Hst.
      rewrite Hinit in *.
      rewrite (@last_chunks_of_first_piece data h r0); auto. }
  split; [exact Hrecv|].
  unfold handle_request. cbn [run_app].
  assert (Hrecv' : _receive (handle_request_begin self' scope)
                   = Some (Raise ValueError)) by exact Hrecv.
  rewrite Hrecv'. reflexivity.
Qed.

Lemma first_receive_of_chunked_upload_raises_witness :
  let self' := fst (data_received fresh_connection
                      (upload_head ++ crlfcrlf ++ one_chunk)) in
  _receive self' = Some (Raise ValueError)
  /\ fst (handle_request self' scope_get (run_app [AppReceive]))
     = with_transport (cancel_timers (handle_request_begin self' scope_get) ALL)
         (send_internal_server_error_response (transport self')).
Proof.
  intros self'.
  apply (@first_receive_of_chunked_upload_raises fresh_connection
           (upload_head ++ crlfcrlf ++ one_chunk) self' scope_get []);
    reflexivity.
Defined.

(** X16.  When a call of [data_received] with a run of whole chunks
    raises nothing and leaves the parser in RECEIVING_CHUNKS and the
    transport open, [_receive] called before more data arrive returns
    the data of those chunks, with more to come. *)
Theorem receive_streams_whole_chunks self data self' payload :
  data_received self data = (self', Ok tt) ->
  state (Protocol.buffer self') = RECEIVING_CHUNKS ->
  closing (transport self') = false ->
  chunk_run data payload ->
  _receive self' = Some (Ok (HttpRequest payload true)).
Proof.
  intros Hd Hst Hopen Hrun.
  destruct (data_received_cases self data)
    as [[e H]|[[Hw H]|[[e H]|[[H _]|[[H _]|[h [r0 [_ [_ [[_ H]|[_ H]]]]]]]]]]];
    rewrite H in Hd; injection Hd as <-; proto_fields; try discriminate.
  - destruct Hw as [Hw|Hw]; congruence.
  - unfold _receive. proto_fields. rewrite Hopen, Hst.
    rewrite (@dechunked_piece (Protocol.buffer self) data payload Hrun);
      [reflexivity|left; exact Hst].
Qed.

Lemma receive_streams_whole_chunks_witness :
  _receive (fst (data_received uploading_connection one_chunk))
  = Some (Ok (HttpRequest (b "Hello" ++ []) true)).
Proof.
  apply (@receive_streams_whole_chunks uploading_connection one_chunk
           (fst (data_received uploading_connection one_chunk))
           (b "Hello" ++ [])); try reflexivity.
  exact one_chunk_run.
Defined.

End Receiving.

(** ** The application and its response *)

Section Responding.
Import Parser Handlers Protocol Spec Examples.
#[local] Arguments len : simpl never.
#[local] Arguments bytes_find : simpl never.
#[local] Arguments body_required : simpl never.

Lemma send_more_body self hs x :
  closing (transport self) = false ->
  _started (asgi_response_handler self) = true ->
  _headers (asgi_response_handler self) = Some hs ->
  _send self (more_body_message x)
  = (with_transport self
       (transport_write (transport self)
          (response_head (asgi_response_handler self) hs ++ x)), Ok tt).
Proof.
  intros Hopen Hst Hhs. unfold _send, more_body_message.
  now rewrite Hopen, Hst, Hhs.
Qed.

Lemma send_all_more_body hs bodies rest : forall self,
  closing (transport self) = false ->
  _started (asgi_response_handler self) = true ->
  _headers (asgi_response_handler self) = Some hs ->
  send_all self (map more_body_message bodies ++ rest)
  = send_all
      (with_transport self
         (mkTransport
            (written (transport self)
             ++ map (fun x => response_head (asgi_response_handler self) hs ++ x)
                    bodies)
            false))
      rest.
Proof.
  induction bodies as [|x bodies IH]; intros self Hopen Hst Hhs.
  - cbn [map app]. rewrite app_nil_r. f_equal.
    destruct self as [[w c] ? ? ? ? ? ? ? ?]. cbn in *. now subst c.
  - cbn [map app send_all]. rewrite (@send_more_body self hs x Hopen Hst Hhs).
    rewrite IH by assumption. f_equal.
    unfold with_transport, transport_write. cbn.
    now rewrite <- app_assoc.
Qed.

Lemma send_all_response self status hs (bodies : list bytes) (final : bytes) scope :
  closing (transport self) = false ->
  _scope (asgi_response_handler self) = Some scope ->
  let h := set_headers (set_status (set_started (asgi_response_handler self) true)
                                   status) hs in
  let keep := negb (request_count self >=? MAX_KEEP_ALIVE_REQUESTS)
              && keep_alive_scan (scope_headers scope) (scope_http_version scope) in
  let sent :=
    with_transport (with_asgi_response_handler self h)
      (mkTransport
         (written (transport self)
          ++ map (fun x => response_head h hs ++ x) (bodies ++ [final]))
         false) in
  send_all self
    (ResponseStart status hs
     :: map more_body_message bodies ++ [ResponseBody (Some final) (Some false)])
  = (if keep
     then with_timeout_handler sent
            (reset_timeout (timeout_handler self) KEEP_ALIVE KEEP_ALIVE_TIMEOUT)
     else with_transport (cancel_timers sent ALL)
            (transport_close (transport sent)), Ok tt).
Proof.
  intros Hopen Hscope. cbv zeta.
  cbn [send_all]. unfold _send at 1. rewrite Hopen.
  rewrite send_all_more_body with (hs := hs) by (cbn; auto).
  cbn [send_all]. unfold _send.
  cbn [transport with_transport with_asgi_response_handler asgi_response_handler
       closing written _started _headers set_headers set_status set_started negb].
  unfold should_keep_alive.
  cbn [request_count with_transport with_asgi_response_handler
       asgi_response_handler _scope set_headers set_status set_started].
  rewrite Hscope, map_app. cbn [map].
  unfold transport_write. cbn [written closing]. rewrite <- app_assoc.
  destruct (request_count self >=? MAX_KEEP_ALIVE_REQUESTS); cbn [negb andb].
  - reflexivity.
  - destruct (keep_alive_scan _ _); reflexivity.
Qed.

(** X17.  A whole response on an open connection with the scope bound:
    start, any number of body messages with more to come, a last body
    message.  Every body message makes one write, the head and its
    body; after the last the connection is closed and the timers
    cancelled unless [should_keep_alive] holds, and then the keep-
    alive timer is set to KEEP_ALIVE_TIMEOUT. *)
Theorem response_cycle self status hs (bodies : list bytes) (final : bytes) scope :
  closing (transport self) = false ->
  _scope (asgi_response_handler self) = Some scope ->
  let h := set_headers (set_status (set_started (asgi_response_handler self) true)
                                   status) hs in
  let keep := negb (request_count self >=? MAX_KEEP_ALIVE_REQUESTS)
              && keep_alive_scan (scope_headers scope) (scope_http_version scope) in
  let run := send_all self
               (ResponseStart status hs
                :: map more_body_message bodies
                ++ [ResponseBody (Some final) (Some false)]) in
  snd run = Ok tt
  /\ written (transport (fst run))
     = written (transport self)
       ++ map (fun x => response_head h hs ++ x) (bodies ++ [final])
  /\ closing (transport (fst run)) = negb keep
  /\ timeout_handler (fst run)
     = (if keep
        then reset_timeout (timeout_handler self) KEEP_ALIVE KEEP_ALIVE_TIMEOUT
        else cancel_timeout_handle (timeout_handler self) ALL).
Proof.
  intros Hopen Hscope.
  pose proof (@send_all_response self status hs bodies final scope Hopen Hscope) as Hrun.
  cbv zeta in Hrun |- *. rewrite Hrun.
  destruct (negb _ && _); cbn; auto.
Qed.

Lemma response_cycle_witness :
  let self := serving_connection in
  let hs := [(b "content-type", b "text/plain")] in
  let h := set_headers (set_status (set_started (asgi_response_handler self) true)
                                   200) hs in
  let keep := negb (request_count self >=? MAX_KEEP_ALIVE_REQUESTS)
              && keep_alive_scan (scope_headers scope_get)
                                 (scope_http_version scope_get) in
  let run := send_all self
               (ResponseStart 200 hs
                :: map more_body_message [b "Hello, "]
                ++ [ResponseBody (Some (b "World!")) (Some false)]) in
  snd run = Ok tt
  /\ written (transport (fst run))
     = written (transport self)
       ++ map (fun x => response_head h hs ++ x) ([b "Hello, "] ++ [b "World!"])
  /\ closing (transport (fst run)) = negb keep
  /\ timeout_handler (fst run)
     = (if keep
        then reset_timeout (timeout_handler self) KEEP_ALIVE KEEP_ALIVE_TIMEOUT
        else cancel_timeout_handle (timeout_handler self) ALL).
Proof.
  apply (@response_cycle serving_connection 200
           [(b "content-type", b "text/plain")] [b "Hello, "] (b "World!")
           scope_get); reflexivity.
Defined.

Lemma run_app_closed script : forall self,
  closing (transport self) = true ->
  Forall raises_nothing script ->
  run_app script self = (self, Some (Ok tt))
  \/ run_app script self = (self, Some (Raise OSError)).
Proof.
  induction script as [|a script IH]; intros self Hclosed Hscript.
  - left. reflexivity.
  - inversion Hscript as [|? ? Ha Hrest]; subst.
    destruct a as [|m|e]; cbn [run_app].
    + unfold _receive. rewrite Hclosed. now apply IH.
    + unfold _send. rewrite Hclosed. right. reflexivity.
    + contradiction.
Qed.

(** X18.  On a transport that is closing, an application that only
    receives and sends writes nothing and changes no timer: [_receive]
    answers with a disconnect, the OSError of [_send] is dropped by
    [handle_request]. *)
Theorem closed_connection_app_writes_nothing self scope script :
  closing (transport self) = true ->
  Forall raises_nothing script ->
  handle_request self scope (run_app script)
  = (handle_request_begin self scope, Some tt).
Proof.
  intros Hclosed Hscript. unfold handle_request.
  destruct (@run_app_closed script (handle_request_begin self scope) Hclosed Hscript)
    as [-> | ->]; reflexivity.
Qed.

Lemma closed_connection_app_writes_nothing_witness :
  handle_request (connection_lost fresh_connection) scope_get
    (run_app [AppReceive; AppSend (ResponseStart 200 [])])
  = (handle_request_begin (connection_lost fresh_connection) scope_get, Some tt).
Proof.
  apply (@closed_connection_app_writes_nothing (connection_lost fresh_connection)
           scope_get [AppReceive; AppSend (ResponseStart 200 [])]);
    [reflexivity|repeat constructor].
Defined.

(** X19.  An application whose first step sends a body message before
    the start of the response is answered, on an open connection on
    which no response has started, by the 500 response: the timers are
    cancelled and the transport is closed. *)
Theorem body_before_start_gives_500 self scope body more_body rest :
  closing (transport self) = false ->
  _started (asgi_response_handler self) = false ->
  handle_request self scope (run_app (AppSend (ResponseBody body more_body) :: rest))
  = (with_transport (cancel_timers (handle_request_begin self scope) ALL)
       (send_internal_server_error_response (transport self)), Some tt).
Proof.
  intros Hopen Hst. unfold handle_request. cbn [run_app]. unfold _send.
  cbn [handle_request_begin transport with_asgi_response_handler
       asgi_response_handler _started set_scope].
  now rewrite Hopen, Hst.
Qed.

Lemma body_before_start_gives_500_witness :
  handle_request fresh_connection scope_get
    (run_app [AppSend (ResponseBody (Some (b "x")) None)])
  = (with_transport (cancel_timers (handle_request_begin fresh_connection scope_get) ALL)
       (send_internal_server_error_response (transport fresh_connection)), Some tt).
Proof.
  apply (@body_before_start_gives_500 fresh_connection scope_get (Some (b "x"))
                                      None []); reflexivity.
Defined.

Lemma data_received_handler self data :
  asgi_response_handler (fst (data_received self data)) = asgi_response_handler self.
Proof.
  destruct (data_received_cases self data)
    as [[e H]|[[_ H]|[[e H]|[[H _]|[[H _]|[h [r0 [_ [_ [[_ H]|[_ H]]]]]]]]]]];
    rewrite H; reflexivity.
Qed.

(** X20.  The start of a response is never forgotten: on a connection
    that has started a response, after [data_received] and
    [handle_request] for a further request, a body message sent
    without a new start is written with the status and headers of the
    earlier response. *)
Theorem stale_response_head self hs data self' scope body :
  _started (asgi_response_handler self) = true ->
  _headers (asgi_response_handler self) = Some hs ->
  data_received self data = (self', Ok tt) ->
  closing (transport self') = false ->
  _send (handle_request_begin self' scope) (more_body_message body)
  = (with_transport (handle_request_begin self' scope)
       (transport_write (transport self')
          (response_head (asgi_response_handler self) hs ++ body)), Ok tt).
Proof.
  intros Hst Hhs Hd Hopen.
  pose proof (data_received_handler self data) as Hh. rewrite Hd in Hh.
  cbn [fst] in Hh.
  rewrite send_more_body with (hs := hs);
    cbn [handle_request_begin transport with_asgi_response_handler
         asgi_response_handler _started _headers set_scope];
    rewrite ?Hh; auto.
Qed.

Lemma stale_response_head_witness :
  let self' := fst (data_received kept_connection request_get) in
  _send (handle_request_begin self' scope_get) (more_body_message (b "x"))
  = (with_transport (handle_request_begin self' scope_get)
       (transport_write (transport self')
          (response_head (asgi_response_handler kept_connection)
                         [(b "content-type", b "text/plain")] ++ b "x")), Ok tt).
Proof.
  intros self'.
  apply (@stale_response_head kept_connection [(b "content-type", b "text/plain")]
           request_get self' scope_get (b "x")); reflexivity.
Defined.

(** X21.  [connection_lost] writes nothing, leaves the transport
    closing and both timers inactive; afterwards [_receive] answers
    with a disconnect, [_send] raises OSError, and a second
    [connection_lost] changes nothing. *)
Theorem connection_lost_quiesces self :
  let self' := connection_lost self in
  closing (transport self') = true
  /\ written (transport self') = written (transport self)
  /\ active (request_timeout_handle (timeout_handler self')) = false
  /\ active (keepalive_timeout_handle (timeout_handler self')) = false
  /\ _receive self' = Some (Ok HttpDisconnect)
  /\ (forall message, _send self' message = (self', Raise OSError))
  /\ connection_lost self' = self'.
Proof.
  cbv zeta. unfold connection_lost, _receive, _send.
  destruct self as [[w c] srv cl sch buf [rq ka] h n sc].
  destruct c; cbn; rewrite ?cancel_inactive;
    repeat split; try reflexivity.
  all: destruct rq as [[? ?]|]; destruct ka as [[? ?]|]; reflexivity.
Qed.

End Responding.

(** ** The header list *)

Section HeaderEntries.
Import Parser Handlers Protocol Spec Examples.
#[local] Arguments len : simpl never.
#[local] Arguments bytes_find : simpl never.
#[local] Arguments body_required : simpl never.

Section SplitMore.
Context {A : Type} (eqb : A -> A -> bool).

Lemma split_go_skip (sep : list A) mx (pre : list A) : forall cur rest,
  split_go eqb sep mx (length pre) cur (pre ++ rest)
  = split_go eqb sep mx 0 cur rest.
Proof.
  induction pre as [|x pre IH]; intros cur rest; [reflexivity|].
  cbn [length app split_go]. apply IH.
Qed.

(** Without a separator there is nothing to split. *)
Lemma split_max_none (sep l : list A) : forall cur,
  find_first eqb sep l = None ->
  split_go eqb sep (Some 1%nat) 0 cur l = [rev cur ++ l].
Proof.
  induction l as [|x l IH]; intros cur; rewrite find_first_unfold.
  - intros _. cbn. now rewrite app_nil_r.
  - cbn [split_go]. destruct (starts_with eqb sep (x :: l)); [discriminate|].
    destruct (find_first eqb sep l) eqn:F; [discriminate|]. intros _.
    rewrite IH by reflexivity. cbn [rev]. now rewrite <- app_assoc.
Qed.
End SplitMore.

(** The loop over the header lines appends one entry per kept line. *)
Lemma parse_header_lines_entries lines : forall hh acc hh' acc',
  parse_header_lines lines hh acc = Ok (hh', acc') ->
  acc' = acc ++ map header_entry (filter header_line_kept lines).
Proof.
  induction lines as [|line rest IH]; intros hh acc hh' acc';
    cbn [parse_header_lines filter map].
  - intros [= _ <-]. now rewrite app_nil_r.
  - unfold header_line_kept at 1.
    destruct (match line with [] => true | _ => false end || _); cbn [negb].
    + apply IH.
    + destruct (str_split_max line (s ":") 1) as [|name [|value [|x l]]] eqn:E;
        try discriminate.
      intros H. apply IH in H. rewrite H, <- app_assoc. cbn [map app].
      assert (He : header_entry line
                   = (encode_latin1 (str_lower (str_strip name)),
                      encode_latin1 (str_strip value)))
        by (unfold header_entry; cbv zeta; rewrite E; reflexivity).
      now rewrite He.
Qed.

Lemma parse_headers_entries h r :
  parse_headers h = Ok r ->
  headers r
  = map header_entry
        (filter header_line_kept (tl (str_split (decode_latin1 h) scrlf))).
Proof.
  unfold parse_headers. cbv zeta.
  repeat match goal with
         | |- context [if ?c then _ else _] =>
             match c with
             | context [if _ then _ else _] => fail 1
             | _ => destruct c
             end
         end; try discriminate.
  all: destruct (parse_header_lines _ _ _) as [[hh acc]|e'] eqn:E; cbn [bind];
    try discriminate; destruct (negb hh); try discriminate;
    intros [= <-]; cbn [headers];
    apply parse_header_lines_entries in E; exact E.
Qed.

(** X22.  The header list that [parse_headers] returns has one entry
    for every line after the request line that is neither empty nor
    starts with a colon, in the order of the lines, repeated names
    kept. *)
Theorem parsed_headers_keep_order h r :
  parse_headers h = Ok r ->
  headers r
  = map header_entry
        (filter header_line_kept (tl (str_split (decode_latin1 h) scrlf))).
Proof.
  apply parse_headers_entries.
Qed.

Lemma parsed_headers_keep_order_witness :
  headers hello_parsed
  = map header_entry
        (filter header_line_kept (tl (str_split (decode_latin1 hello_head) scrlf))).
Proof.
  apply (@parsed_headers_keep_order hello_head hello_parsed). reflexivity.
Defined.

Lemma parse_header_lines_host lines : forall hh acc hh' acc',
  parse_header_lines lines hh acc = Ok (hh', acc') ->
  (hh = true -> exists v, In (b "host", v) acc) ->
  hh' = true -> exists v, In (b "host", v) acc'.
Proof.
  induction lines as [|line rest IH]; intros hh acc hh' acc';
    cbn [parse_header_lines].
  - intros [= <- <-]. auto.
  - destruct (match line with [] => true | _ => false end || _); [apply IH|].
    destruct (str_split_max line (s ":") 1) as [|name [|value [|x l]]];
      try discriminate.
    intros H Hacc. apply (IH _ _ _ _ H).
    (* the entry just appended *)
    destruct (str_eqb (str_lower (str_strip name)) (s "host")) eqn:E;
      cbn [andb].
    + intros _. apply str_eqb_eq in E. rewrite E.
      exists (encode_latin1 (str_strip value)). apply in_or_app. right.
      left. reflexivity.
    + intros Hh. destruct (Hacc Hh) as [v Hv]. exists v.
      apply in_or_app. now left.
Qed.

Lemma find_first_char_absent (c : ascii) (l : str) :
  ~ In c match find_first Ascii.eqb [c] l with
         | Some k => firstn k l
         | None => l
         end.
Proof.
  induction l as [|x l IH]; rewrite find_first_unfold.
  - cbn. auto.
  - cbn [starts_with]. rewrite andb_true_r.
    destruct (Ascii.eqb c x) eqn:E; [cbn; auto|].
    apply Ascii.eqb_neq in E.
    destruct (find_first Ascii.eqb [c] l) as [k|]; cbn [option_map firstn];
      intros [H|H]; auto; congruence.
Qed.

Lemma last_of_two {A} (l : list A) d :
  length l = 2%nat -> last l d = nth 1 l d.
Proof. destruct l as [|x [|y [|z l]]]; cbn; try discriminate. reflexivity. Qed.

(** X23.  What [parse_headers] accepts: the method is one of the nine
    it knows, the version one of 1.0, 1 and 1.1, the headers hold a
    host entry, and the path holds no question mark. *)
Theorem parse_headers_result h r :
  parse_headers h = Ok r ->
  str_in (method r) methods = true
  /\ str_in (http_version r) versions = true
  /\ (exists v, In (b "host", v) (headers r))
  /\ ~ In "?"%char (path r).
Proof.
  unfold parse_headers. cbv zeta.
  destruct (negb (length _ =? 3)%nat); [discriminate|].
  destruct (negb (str_in _ methods)) eqn:Em; [discriminate|].
  destruct (negb (length _ =? 2)%nat) eqn:E2; [discriminate|].
  destruct (negb (str_in _ versions)) eqn:Ev; [discriminate|].
  apply negb_false_iff in Em, Ev. apply negb_false_iff, Nat.eqb_eq in E2.
  match goal with
  | |- (let '(_, _) := ?x in _) = _ -> _ => destruct x as [rp q]
  end.
  destruct (parse_header_lines _ _ _) as [[hh acc]|e'] eqn:E; cbn [bind];
    [|discriminate].
  destruct hh; cbn [negb]; [|discriminate].
  intros [= <-]. cbn [method http_version headers path].
  split; [exact Em|]. split; [rewrite last_of_two by exact E2; exact Ev|].
  split.
  - apply (@parse_header_lines_host _ _ _ _ _ E); [discriminate|reflexivity].
  - unfold str_split, py_split, str.
    rewrite (split_go_first Ascii.eqb). cbn [rev app].
    apply (find_first_char_absent "?"%char).
Qed.

Lemma parse_headers_result_witness :
  str_in (method hello_parsed) methods = true
  /\ str_in (http_version hello_parsed) versions = true
  /\ (exists v, In (b "host", v) (headers hello_parsed))
  /\ ~ In "?"%char (path hello_parsed).
Proof.
  apply (@parse_headers_result hello_head hello_parsed). reflexivity.
Defined.

Lemma lower_char_is_lower c :
  bytes_lower_char (byte_of_ascii (str_lower_char c))
  = byte_of_ascii (str_lower_char c).
Proof.
  destruct c as [[] [] [] [] [] [] [] []]; vm_compute; reflexivity.
Qed.

Lemma lower_is_lower (x : str) :
  bytes_lower (encode_latin1 (str_lower x)) = encode_latin1 (str_lower x).
Proof.
  unfold bytes_lower, encode_latin1, str_lower. rewrite !map_map.
  apply map_ext. intros c. apply lower_char_is_lower.
Qed.

Lemma decode_encode_latin1 (x : str) : decode_latin1 (encode_latin1 x) = x.
Proof.
  unfold decode_latin1, encode_latin1. rewrite map_map.
  rewrite <- (map_id x) at 2. apply map_ext. intros c.
  apply ascii_of_byte_of_ascii.
Qed.

Section Strip.
Context {A : Type} (p : A -> bool).

Lemma drop_while_fixed (l : list A) :
  match l with [] => True | x :: _ => p x = false end ->
  drop_while p l = l.
Proof. destruct l as [|x l]; cbn; [reflexivity|]. now intros ->. Qed.

Lemma drop_while_head (l : list A) :
  match drop_while p l with [] => True | x :: _ => p x = false end.
Proof.
  induction l as [|x l IH]; cbn; [exact I|].
  destruct (p x) eqn:E; [exact IH|exact E].
Qed.

Lemma drop_while_suffix (l : list A) :
  exists pre, l = pre ++ drop_while p l.
Proof.
  induction l as [|x l [pre IH]]; cbn.
  - now exists [].
  - destruct (p x); [exists (x :: pre); cbn; now rewrite <- IH|now exists []].
Qed.

Lemma strip_with_fixed (l : list A) :
  strip_with p (strip_with p l) = strip_with p l.
Proof.
  unfold strip_with. set (w := drop_while p l).
  set (z := drop_while p (rev w)).
  assert (Hz : drop_while p z = z)
    by (apply drop_while_fixed, drop_while_head).
  assert (Hrz : drop_while p (rev z) = rev z).
  { apply drop_while_fixed.
    destruct (drop_while_suffix (rev w)) as [pre Hpre]. fold z in Hpre.
    apply (f_equal (@rev A)) in Hpre. rewrite rev_involutive, rev_app_distr in Hpre.
    pose proof (drop_while_head l) as Hw. fold w in Hw.
    destruct (rev z) as [|a t]; [exact I|].
    rewrite Hpre in Hw. exact Hw. }
  now rewrite Hrz, rev_involutive, Hz.
Qed.
End Strip.

(** X24.  In the header list that [parse_headers] returns every name
    is in lower case ([bytes.lower] leaves it as it is) and every
    value is stripped ([strip] leaves it as it is). *)
Theorem parsed_headers_are_normal h r name value :
  parse_headers h = Ok r ->
  In (name, value) (headers r) ->
  bytes_lower name = name
  /\ str_strip (decode_latin1 value) = decode_latin1 value.
Proof.
  intros Hp Hin. rewrite (parse_headers_entries _ Hp) in Hin.
  apply in_map_iff in Hin. destruct Hin as [line [He _]].
  unfold header_entry in He. cbv zeta in He. injection He as <- <-.
  split; [apply lower_is_lower|].
  rewrite decode_encode_latin1. apply strip_with_fixed.
Qed.

Lemma parsed_headers_are_normal_witness :
  bytes_lower (b "host") = b "host"
  /\ str_strip (decode_latin1 (b "h")) = decode_latin1 (b "h").
Proof.
  apply (@parsed_headers_are_normal hello_head hello_parsed (b "host") (b "h"));
    [reflexivity|left; reflexivity].
Defined.

Lemma parse_header_lines_colon lines : forall hh acc r,
  parse_header_lines lines hh acc = Ok r ->
  Forall (fun line => header_line_kept line = true ->
                      find_first Ascii.eqb (s ":") line <> None) lines.
Proof.
  induction lines as [|line rest IH]; intros hh acc r;
    cbn [parse_header_lines]; [constructor|].
  destruct (match line with [] => true | _ => false end || _) eqn:Ec.
  - intros H. constructor; [|eapply IH; exact H].
    unfold header_line_kept. rewrite Ec. discriminate.
  - destruct (find_first Ascii.eqb (s ":") line) as [k|] eqn:F.
    + destruct (str_split_max line (s ":") 1) as [|name [|value [|x l]]];
        try discriminate.
      intros H. constructor; [|eapply IH; exact H].
      intros _. rewrite F. discriminate.
    + unfold str_split_max, py_split_max.
      rewrite (split_max_none Ascii.eqb (s ":") line [] F). discriminate.
Qed.

(** X25.  In a header block that [parse_headers] accepts, every line
    after the request line that is neither empty nor starts with a
    colon holds a colon. *)
Theorem accepted_header_lines_have_colon h r line :
  parse_headers h = Ok r ->
  In line (tl (str_split (decode_latin1 h) scrlf)) ->
  line <> [] ->
  str_startswith line (s ":") = false ->
  In ":"%char line.
Proof.
  intros Hp Hin Hne Hcolon.
  assert (Hall : Forall (fun line => header_line_kept line = true ->
                                     find_first Ascii.eqb (s ":") line <> None)
                        (tl (str_split (decode_latin1 h) scrlf))).
  { unfold parse_headers in Hp. cbv zeta in Hp.
    repeat match type of Hp with
           | (if ?c then _ else _) = _ => destruct c; [discriminate Hp|]
           end.
    match type of Hp with
    | (let '(_, _) := ?x in _) = _ => destruct x as [rp q]
    end.
    destruct (parse_header_lines _ _ _) as [res|e'] eqn:E; [|discriminate].
    eapply parse_header_lines_colon. exact E. }
  rewrite Forall_forall in Hall. specialize (Hall line Hin).
  assert (Hkept : header_line_kept line = true).
  { unfold header_line_kept. rewrite Hcolon. now destruct line. }
  specialize (Hall Hkept).
  destruct (find_first Ascii.eqb (s ":") line) as [k|] eqn:F; [|contradiction].
  apply find_first_starts in F. apply str_starts_with_split in F.
  destruct F as [t Ht]. rewrite <- (firstn_skipn k line), Ht.
  apply in_or_app. right. left. reflexivity.
Qed.

Lemma accepted_header_lines_have_colon_witness :
  In ":"%char (s "Host: h").
Proof.
  apply (@accepted_header_lines_have_colon hello_head hello_parsed (s "Host: h"));
    [reflexivity|left; reflexivity|discriminate|reflexivity].
Defined.

End HeaderEntries.

(** ** One request, one task *)

Section OneRequest.
Import Parser Handlers Protocol Spec Examples.
#[local] Arguments len : simpl never.
#[local] Arguments bytes_find : simpl never.
#[local] Arguments body_required : simpl never.

Lemma data_received_waiting self data buf ok :
  feed_data (Protocol.buffer self) data = (buf, Ok ok) ->
  state buf = RECEIVING_HEADERS \/ state buf = RECEIVING_BODY ->
  data_received self data = (with_buffer (armed self) buf, Ok tt).
Proof.
  intros Hfeed Hst. unfold data_received. cbv zeta.
  cbn [Protocol.buffer with_timeout_handler]. rewrite Hfeed.
  destruct Hst as [-> | ->]; reflexivity.
Qed.

Lemma data_received_complete self data buf ok h r :
  feed_data (Protocol.buffer self) data = (buf, Ok ok) ->
  state buf = COMPLETE ->
  get_request_headers buf = Ok h ->
  parse_headers h = Ok r ->
  data_received self data
  = (cancel_timers
       (with_buffer
          (with_request_count
             (create_task (with_buffer (armed self) buf) (scope_of self r))
             (request_count self + 1))
          Parser.init)
       REQUEST, Ok tt).
Proof.
  intros Hfeed Hst Hh Hp. unfold data_received. cbv zeta.
  cbn [Protocol.buffer with_timeout_handler]. rewrite Hfeed, Hst, Hh.
  cbn [bind]. rewrite Hp. reflexivity.
Qed.

Lemma concat_nil_inv {A} (pieces : list (list A)) :
  concat pieces = [] -> Forall (fun d => d = []) pieces.
Proof.
  induction pieces as [|d ps IH]; cbn [concat]; intros H; constructor.
  - now destruct d.
  - apply IH. destruct d; [exact H|discriminate].
Qed.

(** Empty pieces on a connection that waits for a request. *)
Lemma receive_all_idle pieces : forall self,
  Protocol.buffer self = Parser.init ->
  Forall (fun d => d = []) pieces ->
  snd (receive_all self pieces) = Ok tt
  /\ scheduled (fst (receive_all self pieces)) = scheduled self
  /\ request_count (fst (receive_all self pieces)) = request_count self
  /\ transport (fst (receive_all self pieces)) = transport self
  /\ Protocol.buffer (fst (receive_all self pieces)) = Parser.init.
Proof.
  induction pieces as [|d ps IH]; intros self Hbuf Hall; cbn [receive_all].
  - auto.
  - inversion Hall as [|? ? Hd Hps]; subst.
    rewrite (@data_received_waiting self [] Parser.init false);
      [|rewrite Hbuf; reflexivity|left; reflexivity].
    destruct (IH (with_buffer (armed self) Parser.init) eq_refl Hps)
      as [H1 [H2 [H3 [H4 H5]]]].
    auto.
Qed.

Section OneTask.
Variables (head body payload : bytes) (cl : option Z) (r : ParsedHeaders).
Hypothesis Hlegal : legal_parts head body payload false cl.
Hypothesis Hparse : parse_headers (head ++ crlfcrlf) = Ok r.

Lemma expected_state_unchunked n :
  n <= len (head ++ crlfcrlf ++ body) ->
  (n = len (head ++ crlfcrlf ++ body)
   /\ expected_state head body false cl n = COMPLETE)
  \/ (n < len (head ++ crlfcrlf ++ body)
      /\ (expected_state head body false cl n = RECEIVING_HEADERS
          \/ expected_state head body false cl n = RECEIVING_BODY)).
Proof.
  pose proof Hlegal as Hl. destruct Hl as [_ [_ [_ [_ [Hshape _]]]]].
  rewrite !len_app. change (len crlfcrlf) with 4.
  pose proof (len_nonneg head). pose proof (len_nonneg body).
  unfold expected_state. intros Hn.
  destruct (n <? len head + 4) eqn:E; bool_to_Z; [right; split; [lia|auto]|].
  destruct cl as [L|].
  - subst L. destruct (len body =? 0) eqn:E0; bool_to_Z; cbn [orb].
    + left. split; [lia|reflexivity].
    + destruct (len head + 4 + len body <=? n) eqn:E1; bool_to_Z.
      * left. split; [lia|reflexivity].
      * right. split; [lia|auto].
  - subst body. change (len (@nil byte)) with 0 in *. left. split; [lia|reflexivity].
Qed.

Lemma receive_all_tracks pieces : forall self p,
  tracks head body false cl (Protocol.buffer self) p ->
  len p < len (head ++ crlfcrlf ++ body) ->
  p ++ concat pieces = head ++ crlfcrlf ++ body ->
  snd (receive_all self pieces) = Ok tt
  /\ scheduled (fst (receive_all self pieces))
     = scheduled self ++ [scope_of self r]
  /\ request_count (fst (receive_all self pieces)) = request_count self + 1
  /\ transport (fst (receive_all self pieces)) = transport self
  /\ Protocol.buffer (fst (receive_all self pieces)) = Parser.init.
Proof.
  induction pieces as [|d ps IH]; intros self p Htr Hlen Hcut;
    cbn [receive_all concat] in *.
  - rewrite app_nil_r in Hcut. subst p. lia.
  - rewrite app_assoc in Hcut.
    destruct (@feed_data_tracks head body payload false cl Hlegal
                (Protocol.buffer self) p d (concat ps) Htr Hcut)
      as [buf [ok [Hfeed Htr']]].
    pose proof Htr' as [_ [Hst _]].
    assert (Hle : len (p ++ d) <= len (head ++ crlfcrlf ++ body))
      by (rewrite <- Hcut, (len_app (p ++ d)); pose proof (len_nonneg (concat ps)); lia).
    destruct (expected_state_unchunked Hle) as [[Hwhole Hexp]|[Hshort Hexp]];
      rewrite <- Hst in Hexp.
    + (* the piece completes the request *)
      assert (Hrest : concat ps = []).
      { apply len_nil_inv. rewrite <- Hcut, (len_app (p ++ d)) in Hwhole. lia. }
      rewrite Hrest, app_nil_r in Hcut. rewrite Hcut in Htr'.
      destruct (@tracks_whole head body payload false cl Hlegal buf Htr')
        as [_ [Hh _]].
      rewrite (@data_received_complete self d buf ok _ r Hfeed Hexp Hh Hparse).
      destruct (@receive_all_idle ps
                  (cancel_timers
                     (with_buffer
                        (with_request_count
                           (create_task (with_buffer (armed self) buf)
                                        (scope_of self r))
                           (request_count self + 1))
                        Parser.init) REQUEST)
                  eq_refl (concat_nil_inv _ Hrest))
        as [H1 [H2 [H3 [H4 H5]]]].
      rewrite H1, H2, H3, H4, H5. auto.
    + (* the request is still incomplete *)
      rewrite (@data_received_waiting self d buf ok Hfeed Hexp).
      destruct (IH (with_buffer (armed self) buf) (p ++ d) Htr' Hshort Hcut)
        as [H1 [H2 [H3 [H4 H5]]]].
      rewrite H1, H2, H3, H4, H5. auto.
Qed.
End OneTask.

(** X26.  A legal request that is not chunked and whose header block
    [parse_headers] accepts, received by a new connection in pieces
    cut anywhere: no call raises, nothing is written, the application
    is scheduled once, with the scope of the header block, the request
    is counted and the buffer is fresh again. *)
Theorem legal_request_starts_one_task req payload pieces h r t server client ssl :
  legal_request req payload ->
  get_request_headers (fst (feed_data init req)) = Ok h ->
  state (fst (feed_data init req)) = COMPLETE ->
  parse_headers h = Ok r ->
  concat pieces = req ->
  let self := connection_made t server client ssl in
  let self' := fst (receive_all self pieces) in
  snd (receive_all self pieces) = Ok tt
  /\ scheduled self' = [scope_of self r]
  /\ request_count self' = 1
  /\ transport self' = t
  /\ Protocol.buffer self' = Parser.init.
Proof.
  intros Hlegal Hh Hst Hparse Hpieces. cbv zeta.
  destruct (legal_request_parts Hlegal) as [head [body [chunked [cl [Hr Hparts]]]]].
  destruct (@feed_data_tracks head body payload chunked cl Hparts init [] req []
              (tracks_init head body chunked cl))
    as [w [ok [Hw Htw]]]; [cbn [app]; rewrite app_nil_r; exact Hr|].
  rewrite Hw in Hh, Hst. cbn [fst app] in Hh, Hst, Htw. rewrite Hr in Htw.
  destruct (@tracks_whole head body payload chunked cl Hparts w Htw)
    as [Hst' [Hh' _]].
  destruct chunked; [congruence|].
  assert (h = head ++ crlfcrlf) by congruence. subst h.
  apply (@receive_all_tracks head body payload cl r Hparts Hparse pieces
           (connection_made t server client ssl) []).
  - apply tracks_init.
  - change (len (@nil byte)) with 0. rewrite !len_app. change (len crlfcrlf) with 4.
    pose proof (len_nonneg head). pose proof (len_nonneg body). lia.
  - cbn [app]. congruence.
Qed.

Lemma hello_is_legal : legal_request request_hello (b "Hello, World").
Proof.
  apply (@legal_content_length
           (b "POST /s HTTP/1.1" ++ crlf ++ b "Host: h" ++ crlf
            ++ b "Content-Length: 12")
           (s "POST") (b "Hello, World")); reflexivity.
Defined.

Lemma legal_request_starts_one_task_witness :
  let self := connection_made (mkTransport [] false) None None false in
  let self' := fst (receive_all self hello_pieces) in
  snd (receive_all self hello_pieces) = Ok tt
  /\ scheduled self' = [scope_of self hello_parsed]
  /\ request_count self' = 1
  /\ transport self' = mkTransport [] false
  /\ Protocol.buffer self' = Parser.init.
Proof.
  apply (@legal_request_starts_one_task request_hello (b "Hello, World")
           hello_pieces hello_head hello_parsed (mkTransport [] false) None None
           false hello_is_legal); reflexivity.
Defined.

End OneRequest.

(** ** Header lines and the parts of a request *)

Section HeaderLines.
Import Parser Handlers Protocol Spec Examples.
#[local] Arguments len : simpl never.
#[local] Arguments bytes_find : simpl never.
#[local] Arguments body_required : simpl never.

Section SplitJoin.
Context {A : Type} (eqb : A -> A -> bool).

(** Splitting what starts with a part that holds no separator. *)
Lemma split_go_cons (sep x y : list A) : forall cur,
  sep <> [] ->
  find_first eqb sep (x ++ sep ++ y) = Some (length x) ->
  split_go eqb sep None 0 cur (x ++ sep ++ y)
  = (rev cur ++ x) :: split_go eqb sep None 0 [] y.
Proof.
  intros cur Hsep. revert cur.
  induction x as [|c x IH]; intros cur; rewrite find_first_unfold; cbn [app length].
  - destruct (starts_with eqb sep (sep ++ y)) eqn:E.
    2:{ destruct (sep ++ y); [discriminate|].
        destruct (find_first eqb sep l); discriminate. }
    intros _. destruct sep as [|a sep]; [contradiction|].
    cbn [app split_go] in *. rewrite E. cbn [option_map length Nat.pred].
    rewrite split_go_skip, app_nil_r. reflexivity.
  - destruct (starts_with eqb sep (c :: x ++ sep ++ y)) eqn:E; [discriminate|].
    destruct (find_first eqb sep (x ++ sep ++ y)) as [k|] eqn:F; [|discriminate].
    intros [= ->]. cbn [split_go]. rewrite E, IH by reflexivity.
    cbn [rev]. now rewrite <- app_assoc.
Qed.
End SplitJoin.

Lemma crlf_free_none line : crlf_free line -> find_first Ascii.eqb scrlf line = None.
Proof.
  intros H. apply (find_first_app_inv Ascii.eqb scrlf line scrlf) in H.
  cbn [length scrlf] in H.
  destruct (Nat.leb_spec (length line + 2) (length line)); [lia|exact H].
Qed.

Lemma crlf_free_first line rest :
  crlf_free line ->
  find_first Ascii.eqb scrlf (line ++ scrlf ++ rest) = Some (length line).
Proof.
  intros H. rewrite app_assoc. now apply find_first_app.
Qed.

Lemma join_cons sep (x y : str) rest :
  join sep (x :: y :: rest) = x ++ sep ++ join sep (y :: rest).
Proof. reflexivity. Qed.

(** The lines of a header text up to a given one, as [split] returns
    them. *)
Lemma split_join_lines pre : forall line post,
  Forall crlf_free (pre ++ [line]) ->
  exists tail,
    str_split (join scrlf (pre ++ line :: post)) scrlf = pre ++ line :: tail.
Proof.
  unfold str_split, py_split.
  induction pre as [|x pre IH]; intros line post Hfree; cbn [app] in *.
  - inversion Hfree as [|? ? Hline _]; subst. destruct post as [|y post].
    + exists []. cbn [join].
      rewrite (split_go_none Ascii.eqb scrlf line [] (crlf_free_none Hline)).
      reflexivity.
    + rewrite join_cons.
      rewrite (@split_go_cons _ Ascii.eqb scrlf line (join scrlf (y :: post)) []);
        [|discriminate|now apply crlf_free_first].
      eexists. reflexivity.
  - inversion Hfree as [|? ? Hx Hrest]; subst.
    destruct (IH line post Hrest) as [tail Ht].
    assert (Hj : join scrlf (x :: pre ++ line :: post)
                 = x ++ scrlf ++ join scrlf (pre ++ line :: post))
      by (destruct pre; reflexivity).
    rewrite Hj.
    rewrite (@split_go_cons _ Ascii.eqb scrlf x (join scrlf (pre ++ line :: post)) []);
      [|discriminate|now apply crlf_free_first].
    rewrite Ht. exists tail. reflexivity.
Qed.

Lemma get_content_length_lines_first pre : forall line tail,
  Forall (fun l => is_content_length l = false) pre ->
  is_content_length line = true ->
  get_content_length_lines (pre ++ line :: tail)
  = (n <- int_of_str (str_strip (nth 1 (str_split_max line (s ":") 1) [])) ;;
     Ok (Some n)).
Proof.
  unfold is_content_length.
  induction pre as [|x pre IH]; intros line tail Hpre Hline;
    cbn [app get_content_length_lines].
  - now rewrite Hline.
  - inversion Hpre as [|? ? Hx Hrest]; subst. rewrite Hx. now apply IH.
Qed.

(** X27.  The first line that starts with content-length, whatever its
    case, decides what [_get_content_length] returns: the lines after
    it, other Content-Length lines among them, are not read. *)
Theorem first_content_length_decides pre line post :
  Forall crlf_free (pre ++ [line]) ->
  Forall (fun l => is_content_length l = false) pre ->
  is_content_length line = true ->
  _get_content_length (join scrlf (pre ++ line :: post))
  = (n <- int_of_str (str_strip (nth 1 (str_split_max line (s ":") 1) [])) ;;
     Ok (Some n)).
Proof.
  intros Hfree Hpre Hline. unfold _get_content_length.
  destruct (@split_join_lines pre line post Hfree) as [tail ->].
  now apply get_content_length_lines_first.
Qed.

Lemma first_content_length_decides_witness :
  _get_content_length
    (join scrlf ([s "POST /s HTTP/1.1"; s "Host: h"]
                 ++ s "Content-Length: 5" :: [s "Content-Length: 7"; []; []]))
  = (n <- int_of_str
            (str_strip (nth 1 (str_split_max (s "Content-Length: 5") (s ":") 1) [])) ;;
     Ok (Some n)).
Proof.
  apply (@first_content_length_decides [s "POST /s HTTP/1.1"; s "Host: h"]
           (s "Content-Length: 5") [s "Content-Length: 7"; []; []]);
    [repeat constructor|repeat constructor|reflexivity].
Defined.

Lemma get_is_chunked_lines_first pre : forall line tail,
  Forall (fun l => is_transfer_encoding l = false) pre ->
  is_transfer_encoding line = true ->
  get_is_chunked_lines (pre ++ line :: tail)
  = str_eqb (str_strip (nth 1 (str_split_max line (s ":") 1) [])) (s "chunked").
Proof.
  unfold is_transfer_encoding.
  induction pre as [|x pre IH]; intros line tail Hpre Hline;
    cbn [app get_is_chunked_lines].
  - now rewrite Hline.
  - inversion Hpre as [|? ? Hx Hrest]; subst. rewrite Hx. now apply IH.
Qed.

(** X28.  The first line that starts with transfer-encoding, whatever
    its case, decides what [_get_is_chunked] returns: the request is
    chunked exactly when what follows the first colon of that line is,
    stripped, the word chunked in lower case; the lines after it are
    not read. *)
Theorem first_transfer_encoding_decides pre line post :
  Forall crlf_free (pre ++ [line]) ->
  Forall (fun l => is_transfer_encoding l = false) pre ->
  is_transfer_encoding line = true ->
  _get_is_chunked (join scrlf (pre ++ line :: post))
  = str_eqb (str_strip (nth 1 (str_split_max line (s ":") 1) [])) (s "chunked").
Proof.
  intros Hfree Hpre Hline. unfold _get_is_chunked.
  destruct (@split_join_lines pre line post Hfree) as [tail ->].
  now apply get_is_chunked_lines_first.
Qed.

Lemma first_transfer_encoding_decides_witness :
  _get_is_chunked
    (join scrlf ([s "POST /u HTTP/1.1"; s "Host: h"]
                 ++ s "Transfer-Encoding: Chunked"
                 :: [s "Transfer-Encoding: chunked"; []; []]))
  = str_eqb (str_strip (nth 1 (str_split_max (s "Transfer-Encoding: Chunked")
                                             (s ":") 1) []))
            (s "chunked").
Proof.
  apply (@first_transfer_encoding_decides [s "POST /u HTTP/1.1"; s "Host: h"]
           (s "Transfer-Encoding: Chunked")
           [s "Transfer-Encoding: chunked"; []; []]);
    [repeat constructor|repeat constructor|reflexivity].
Defined.

(** X29.  For a legal request fed to a fresh parser in pieces cut
    anywhere, [get_request_data] returns the header block and the
    body; for a request that is not chunked the two, put together, are
    the bytes that were fed. *)
Theorem get_request_data_round_trip req payload pieces :
  legal_request req payload ->
  concat pieces = req ->
  exists h,
    get_request_data (fst (feed_all init pieces)) = Some (Ok (h, payload))
    /\ (state (fst (feed_all init pieces)) = COMPLETE -> h ++ payload = req).
Proof.
  intros Hlegal Hpieces.
  destruct (legal_request_parts Hlegal) as [head [body [chunked [cl [Hr Hparts]]]]].
  destruct (@feed_all_tracks head body payload chunked cl Hparts pieces init [] []
              (tracks_init head body chunked cl))
    as [sp [Hsp Htsp]];
    [cbn [app]; rewrite app_nil_r, Hpieces; exact Hr|].
  cbn [app] in Htsp. rewrite Hpieces, Hr in Htsp.
  destruct (@tracks_whole head body payload chunked cl Hparts sp Htsp)
    as [Hst [Hh Hb]].
  rewrite Hsp. cbn [fst]. exists (head ++ crlfcrlf).
  unfold get_request_data. rewrite Hh, Hb. split; [reflexivity|].
  rewrite Hst. destruct chunked; [discriminate|]. intros _.
  destruct Hparts as [_ [_ [_ [_ [_ ->]]]]]. rewrite Hr, <- app_assoc. reflexivity.
Qed.

Lemma get_request_data_round_trip_witness :
  exists h,
    get_request_data (fst (feed_all init hello_pieces))
    = Some (Ok (h, b "Hello, World"))
    /\ (state (fst (feed_all init hello_pieces)) = COMPLETE ->
        h ++ b "Hello, World" = request_hello).
Proof.
  apply (@get_request_data_round_trip request_hello (b "Hello, World") hello_pieces
           hello_is_legal). reflexivity.
Defined.

End HeaderLines.

(** ** Path and query *)

Section RequestTarget.
Import Parser Handlers Protocol Spec Examples.
#[local] Arguments len : simpl never.
#[local] Arguments bytes_find : simpl never.
#[local] Arguments body_required : simpl never.

Lemma find_first_byte_here c (x y : bytes) :
  ~ In c x -> find_first Byte.eqb [c] (x ++ c :: y) = Some (length x).
Proof.
  induction x as [|a x IH]; intros Hx; rewrite find_first_unfold;
    cbn [app starts_with length].
  - now rewrite byte_eqb_refl.
  - destruct (Byte.eqb c a) eqn:E.
    + apply byte_eqb_eq in E. subst a. exfalso. apply Hx. now left.
    + cbn [andb]. rewrite IH; [reflexivity|]. intros H. apply Hx. now right.
Qed.

Lemma find_first_byte_none c (x : bytes) :
  ~ In c x -> find_first Byte.eqb [c] x = None.
Proof.
  induction x as [|a x IH]; intros Hx; rewrite find_first_unfold;
    cbn [starts_with].
  - reflexivity.
  - destruct (Byte.eqb c a) eqn:E.
    + apply byte_eqb_eq in E. subst a. exfalso. apply Hx. now left.
    + cbn [andb]. rewrite IH; [reflexivity|]. intros H. apply Hx. now right.
Qed.

Lemma bytes_find_from (x y sub : bytes) :
  bytes_find (x ++ y) sub (len x)
  = match find_first Byte.eqb sub y with
    | Some k => len x + Z.of_nat k
    | None => -1
    end.
Proof.
  unfold bytes_find, py_find. pose proof (len_nonneg x). pose proof (len_nonneg y).
  rewrite len_app.
  replace (Z.min (Z.max (len x) 0) (len x + len y)) with (len x) by lia.
  unfold len at 1. rewrite Nat2Z.id, skipn_app, Nat.sub_diag, skipn_all.
  reflexivity.
Qed.

Lemma decode_app x y : decode_latin1 (x ++ y) = decode_latin1 x ++ decode_latin1 y.
Proof. apply map_app. Qed.

Lemma decode_length x : length (decode_latin1 x) = length x.
Proof. apply length_map. Qed.

Lemma str_find_byte_here c (x : bytes) (y : str) :
  ~ In c x ->
  find_first Ascii.eqb [ascii_of_byte c] (decode_latin1 x ++ [ascii_of_byte c] ++ y)
  = Some (length (decode_latin1 x)).
Proof.
  induction x as [|a x IH]; intros Hx; rewrite find_first_unfold;
    cbn [decode_latin1 map app starts_with length].
  - now rewrite Ascii.eqb_refl.
  - rewrite ascii_eqb_decode. destruct (Byte.eqb c a) eqn:E.
    + apply byte_eqb_eq in E. subst a. exfalso. apply Hx. now left.
    + cbn [andb]. fold (decode_latin1 x).
      change (ascii_of_byte c :: y) with ([ascii_of_byte c] ++ y).
      rewrite IH; [reflexivity|]. intros H. apply Hx. now right.
Qed.

Lemma target_no_space m p q v :
  target_ok m p q v -> ~ In SP (request_target p q).
Proof.
  intros [_ [Hps [_ Hq]]]. unfold request_target.
  destruct q as [q0|]; [|exact Hps].
  intros H. apply in_app_or in H. destruct H as [H|[H|H]]; auto. discriminate.
Qed.

(** The path of the scope. *)
Lemma target_path m p q v :
  target_ok m p q v ->
  nth 0 (str_split (decode_latin1 (request_target p q)) (s "?")) []
  = decode_latin1 p.
Proof.
  intros [_ [_ [Hpq _]]].
  unfold str_split, py_split, str. rewrite (split_go_first Ascii.eqb). cbn [rev app].
  change (s "?") with (decode_latin1 [QM]). rewrite find_first_decode.
  unfold request_target. destruct q as [q0|].
  - rewrite (@find_first_byte_here QM p q0 Hpq), decode_app.
    rewrite <- decode_length, firstn_app, Nat.sub_diag, firstn_all.
    cbn [firstn]. apply app_nil_r.
  - now rewrite (@find_first_byte_none QM p Hpq).
Qed.

(** The raw path and the query string of the scope. *)
Lemma target_raw m p q v :
  target_ok m p q v ->
  let first_line_bytes := request_line m p q v in
  let raw_path_start := bytes_find first_line_bytes (b " ") 0 + 1 in
  let raw_query_start := bytes_find first_line_bytes (b "?") raw_path_start in
  (if raw_query_start =? -1 then
     (slice first_line_bytes raw_path_start
            (bytes_find first_line_bytes (b " ") raw_path_start),
      [])
   else
     (slice first_line_bytes raw_path_start raw_query_start,
      slice first_line_bytes (raw_query_start + 1)
            (bytes_find first_line_bytes (b " ") raw_query_start)))
  = (p, match q with Some q => q | None => [] end).
Proof.
  intros [Hm [Hps [Hpq Hq]]]. cbv zeta.
  change (b " ") with [SP]. change (b "?") with [QM].
  pose proof (len_nonneg m). pose proof (len_nonneg p).
  assert (Hstart : bytes_find (request_line m p q v) [SP] 0 + 1 = len (m ++ [SP])).
  { unfold bytes_find. rewrite py_find_0. unfold request_line.
    rewrite (@find_first_byte_here SP m _ Hm), len_app. reflexivity. }
  rewrite Hstart.
  assert (Hline : request_line m p q v
                  = (m ++ [SP]) ++ request_target p q ++ SP :: v)
    by (unfold request_line; rewrite <- app_assoc; reflexivity).
  assert (Hfq : bytes_find (request_line m p q v) [QM] (len (m ++ [SP]))
                = match find_first Byte.eqb [QM] (request_target p q ++ SP :: v) with
                  | Some k => len (m ++ [SP]) + Z.of_nat k
                  | None => -1
                  end)
    by (rewrite Hline; apply bytes_find_from).
  assert (Hfs : bytes_find (request_line m p q v) [SP] (len (m ++ [SP]))
                = match find_first Byte.eqb [SP] (request_target p q ++ SP :: v) with
                  | Some k => len (m ++ [SP]) + Z.of_nat k
                  | None => -1
                  end)
    by (rewrite Hline; apply bytes_find_from).
  rewrite Hfq, Hfs. clear Hfq Hfs.
  unfold request_target in *. destruct q as [q0|].
  - rewrite <- app_assoc. cbn [app].
    rewrite (@find_first_byte_here QM p _ Hpq).
    destruct (len (m ++ [SP]) + Z.of_nat (length p) =? -1) eqn:E; bool_to_Z;
      [rewrite len_app in E; pose proof (len_nonneg [SP]); lia|].
    f_equal.
    + replace (request_line m p (Some q0) v)
        with ((m ++ [SP]) ++ p ++ (QM :: q0 ++ SP :: v))
        by (rewrite Hline, <- (app_assoc p); reflexivity).
      apply slice_app_mid. reflexivity.
    + replace (len (m ++ [SP]) + Z.of_nat (length p)) with (len (m ++ [SP] ++ p))
        by (rewrite !len_app; unfold len; lia).
      assert (Hcut : request_line m p (Some q0) v
                     = (m ++ [SP] ++ p) ++ (QM :: q0 ++ SP :: v))
        by (unfold request_line, request_target; rewrite <- !app_assoc; reflexivity).
      assert (Hf2 : bytes_find (request_line m p (Some q0) v) [SP] (len (m ++ [SP] ++ p))
                    = len (m ++ [SP] ++ p) + Z.of_nat (S (length q0))).
      { rewrite Hcut, bytes_find_from. rewrite find_first_unfold. cbn [starts_with].
        change (Byte.eqb SP QM) with false. cbn [andb option_map].
        now rewrite (@find_first_byte_here SP q0 v Hq). }
      rewrite Hf2.
      replace (request_line m p (Some q0) v)
        with ((m ++ [SP] ++ p ++ [QM]) ++ q0 ++ SP :: v)
        by (unfold request_line, request_target; rewrite <- !app_assoc; reflexivity).
      replace (len (m ++ [SP] ++ p) + 1) with (len (m ++ [SP] ++ p ++ [QM]))
        by (rewrite !len_app; change (len [QM]) with 1; lia).
      apply slice_app_mid. rewrite !len_app. change (len [QM]) with 1.
      unfold len. lia.
  - assert (Hnone : find_first Byte.eqb [QM] (p ++ SP :: v) = None).
    { apply find_first_byte_none. intros H'. apply in_app_or in H'.
      destruct H' as [H'|[H'|H']]; auto. discriminate. }
    rewrite Hnone. change (-1 =? -1) with true. cbv iota.
    rewrite (@find_first_byte_here SP p v Hps).
    f_equal. rewrite Hline. apply slice_app_mid. reflexivity.
Qed.

(** X30.  For a header block that [parse_headers] accepts and whose
    request line is a method, a blank, a path, a question mark and a
    query if there is one, a blank and the protocol, the scope has
    that path as [path] and [raw_path] and that query, or the empty
    byte string, as [query_string]. *)
Theorem request_target_split h r m p q v more :
  parse_headers h = Ok r ->
  h = request_line m p q v ++ crlf ++ more ->
  bytes_find (request_line m p q v ++ crlf) crlf 0 = len (request_line m p q v) ->
  target_ok m p q v ->
  path r = decode_latin1 p
  /\ raw_path r = p
  /\ query_string r = match q with Some q => q | None => [] end.
Proof.
  intros Hparse Hh Hline Hok.
  set (line := request_line m p q v) in *.
  assert (Hfind : find_first Byte.eqb crlf h = Some (length line)).
  { unfold bytes_find in Hline. rewrite py_find_0 in Hline.
    rewrite Hh, app_assoc. apply find_first_app.
    destruct (find_first Byte.eqb crlf (line ++ crlf)) as [k|];
      [|pose proof (len_nonneg line); lia].
    f_equal. unfold len in Hline. lia. }
  assert (Hcut : firstn (length line) h = line).
  { rewrite Hh, firstn_app, Nat.sub_diag, firstn_all. cbn [firstn].
    apply app_nil_r. }
  assert (F3 : nth 0 (bytes_split h crlf) [] = line).
  { unfold bytes_split, py_split, bytes.
    rewrite (split_go_first Byte.eqb), Hfind. cbn [rev app]. exact Hcut. }
  assert (F1 : nth 0 (str_split (decode_latin1 h) scrlf) [] = decode_latin1 line).
  { unfold str_split, py_split, str.
    rewrite (split_go_first Ascii.eqb). cbn [rev app].
    change scrlf with (decode_latin1 crlf). rewrite find_first_decode, Hfind.
    replace (firstn (length line) (decode_latin1 h))
      with (decode_latin1 (firstn (length line) h))
      by (unfold decode_latin1; symmetry; apply firstn_map).
    now rewrite Hcut. }
  assert (F2 : nth 1 (str_split (decode_latin1 line) (s " ")) []
               = decode_latin1 (request_target p q)).
  { unfold line, request_line.
    change (m ++ SP :: request_target p q ++ SP :: v)
      with (m ++ [SP] ++ request_target p q ++ [SP] ++ v).
    rewrite !decode_app. unfold str_split, py_split.
    change (s " ") with [ascii_of_byte SP]. change (decode_latin1 [SP]) with [ascii_of_byte SP].
    pose proof Hok as Hok0. destruct Hok as [Hm _].
    rewrite (@split_go_cons _ Ascii.eqb [ascii_of_byte SP] (decode_latin1 m));
      [|discriminate|].
    2:{ apply (@str_find_byte_here SP m _ Hm). }
    rewrite (@split_go_cons _ Ascii.eqb [ascii_of_byte SP]
               (decode_latin1 (request_target p q)));
      [reflexivity|discriminate|].
    apply (@str_find_byte_here SP (request_target p q)).
    apply (@target_no_space m p q v). exact Hok0. }
  pose proof (@target_raw m p q v Hok) as Hraw. cbv zeta in Hraw. fold line in Hraw.
  pose proof (@target_path m p q v Hok) as Hpath.
  unfold parse_headers in Hparse. cbv zeta in Hparse.
  rewrite F1, F3, F2, Hpath, Hraw in Hparse.
  repeat match type of Hparse with
         | (if ?c then _ else _) = _ => destruct c; [discriminate Hparse|]
         end.
  destruct (parse_header_lines _ _ _) as [[hh acc]|e'] eqn:E; cbn [bind] in Hparse;
    [|discriminate].
  destruct (negb hh); [discriminate|].
  injection Hparse as <-. cbn [path raw_path query_string]. auto.
Qed.

Lemma request_target_split_witness :
  path query_parsed = decode_latin1 (b "/a/b")
  /\ raw_path query_parsed = b "/a/b"
  /\ query_string query_parsed = b "x=1".
Proof.
  apply (@request_target_split request_query query_parsed (b "GET") (b "/a/b")
           (Some (b "x=1")) (b "HTTP/1.1") (b "Host: h" ++ crlf ++ crlf));
    try reflexivity.
  repeat split; intros H; cbn in H;
    repeat (destruct H as [H|H]; [discriminate H|]); exact H.
Defined.

End RequestTarget.
